(** * Raiku deterministic battle simulator: a shallow embedding

    The development follows [src/battleEngine.ts], [src/seedRng.ts] and
    [src/types.ts]; the browser build [web/app.js] repeats the engine and
    is followed where it differs.

    Conventions of the embedding.

    - A JavaScript string is the list of its UTF-16 code units
      ([jsstring]); [str.length] is [length] and [str.charCodeAt i] is
      the i-th element.
    - The results of the 32-bit operators ([^], [|], [<<], [>>>],
      [Math.imul]) are kept as their residue in [0, 2^32).  JavaScript
      reads some of them as signed; the signed and the unsigned reading
      differ by a multiple of 2^32 and every consumer in the generator
      reduces modulo 2^32 again.
    - A [number] of the engine (hit points, damage, attack, defense,
      speed, critChance, skillMultiplier and every intermediate result)
      is a binary64 value: [NaN], one of the two infinities, or [Num q],
      the binary64 value nearest to the rational [q], as a numeric
      literal denotes it.  The operators of module [B64] round to
      nearest, ties to even, with 53 bits, gradual underflow from 2^-1074
      and overflow to an infinity at 2^1024.  The two zeros are one
      value: the engine never divides, and nothing it does tells them
      apart.  [Number::toString] is written out, since the log and its
      digest carry the digits.
    - The generator works on 32-bit integers; a roll, a multiple of 2^-32
      below 1, is kept as the exact rational it is and enters the
      arithmetic of the engine as [Num roll].  The round counter and
      [maxRounds] are whole and are kept in [Z].
    - Objects shared by reference (the fighters inside [teams], pointed
      to from the per-round turn list and returned by [chooseTarget]) are
      modelled by a store, the two team lists, and references that are
      positions in those lists.
    - The mutable generator is passed explicitly: every function that
      calls [rng.next] or [rng.nextInt] takes the generator state and
      returns the new one.
    - [Array.prototype.sort], [JSON.stringify] and the SHA-256 of
      [node:crypto] belong to the host.  The sort is an argument of the
      engine ([HostSort]), since the order of its comparator calls is the
      host's; two insertion sorts that differ in the order of the
      arguments they hand to the comparator instantiate it where the
      model is run.  The serialisation and the hash are written out. *)

From Stdlib Require Import ZArith QArith Qround Qabs Qpower Qminmax Lia Lqa.
From Stdlib Require Import List Bool String Ascii.
From Stdlib Require Import Sorting.Permutation Sorting.Sorted.
From stdpp Require Import base relations list sorting.
Import ListNotations.

Local Open Scope Z_scope.

(* ===================================================================== *)
(** * Part I: definitions                                                *)
(* ===================================================================== *)

(** ** Strings *)

Definition jsstring := list Z.

(** A string literal of the source, one code unit per character. *)
Definition lit (s : string) : jsstring :=
  List.map (fun c => Z.of_N (N_of_ascii c)) (list_ascii_of_string s).

(** ** 32-bit operators *)

Definition wrap32 (x : Z) : Z := x mod 4294967296.

(** [Math.imul x y] *)
Definition imul (x y : Z) : Z := wrap32 (wrap32 x * wrap32 y).

(** [x ^ y], [x | y], [x << n], [x >>> n] *)
Definition xor32 (x y : Z) : Z := Z.lxor (wrap32 x) (wrap32 y).
Definition or32 (x y : Z) : Z := Z.lor (wrap32 x) (wrap32 y).
Definition shl32 (x n : Z) : Z := wrap32 (Z.shiftl (wrap32 x) n).
Definition ushr32 (x n : Z) : Z := Z.shiftr (wrap32 x) n.

(** ** seedRng.ts: xmur3 *)

(** Body of the [for] loop of [xmur3], for the code unit [c]. *)
Definition xmur3_absorb (h c : Z) : Z :=
  let h := imul (xor32 h c) 3432918353 in
  or32 (shl32 h 13) (ushr32 h 19).

(** The accumulator [h] once the loop of [xmur3 str] has run. *)
Definition xmur3 (str : jsstring) : Z :=
  fold_left xmur3_absorb str (xor32 1779033703 (Z.of_nat (length str))).

(** One call of the closure returned by [xmur3]: the value returned and
    the new accumulator. *)
Definition xmur3_call (h : Z) : Z * Z :=
  let h := imul (xor32 h (ushr32 h 16)) 2246822507 in
  let h := imul (xor32 h (ushr32 h 13)) 3266489909 in
  let h := xor32 h (ushr32 h 16) in
  (wrap32 h, h).

(** ** seedRng.ts: mulberry32 *)

(** The closure variable [a] of [mulberry32] is a [number] that the source
    never reduces: [a += 0x6D2B79F5] is a binary64 addition of two whole
    numbers.  Its result is the exact sum while that fits in 53 bits and the
    sum rounded to 53 significant bits, ties to even, above. *)
Definition roundWhole (z : Z) : Z :=
  if z <? 2 ^ 53 then z
  else
    let k := Z.log2 z - 52 in
    let q := Z.shiftr z k in
    let r := z - Z.shiftl q k in
    let half := 2 ^ (k - 1) in
    let q' := if r <? half then q
              else if half <? r then q + 1
              else if Z.even q then q else q + 1 in
    Z.shiftl q' k.

Record DeterministicRng := { rng_a : Z }.

(** One call of the closure returned by [mulberry32]: the 32-bit output
    before the division, and the new [a]. *)
Definition mulberry32_call (a : Z) : Z * Z :=
  let a := roundWhole (a + 1831565813) in
  let t := a in
  let t := imul (xor32 t (ushr32 t 15)) (or32 t 1) in
  let t := xor32 t (wrap32 (t + imul (xor32 t (ushr32 t 7)) (or32 t 61))) in
  (wrap32 (xor32 t (ushr32 t 14)), a).

(** ** seedRng.ts: createDeterministicRng *)

Definition createDeterministicRng (seed : jsstring) : DeterministicRng :=
  let a := fst (xmur3_call (xmur3 seed)) in
  {| rng_a := a |}.

(** [rng.next()] *)
Definition next (rng : DeterministicRng) : Q * DeterministicRng :=
  let '(out, a) := mulberry32_call (rng_a rng) in
  (out # 4294967296, {| rng_a := a |}).

(** [rng.nextInt(maxExclusive)] *)
Definition nextInt (rng : DeterministicRng) (maxExclusive : Q)
  : Z * DeterministicRng :=
  if Qle_bool maxExclusive 0 then (0, rng)
  else
    let '(r, rng') := next rng in
    (Qfloor (r * maxExclusive), rng').

(** The generator after [k] calls of [next]. *)
Fixpoint advance (k : nat) (rng : DeterministicRng) : DeterministicRng :=
  match k with
  | O => rng
  | S k' => advance k' (snd (next rng))
  end.

(** ** Numbers

    A JavaScript [number] is an IEEE 754 binary64 value.  [Num q] is the
    number that the literal [q] denotes, the binary64 value nearest to the
    rational [q] (ties to even, infinite from 2^1024 on); every finite
    number is [Num] of its own value.  The two zeros are one value: the
    program never divides by a number and prints no sign of a zero.  The
    operators round the exact result of the values of their operands. *)
Inductive number :=
| NaN
| PosInf
| NegInf
| Num (q : Q).

Module B64.

Definition pow2 (e : Z) : Q := (2 ^ e)%Q.

(** [floor (log2 |x|)], for [x] other than 0. *)
Definition Qlog2 (x : Q) : Z :=
  let a := Z.abs (Qnum x) in
  let b := Zpos (Qden x) in
  let d := Z.log2 a - Z.log2 b in
  if a * 2 ^ Z.max 0 (- d) <? b * 2 ^ Z.max 0 d then d - 1 else d.

(** The exponent of the last place of the binary64 values around [x]:
    53 significant bits, and no place below 2^-1074. *)
Definition ulpExp (x : Q) : Z := Z.max (Qlog2 x - 52) (-1074).

(** The whole number nearest to [x], the even one of two equally near. *)
Definition rne (x : Q) : Z :=
  let f := Qfloor x in
  match (x - inject_Z f ?= 1 # 2)%Q with
  | Lt => f
  | Gt => f + 1
  | Eq => if Z.even f then f else f + 1
  end.

(** The multiple of the last place nearest to [x]. *)
Definition nearest (x : Q) : Q :=
  if Qeq_bool x 0 then 0%Q
  else
    let e := ulpExp x in
    Qred (inject_Z (rne (x / pow2 e)) * pow2 e).

(** The number for the exact result [x] of an operation. *)
Definition round (x : Q) : number :=
  let y := nearest x in
  if Qle_bool (pow2 1024) (Qabs y) then
    if Qle_bool 0 x then PosInf else NegInf
  else Num y.

(** A number in the form in which the operators return it. *)
Definition norm (a : number) : number :=
  match a with
  | Num q => round q
  | _ => a
  end.

Definition ofZ (n : Z) : number := Num (inject_Z n).

(** [-a] *)
Definition neg (a : number) : number :=
  match norm a with
  | NaN => NaN
  | PosInf => NegInf
  | NegInf => PosInf
  | Num x => round (- x)
  end.

(** [a + b] *)
Definition add (a b : number) : number :=
  match norm a, norm b with
  | NaN, _ | _, NaN => NaN
  | PosInf, NegInf | NegInf, PosInf => NaN
  | PosInf, _ | _, PosInf => PosInf
  | NegInf, _ | _, NegInf => NegInf
  | Num x, Num y => round (x + y)
  end.

(** [a - b] *)
Definition sub (a b : number) : number := add a (neg b).

(** The sign of a number other than [NaN]: -1, 0 or 1. *)
Definition sign (a : number) : Z :=
  match norm a with
  | NaN => 0
  | PosInf => 1
  | NegInf => -1
  | Num x => match (x ?= 0)%Q with Lt => -1 | Eq => 0 | Gt => 1 end
  end.

(** [a * b] *)
Definition mul (a b : number) : number :=
  match norm a, norm b with
  | NaN, _ | _, NaN => NaN
  | Num x, Num y => round (x * y)
  | a', b' =>
      match sign a' * sign b' with
      | Z0 => NaN
      | Zpos _ => PosInf
      | Zneg _ => NegInf
      end
  end.

(** [a < b] *)
Definition ltb (a b : number) : bool :=
  match norm a, norm b with
  | NaN, _ | _, NaN => false
  | _, NegInf => false
  | NegInf, _ => true
  | PosInf, _ => false
  | _, PosInf => true
  | Num x, Num y => negb (Qle_bool y x)
  end.

(** [a <= b] *)
Definition leb (a b : number) : bool :=
  match norm a, norm b with
  | NaN, _ | _, NaN => false
  | NegInf, _ => true
  | _, NegInf => false
  | _, PosInf => true
  | PosInf, _ => false
  | Num x, Num y => Qle_bool x y
  end.

(** [a === b] *)
Definition eqb (a b : number) : bool :=
  match norm a, norm b with
  | PosInf, PosInf | NegInf, NegInf => true
  | Num x, Num y => Qeq_bool x y
  | _, _ => false
  end.

(** [Math.max(a, b)] *)
Definition max (a b : number) : number :=
  match norm a, norm b with
  | NaN, _ | _, NaN => NaN
  | a', b' => if ltb a' b' then b' else a'
  end.

(** [Math.floor(a)] *)
Definition floor (a : number) : number :=
  match norm a with
  | Num x => round (inject_Z (Qfloor x))
  | a' => a'
  end.

(** [Number.isFinite(a)], [Number.isNaN(a)], and the value of a finite
    number; where a value is asked of a number that is not finite it is
    0. *)
Definition isFinite (a : number) : bool :=
  match norm a with
  | Num _ => true
  | _ => false
  end.

Definition isNaN (a : number) : bool :=
  match norm a with
  | NaN => true
  | _ => false
  end.

Definition value (a : number) : Q :=
  match norm a with
  | Num x => x
  | _ => 0%Q
  end.

(** ** Number::toString

    The decimal digits of a finite number are the shortest that denote it
    again, the nearest to its value among those, the even one of two
    equally near; the notation is positional up to 10^21 and down to
    10^-6, and with an exponent outside. *)

Definition pow10 (n : Z) : Q := (10 ^ n)%Q.

Fixpoint raiseExponent (fuel : nat) (x : Q) (n : Z) : Z :=
  match fuel with
  | O => n
  | S fuel' =>
      if Qle_bool (pow10 n) x then raiseExponent fuel' x (n + 1) else n
  end.

Fixpoint lowerExponent (fuel : nat) (x : Q) (n : Z) : Z :=
  match fuel with
  | O => n
  | S fuel' =>
      if Qle_bool (pow10 (n - 1)) x then n else lowerExponent fuel' x (n - 1)
  end.

(** The [n] with [10^(n-1) <= x < 10^n], for [x > 0]. *)
Definition decimalExponent (x : Q) : Z :=
  let estimate := Qlog2 x * 30103 / 100000 in
  lowerExponent 4 x (raiseExponent 4 x estimate).

(** [s * scale] denotes [x]. *)
Definition denotes (x : Q) (s : Z) (scale : Q) : bool :=
  match round (inject_Z s * scale) with
  | Num y => Qeq_bool y x
  | _ => false
  end.

(** The digits [s], their number [k] and the exponent [n], from [k]
    digits on; 17 digits denote any binary64 value. *)
Fixpoint shortest (fuel : nat) (k : Z) (x : Q) (n : Z) : Z * Z * Z :=
  match fuel with
  | O => (0, 1, n)
  | S fuel' =>
      let scale := pow10 (n - k) in
      let lo := Qfloor (x / scale) in
      let hi := lo + 1 in
      let pick :=
        match denotes x lo scale, denotes x hi scale with
        | true, true =>
            match (x - inject_Z lo * scale ?= inject_Z hi * scale - x)%Q with
            | Lt => Some lo
            | Gt => Some hi
            | Eq => Some (if Z.even lo then lo else hi)
            end
        | true, false => Some lo
        | false, true => Some hi
        | false, false => None
        end in
      match pick with
      | Some s => if s =? 10 ^ k then (10 ^ (k - 1), k, n + 1) else (s, k, n)
      | None => shortest fuel' (k + 1) x n
      end
  end.

Fixpoint digitsOf (fuel : nat) (n : Z) (acc : jsstring) : jsstring :=
  match fuel with
  | O => acc
  | S fuel' =>
      let acc' := (48 + n mod 10) :: acc in
      if n <? 10 then acc' else digitsOf fuel' (n / 10) acc'
  end.

(** The decimal digits of a whole number [n >= 0]. *)
Definition digits (n : Z) : jsstring :=
  digitsOf (S (Z.to_nat (Z.log2 n))) n [].

Definition zeros (n : Z) : jsstring := List.repeat 48 (Z.to_nat n).

Definition toStringPositive (x : Q) : jsstring :=
  let '(s, k, n) := shortest 17 1 x (decimalExponent x) in
  let ds := digits s in
  if (k <=? n) && (n <=? 21) then ds ++ zeros (n - k)
  else if (0 <? n) && (n <=? 21) then
    firstn (Z.to_nat n) ds ++ [46] ++ skipn (Z.to_nat n) ds
  else if (-6 <? n) && (n <=? 0) then [48; 46] ++ zeros (- n) ++ ds
  else
    let e := n - 1 in
    let exponent := (if e <? 0 then [45] else [43]) ++ digits (Z.abs e) in
    if k =? 1 then ds ++ [101] ++ exponent
    else firstn 1 ds ++ [46] ++ skipn 1 ds ++ [101] ++ exponent.

(** [String(a)], also the text of [a] in a template literal. *)
Definition toString (a : number) : jsstring :=
  match norm a with
  | NaN => lit "NaN"
  | PosInf => lit "Infinity"
  | NegInf => lit "-Infinity"
  | Num x =>
      match (x ?= 0)%Q with
      | Eq => lit "0"
      | Lt => [45] ++ toStringPositive (- x)
      | Gt => toStringPositive x
      end
  end.

(** The rationals that binary64 holds, overflow apart. *)
Definition representable (x : Q) : Prop :=
  exists m e,
    -1074 <= e /\ Z.abs m < 2 ^ 53 /\ (x == inject_Z m * pow2 e)%Q.

End B64.

(** ** types.ts *)

Record Character := {
  c_id : jsstring;
  c_name : jsstring;
  maxHp : number;
  attack : number;
  defense : number;
  speed : number;
  critChance : number;
  skillMultiplier : number
}.

Record BattleConfig := {
  seed : jsstring;
  maxRounds : Z
}.

Inductive TeamTag := TeamA | TeamB.

#[global] Instance TeamTag_eq_dec : EqDecision TeamTag.
Proof. solve_decision. Defined.

Inductive Winner := WinnerA | WinnerB | DRAW.

Record CharacterSnapshot := {
  s_id : jsstring;
  s_name : jsstring;
  hpBefore : number;
  hpAfter : number
}.

Record BattleEvent := {
  round : Z;
  actorTeam : TeamTag;
  actor : CharacterSnapshot;
  target : CharacterSnapshot;
  damage : number;
  isCrit : bool;
  description : jsstring
}.

Record FighterState := {
  fs_id : jsstring;
  fs_name : jsstring;
  fs_hp : number;
  fs_maxHp : number;
  fs_alive : bool
}.

Record FinalState := {
  fin_teamA : list FighterState;
  fin_teamB : list FighterState
}.

Record BattleResult := {
  config : BattleConfig;
  winner : Winner;
  rounds : Z;
  log : list BattleEvent;
  finalState : FinalState;
  logHash : jsstring
}.

(** ** battleEngine.ts: fighters and teams *)

Record InternalFighter := {
  base : Character;
  hp : number;
  alive : bool
}.

Record BattleTeams := {
  teamA : list InternalFighter;
  teamB : list InternalFighter
}.

Definition createDefaultTeams : list Character * list Character :=
  ([ {| c_id := lit "knight"; c_name := lit "Aurora Knight"; maxHp := Num 120;
        attack := Num 24; defense := Num 16; speed := Num 8;
        critChance := Num 0.15; skillMultiplier := Num 1.4 |};
     {| c_id := lit "archer"; c_name := lit "Stellar Archer"; maxHp := Num 80;
        attack := Num 28; defense := Num 10; speed := Num 14;
        critChance := Num 0.25; skillMultiplier := Num 1.5 |} ],
   [ {| c_id := lit "orc"; c_name := lit "Raiku Orc Brute"; maxHp := Num 140;
        attack := Num 22; defense := Num 14; speed := Num 7;
        critChance := Num 0.12; skillMultiplier := Num 1.3 |};
     {| c_id := lit "mage"; c_name := lit "Deterministic Mage"; maxHp := Num 70;
        attack := Num 30; defense := Num 8; speed := Num 12;
        critChance := Num 0.20; skillMultiplier := Num 1.6 |} ]).

Definition cloneFighter (c : Character) : InternalFighter :=
  {| base := c; hp := maxHp c; alive := true |}.

Definition cloneTeams (teamA teamB : list Character) : BattleTeams :=
  {| teamA := List.map cloneFighter teamA;
     teamB := List.map cloneFighter teamB |}.

Definition snapshotFighter (f : InternalFighter) : FighterState :=
  {| fs_id := c_id (base f);
     fs_name := c_name (base f);
     fs_hp := hp f;
     fs_maxHp := maxHp (base f);
     fs_alive := alive f |}.

Definition allDead (team : list InternalFighter) : bool :=
  forallb (fun f => negb (alive f)) team.

(** ** battleEngine.ts: the combat resolver *)

(** The elements of an array with their positions. *)
Definition indexed {A : Type} (l : list A) : list (nat * A) :=
  combine (seq 0 (length l)) l.

(** [chooseTarget]: the fighter returned is a reference into [opponents];
    the model returns its position together with the object read there. *)
Definition chooseTarget (rng : DeterministicRng)
    (opponents : list InternalFighter)
  : option (nat * InternalFighter) * DeterministicRng :=
  let living := List.filter (fun o => alive (snd o)) (indexed opponents) in
  if (length living =? 0)%nat then (None, rng)
  else
    let '(idx, rng') := nextInt rng (inject_Z (Z.of_nat (length living))) in
    (living !! Z.to_nat idx, rng').

Record DamageRoll := {
  dr_damage : number;
  dr_isCrit : bool
}.

(** [computeDamage]: a roll is a multiple of 2^-32 below 1, a binary64
    value as it stands. *)
Definition computeDamage (rng : DeterministicRng)
    (attacker defender : InternalFighter)
  : DamageRoll * DeterministicRng :=
  let base_ :=
    B64.max (Num 1)
      (B64.sub (attack (base attacker))
         (B64.mul (defense (base defender)) (Num 0.5))) in
  let '(skillRoll, rng) := next rng in
  let useSkill := B64.ltb (Num skillRoll) (Num 0.35) in
  let '(critRoll, rng) := next rng in
  let isCrit_ := B64.ltb (Num critRoll) (critChance (base attacker)) in
  let skillMultiplier_ :=
    if useSkill then skillMultiplier (base attacker) else Num 1.0 in
  let '(varianceRoll, rng) := next rng in
  let variance := B64.add (Num 0.9) (B64.mul (Num varianceRoll) (Num 0.2)) in
  let dmg := B64.mul (B64.mul base_ skillMultiplier_) variance in
  let dmg := if isCrit_ then B64.mul dmg (Num 1.7) else dmg in
  let final := B64.max (Num 1) (B64.floor dmg) in
  ({| dr_damage := final; dr_isCrit := isCrit_ |}, rng).

(** ** Sorting routines

    A straight insertion sort with a comparator that threads a state: each
    element [x] in turn is moved left past the elements [y] of the sorted
    prefix, scanned from its right end, that the comparator puts after it.
    The routine either asks [comparefn y x] and moves on a result above 0,
    or hands the comparator the element being inserted first, asks
    [comparefn x y] and moves on a result below 0.  The sorted prefix is
    kept with its right end first. *)
Section ArraySort.
Context {A S : Type}.
Variable pivotFirst : bool.
Variable comparefn : A -> A -> S -> number * S.

Definition putsAfter (y x : A) (s : S) : bool * S :=
  if pivotFirst then
    let '(order, s') := comparefn x y s in (B64.ltb order (Num 0), s')
  else
    let '(order, s') := comparefn y x s in (B64.ltb (Num 0) order, s').

Fixpoint insertSorted (x : A) (prefix : list A) (s : S) : list A * S :=
  match prefix with
  | [] => ([x], s)
  | y :: prefix' =>
      let '(moves, s') := putsAfter y x s in
      if moves then
        let '(placed, s'') := insertSorted x prefix' s' in
        (y :: placed, s'')
      else (x :: y :: prefix', s')
  end.

Fixpoint sortLoop (pending prefix : list A) (s : S) : list A * S :=
  match pending with
  | [] => (rev prefix, s)
  | x :: pending' =>
      let '(prefix', s') := insertSorted x prefix s in
      sortLoop pending' prefix' s'
  end.

Definition arraySort (l : list A) (s : S) : list A * S := sortLoop l [] s.
End ArraySort.

(** ** battleEngine.ts: the state of one simulation *)

(** An element [{ fighter, team }] of the per-round array [fighters]:
    [fighter] is the position of the fighter in the list of its team. *)
Record TurnEntry := {
  fighter : nat;
  team : TeamTag
}.

Record Sim := {
  teams : BattleTeams;
  rng : DeterministicRng;
  events : list BattleEvent
}.

Definition teamOf (t : TeamTag) (ts : BattleTeams) : list InternalFighter :=
  match t with TeamA => teamA ts | TeamB => teamB ts end.

(** [team === "A" ? teams.teamB : teams.teamA] *)
Definition opponentsOf (t : TeamTag) (ts : BattleTeams)
  : list InternalFighter :=
  match t with TeamA => teamB ts | TeamB => teamA ts end.

(** Writing the fighter at position [i] of the team opposing [t]. *)
Definition setOpponent (t : TeamTag) (i : nat) (f : InternalFighter)
    (ts : BattleTeams) : BattleTeams :=
  match t with
  | TeamA => {| teamA := teamA ts; teamB := <[i := f]> (teamB ts) |}
  | TeamB => {| teamA := <[i := f]> (teamA ts); teamB := teamB ts |}
  end.

(** Following the reference of a turn entry. *)
Definition deref (ts : BattleTeams) (e : TurnEntry) : option InternalFighter :=
  teamOf (team e) ts !! fighter e.

(** The two [for] loops that fill [fighters]. *)
Fixpoint pushLiving (tag : TeamTag) (i : nat) (members : list InternalFighter)
    (fighters : list TurnEntry) : list TurnEntry :=
  match members with
  | [] => fighters
  | f :: members' =>
      pushLiving tag (S i) members'
        (if alive f then fighters ++ [{| fighter := i; team := tag |}]
         else fighters)
  end.

Definition collectFighters (ts : BattleTeams) : list TurnEntry :=
  pushLiving TeamB 0 (teamB ts) (pushLiving TeamA 0 (teamA ts) []).

(** [a.fighter.base.speed]; the entries of [fighters] always point into
    their team, the default is never read. *)
Definition speedOf (ts : BattleTeams) (e : TurnEntry) : number :=
  match deref ts e with
  | Some f => speed (base f)
  | None => Num 0
  end.

(** The comparator handed to [fighters.sort]. *)
Definition compareTurn (ts : BattleTeams) (a b : TurnEntry)
    (rng : DeterministicRng) : number * DeterministicRng :=
  if negb (B64.eqb (speedOf ts a) (speedOf ts b)) then
    (B64.sub (speedOf ts b) (speedOf ts a), rng)
  else
    let '(rollA, rng) := next rng in
    let '(rollB, rng) := next rng in
    (B64.sub (Num rollB) (Num rollA), rng).

(** ** Orders on a sorted array *)

(** Keys that do not decrease, and keys that do not increase, along a
    list. *)
Definition ascending {A : Type} (key : A -> Q) : list A -> Prop :=
  StronglySorted (fun x y => (key x <= key y)%Q).
Definition descending {A : Type} (key : A -> Q) : list A -> Prop :=
  StronglySorted (fun x y => (key y <= key x)%Q).

(** A comparison that leaves the state it is given as it was. *)
Definition quiet {A S : Type} (comparefn : A -> A -> S -> number * S)
    (a b : A) : Prop :=
  forall s, snd (comparefn a b s) = s.

(** A comparator whose sign follows a key wherever the keys differ: it puts
    the larger key first.  On equal keys it may return anything. *)
Definition followsKey {A S : Type} (comparefn : A -> A -> S -> number * S)
    (key : A -> Q) : Prop :=
  forall a b s,
    ((key a < key b)%Q -> B64.ltb (Num 0) (fst (comparefn a b s)) = true)
    /\ ((key b < key a)%Q -> B64.ltb (fst (comparefn a b s)) (Num 0) = true).

(** ** Array.prototype.sort

    The routine belongs to the host, and ECMAScript leaves the sequence of
    its comparator calls to the host.  The engine is therefore given the
    routine as an argument: a function from the comparator, the array and
    the state of the generator to the sorted array and the state the
    comparator calls have left. *)
Definition HostSort : Type :=
  (TurnEntry -> TurnEntry -> DeterministicRng -> number * DeterministicRng) ->
  list TurnEntry -> DeterministicRng -> list TurnEntry * DeterministicRng.

(** Two hosts: the insertion sorts above. *)
Definition insertionSort : HostSort :=
  fun comparefn l s => arraySort false comparefn l s.

Definition pivotSort : HostSort :=
  fun comparefn l s => arraySort true comparefn l s.

(** The result of the host is a rearrangement of the array. *)
Definition permutes (hostSort : HostSort) : Prop :=
  forall comparefn l s, Permutation l (fst (hostSort comparefn l s)).

(** The state changes through comparator calls only, and no element is
    compared with itself: comparisons that leave the state as it was on
    distinct elements leave the sort without effect on it. *)
Definition comparesApart (hostSort : HostSort) : Prop :=
  forall comparefn l s,
    NoDup l ->
    (forall a b, In a l -> In b l -> a <> b -> quiet comparefn a b) ->
    snd (hostSort comparefn l s) = s.

(** The result is in descending order of any key that the comparator
    follows. *)
Definition ordersByKey (hostSort : HostSort) : Prop :=
  forall comparefn (key : TurnEntry -> Q) l s,
    followsKey comparefn key ->
    descending key (fst (hostSort comparefn l s)).

(** What the turn order needs from the host. *)
Definition sortsByComparator (hostSort : HostSort) : Prop :=
  permutes hostSort /\ comparesApart hostSort /\ ordersByKey hostSort.

(** [fighters.sort((a, b) => ...)] *)
Definition sortFighters (hostSort : HostSort) (ts : BattleTeams)
    (fighters : list TurnEntry) (rng : DeterministicRng)
  : list TurnEntry * DeterministicRng :=
  hostSort (compareTurn ts) fighters rng.

Definition teamLetter (t : TeamTag) : jsstring :=
  match t with TeamA => lit "A" | TeamB => lit "B" end.

(** ** battleEngine.ts: one turn *)

(** How the body of [for (const { fighter, team } of fighters)] leaves:
    at its end or through [continue], or through [break]. *)
Inductive Flow :=
| Continue (st : Sim)
| Break (st : Sim).

Definition mkEvent (round_ : Z) (team_ : TeamTag)
    (fighter_ target_ : InternalFighter) (beforeHp : number)
    (roll : DamageRoll)
  : BattleEvent :=
  {| round := round_;
     actorTeam := team_;
     actor := {| s_id := c_id (base fighter_);
                 s_name := c_name (base fighter_);
                 hpBefore := hp fighter_;
                 hpAfter := hp fighter_ |};
     target := {| s_id := c_id (base target_);
                  s_name := c_name (base target_);
                  hpBefore := beforeHp;
                  hpAfter := hp target_ |};
     damage := dr_damage roll;
     isCrit := dr_isCrit roll;
     description :=
       c_name (base fighter_) ++ lit " from Team " ++ teamLetter team_
       ++ lit " hits " ++ c_name (base target_) ++ lit " for "
       ++ B64.toString (dr_damage roll) ++ lit " damage"
       ++ (if dr_isCrit roll then lit " (CRIT)" else []) ++ lit "." |}.

(** [target.hp = Math.max(0, target.hp - damage)] *)
Definition assignHp (target_ : InternalFighter) (damage_ : number)
  : InternalFighter :=
  {| base := base target_;
     hp := B64.max (Num 0) (B64.sub (hp target_) damage_);
     alive := alive target_ |}.

(** [if (target.hp === 0) target.alive = false] *)
Definition clearAlive (target_ : InternalFighter) : InternalFighter :=
  {| base := base target_;
     hp := hp target_;
     alive := if B64.eqb (hp target_) (Num 0) then false else alive target_ |}.

(** The two assignments to the target of an attack. *)
Definition applyDamage (target_ : InternalFighter) (damage_ : number)
  : InternalFighter :=
  clearAlive (assignHp target_ damage_).

(** The turn from [chooseTarget] on. *)
Definition strike (round_ : Z) (e : TurnEntry) (fighter_ : InternalFighter)
    (st : Sim) : Flow :=
  let opponents := opponentsOf (team e) (teams st) in
  match chooseTarget (rng st) opponents with
  | (None, rng1) =>
      Continue {| teams := teams st; rng := rng1; events := events st |}
  | (Some (i, target_), rng1) =>
      let beforeHp := hp target_ in
      let '(roll, rng2) := computeDamage rng1 fighter_ target_ in
      let target' := applyDamage target_ (dr_damage roll) in
      let event := mkEvent round_ (team e) fighter_ target' beforeHp roll in
      Continue {| teams := setOpponent (team e) i target' (teams st);
                  rng := rng2;
                  events := events st ++ [event] |}
  end.

(** The whole body of the [for] loop over [fighters]. *)
Definition takeTurn (round_ : Z) (e : TurnEntry) (st : Sim) : Flow :=
  match deref (teams st) e with
  | None => Continue st
  | Some fighter_ =>
      if negb (alive fighter_) then Continue st
      else if allDead (opponentsOf (team e) (teams st)) then Break st
      else strike round_ e fighter_ st
  end.

Fixpoint runTurns (round_ : Z) (fighters : list TurnEntry) (st : Sim) : Sim :=
  match fighters with
  | [] => st
  | e :: fighters' =>
      match takeTurn round_ e st with
      | Continue st' => runTurns round_ fighters' st'
      | Break st' => st'
      end
  end.

(** ** battleEngine.ts: the round loop *)

(** [while (round < config.maxRounds) { ... }].  The recursion is on
    [fuel]; the test of the loop is the one of the source.  The caller
    gives [Z.to_nat maxRounds], which the loop never uses up before its
    test fails (see [roundLoop_fuel]). *)
Fixpoint roundLoop (hostSort : HostSort) (fuel : nat) (maxRounds_ : Z)
    (round_ : Z) (st : Sim) : Z * Sim :=
  match fuel with
  | O => (round_, st)
  | S fuel' =>
      if round_ <? maxRounds_ then
        let round_ := round_ + 1 in
        let fighters := collectFighters (teams st) in
        if (length fighters =? 0)%nat then (round_, st)
        else
          let '(fighters, rng1) :=
            sortFighters hostSort (teams st) fighters (rng st) in
          let st1 :=
            runTurns round_ fighters
              {| teams := teams st; rng := rng1; events := events st |} in
          let teamADead := allDead (teamA (teams st1)) in
          let teamBDead := allDead (teamB (teams st1)) in
          if teamADead || teamBDead then (round_, st1)
          else roundLoop hostSort fuel' maxRounds_ round_ st1
      else (round_, st)
  end.

(** [team.reduce((sum, f) => sum + f.hp, 0)] *)
Definition totalHp (members : list InternalFighter) : number :=
  fold_left (fun sum f => B64.add sum (hp f)) members (Num 0).

Definition resolveWinner (ts : BattleTeams) : Winner :=
  let teamADeadFinal := allDead (teamA ts) in
  let teamBDeadFinal := allDead (teamB ts) in
  if teamADeadFinal && negb teamBDeadFinal then WinnerB
  else if negb teamADeadFinal && teamBDeadFinal then WinnerA
  else
    let hpA := totalHp (teamA ts) in
    let hpB := totalHp (teamB ts) in
    if B64.ltb hpB hpA then WinnerA
    else if B64.ltb hpA hpB then WinnerB
    else DRAW.

Definition initialSim (teamA_ teamB_ : list Character) (seed_ : jsstring)
  : Sim :=
  {| teams := cloneTeams teamA_ teamB_;
     rng := createDeterministicRng seed_;
     events := [] |}.

(** The state when the round loop has ended, with the round counter. *)
Definition runBattle (hostSort : HostSort) (teamA_ teamB_ : list Character)
    (cfg : BattleConfig) : Z * Sim :=
  roundLoop hostSort (Z.to_nat (maxRounds cfg)) (maxRounds cfg) 0
    (initialSim teamA_ teamB_ (seed cfg)).

(** ** JSON.stringify on the log *)

Definition hexDigit (d : Z) : Z := if d <? 10 then 48 + d else 87 + d.

Definition isHighSurrogate (c : Z) : bool := (55296 <=? c) && (c <=? 56319).
Definition isLowSurrogate (c : Z) : bool := (56320 <=? c) && (c <=? 57343).

(** The escape [\uXXXX] of a code unit, in lower-case digits. *)
Definition unicodeEscape (c : Z) : jsstring :=
  [92; 117; hexDigit (c / 4096 mod 16); hexDigit (c / 256 mod 16);
   hexDigit (c / 16 mod 16); hexDigit (c mod 16)].

Definition quoteUnit (c : Z) : jsstring :=
  if c =? 8 then [92; 98]
  else if c =? 9 then [92; 116]
  else if c =? 10 then [92; 110]
  else if c =? 12 then [92; 102]
  else if c =? 13 then [92; 114]
  else if c =? 34 then [92; 34]
  else if c =? 92 then [92; 92]
  else if c <? 32 then unicodeEscape c
  else [c].

(** The inside of a quoted JSON string: a surrogate pair is kept, a lone
    surrogate and a control character are escaped. *)
Fixpoint quoteUnits (s : jsstring) : jsstring :=
  match s with
  | [] => []
  | c :: rest =>
      if isHighSurrogate c then
        match rest with
        | d :: rest' =>
            if isLowSurrogate d then c :: d :: quoteUnits rest'
            else unicodeEscape c ++ quoteUnits rest
        | [] => unicodeEscape c
        end
      else if isLowSurrogate c then unicodeEscape c ++ quoteUnits rest
      else quoteUnit c ++ quoteUnits rest
  end.

Definition jsonString (s : jsstring) : jsstring := [34] ++ quoteUnits s ++ [34].
(** A number that is not finite is serialised as [null]. *)
Definition jsonNumber (n : number) : jsstring :=
  if B64.isFinite n then B64.toString n else lit "null".
Definition jsonBoolean (b : bool) : jsstring :=
  if b then lit "true" else lit "false".

Fixpoint joinComma (parts : list jsstring) : jsstring :=
  match parts with
  | [] => []
  | [x] => x
  | x :: rest => x ++ [44] ++ joinComma rest
  end.

Definition jsonMember (key : string) (value : jsstring) : jsstring :=
  jsonString (lit key) ++ [58] ++ value.
Definition jsonObject (members : list jsstring) : jsstring :=
  [123] ++ joinComma members ++ [125].
Definition jsonArray (elements : list jsstring) : jsstring :=
  [91] ++ joinComma elements ++ [93].

Definition jsonSnapshot (s : CharacterSnapshot) : jsstring :=
  jsonObject
    [ jsonMember "id" (jsonString (s_id s));
      jsonMember "name" (jsonString (s_name s));
      jsonMember "hpBefore" (jsonNumber (hpBefore s));
      jsonMember "hpAfter" (jsonNumber (hpAfter s)) ].

Definition jsonEvent (e : BattleEvent) : jsstring :=
  jsonObject
    [ jsonMember "round" (jsonNumber (B64.ofZ (round e)));
      jsonMember "actorTeam" (jsonString (teamLetter (actorTeam e)));
      jsonMember "actor" (jsonSnapshot (actor e));
      jsonMember "target" (jsonSnapshot (target e));
      jsonMember "damage" (jsonNumber (damage e));
      jsonMember "isCrit" (jsonBoolean (isCrit e));
      jsonMember "description" (jsonString (description e)) ].

(** [JSON.stringify(log)]: the members of an event in the order in which
    the object literal of the engine lists them. *)
Definition JSON_stringify (log_ : list BattleEvent) : jsstring :=
  jsonArray (List.map jsonEvent log_).

(** ** The bytes hashed: [update(json, "utf8")] *)

Definition replacementBytes : list Z := [239; 191; 189].

Fixpoint utf8 (s : jsstring) : list Z :=
  match s with
  | [] => []
  | c :: rest =>
      if c <? 128 then c :: utf8 rest
      else if c <? 2048 then
        (192 + c / 64) :: (128 + c mod 64) :: utf8 rest
      else if isHighSurrogate c then
        match rest with
        | d :: rest' =>
            if isLowSurrogate d then
              let cp := 65536 + (c - 55296) * 1024 + (d - 56320) in
              (240 + cp / 262144) :: (128 + cp / 4096 mod 64)
              :: (128 + cp / 64 mod 64) :: (128 + cp mod 64) :: utf8 rest'
            else replacementBytes ++ utf8 rest
        | [] => replacementBytes
        end
      else if isLowSurrogate c then replacementBytes ++ utf8 rest
      else
        (224 + c / 4096) :: (128 + c / 64 mod 64) :: (128 + c mod 64)
        :: utf8 rest
  end.

(** ** SHA-256 (FIPS 180-4), on 32-bit words held in [Z] *)

Module Sha256.

Definition add32 (x y : Z) : Z := wrap32 (x + y).
Definition rotr (n x : Z) : Z := or32 (ushr32 x n) (shl32 x (32 - n)).
Definition not32 (x : Z) : Z := Z.lxor (wrap32 x) 4294967295.

Definition Ch (x y z : Z) : Z :=
  Z.lxor (Z.land x y) (Z.land (not32 x) z).
Definition Maj (x y z : Z) : Z :=
  Z.lxor (Z.lxor (Z.land x y) (Z.land x z)) (Z.land y z).
Definition Sigma0 (x : Z) : Z :=
  Z.lxor (Z.lxor (rotr 2 x) (rotr 13 x)) (rotr 22 x).
Definition Sigma1 (x : Z) : Z :=
  Z.lxor (Z.lxor (rotr 6 x) (rotr 11 x)) (rotr 25 x).
Definition sigma0 (x : Z) : Z :=
  Z.lxor (Z.lxor (rotr 7 x) (rotr 18 x)) (ushr32 x 3).
Definition sigma1 (x : Z) : Z :=
  Z.lxor (Z.lxor (rotr 17 x) (rotr 19 x)) (ushr32 x 10).

(** The constants of the standard are the first 32 bits of the fractional
    parts of roots of the first primes: cube roots of the first 64 for the
    round constants, square roots of the first 8 for the initial state. *)
Definition isPrime (n : nat) : bool :=
  forallb (fun d => negb (n mod d =? 0)%nat) (seq 2 (n - 2)).

Definition primes : list Z :=
  List.map Z.of_nat (List.filter isPrime (seq 2 310)).

(** The largest [r] below [2 ^ bits] with [r ^ 3 <= n], one bit at a
    time. *)
Fixpoint cubeRoot (bits : nat) (r n : Z) : Z :=
  match bits with
  | O => r
  | S bits' =>
      let r' := r + 2 ^ Z.of_nat bits' in
      cubeRoot bits' (if r' * r' * r' <=? n then r' else r) n
  end.

Definition K : list Z :=
  List.map (fun p => wrap32 (cubeRoot 36 0 (p * 2 ^ 96))) primes.

Record state := {
  h0 : Z; h1 : Z; h2 : Z; h3 : Z; h4 : Z; h5 : Z; h6 : Z; h7 : Z
}.

Definition rootBits (i : nat) : Z :=
  wrap32 (Z.sqrt (nth i primes 0 * 2 ^ 64)).

Definition initial : state :=
  {| h0 := rootBits 0; h1 := rootBits 1; h2 := rootBits 2; h3 := rootBits 3;
     h4 := rootBits 4; h5 := rootBits 5; h6 := rootBits 6; h7 := rootBits 7 |}.

(** Padding: the byte 0x80, zero bytes up to 56 modulo 64, and the
    length in bits as eight big-endian bytes. *)
Definition bigEndian64 (n : Z) : list Z :=
  List.map (fun i => Z.shiftr n (8 * i) mod 256) [7; 6; 5; 4; 3; 2; 1; 0].

Definition pad (msg : list Z) : list Z :=
  let len := Z.of_nat (length msg) in
  msg ++ [128] ++ List.repeat 0 (Z.to_nat ((55 - len) mod 64))
      ++ bigEndian64 (8 * len).

(** The 32-bit big-endian words of a byte sequence. *)
Fixpoint words (fuel : nat) (bytes : list Z) : list Z :=
  match fuel, bytes with
  | S fuel', b0 :: b1 :: b2 :: b3 :: rest =>
      (((b0 mod 256) * 256 + b1 mod 256) * 256 + b2 mod 256) * 256
        + b3 mod 256
      :: words fuel' rest
  | _, _ => []
  end.

(** The message schedule: [n] more words after the ones in [ws]. *)
Fixpoint schedule (n : nat) (ws : list Z) : list Z :=
  match n with
  | O => ws
  | S n' =>
      let t := length ws in
      let w i := nth (t - i) ws 0 in
      schedule n'
        (ws ++ [add32 (add32 (sigma1 (w 2%nat)) (w 7%nat))
                      (add32 (sigma0 (w 15%nat)) (w 16%nat))])
  end.

Definition step (s : state) (kw : Z * Z) : state :=
  let '(k, w) := kw in
  let t1 :=
    add32 (add32 (add32 (h7 s) (Sigma1 (h4 s)))
                 (add32 (Ch (h4 s) (h5 s) (h6 s)) k)) w in
  let t2 := add32 (Sigma0 (h0 s)) (Maj (h0 s) (h1 s) (h2 s)) in
  {| h0 := add32 t1 t2; h1 := h0 s; h2 := h1 s; h3 := h2 s;
     h4 := add32 (h3 s) t1; h5 := h4 s; h6 := h5 s; h7 := h6 s |}.

Definition compress (s : state) (block : list Z) : state :=
  let ws := schedule 48 block in
  let r := fold_left step (combine K ws) s in
  {| h0 := add32 (h0 s) (h0 r); h1 := add32 (h1 s) (h1 r);
     h2 := add32 (h2 s) (h2 r); h3 := add32 (h3 s) (h3 r);
     h4 := add32 (h4 s) (h4 r); h5 := add32 (h5 s) (h5 r);
     h6 := add32 (h6 s) (h6 r); h7 := add32 (h7 s) (h7 r) |}.

(** The blocks of 16 words of a word sequence. *)
Fixpoint blocks (fuel : nat) (ws : list Z) : list (list Z) :=
  match fuel, ws with
  | S fuel', _ :: _ => firstn 16 ws :: blocks fuel' (skipn 16 ws)
  | _, _ => []
  end.

Definition digest (msg : list Z) : state :=
  let bytes := pad msg in
  let ws := words (length bytes) bytes in
  fold_left compress (blocks (length ws) ws) initial.

Definition hexWord (w : Z) : jsstring :=
  List.map (fun i => hexDigit (Z.shiftr w (4 * i) mod 16))
    [7; 6; 5; 4; 3; 2; 1; 0].

(** [digest("hex")] *)
Definition hex (s : state) : jsstring :=
  hexWord (h0 s) ++ hexWord (h1 s) ++ hexWord (h2 s) ++ hexWord (h3 s)
  ++ hexWord (h4 s) ++ hexWord (h5 s) ++ hexWord (h6 s) ++ hexWord (h7 s).

End Sha256.

(** ** battleEngine.ts: computeLogHash and simulateBattle *)

Definition computeLogHash (log_ : list BattleEvent) : jsstring :=
  let json := JSON_stringify log_ in
  Sha256.hex (Sha256.digest (utf8 json)).

Definition simulateBattle (hostSort : HostSort)
    (teamA_ teamB_ : list Character) (cfg : BattleConfig) : BattleResult :=
  let '(round_, st) := runBattle hostSort teamA_ teamB_ cfg in
  {| config := cfg;
     winner := resolveWinner (teams st);
     rounds := round_;
     log := events st;
     finalState :=
       {| fin_teamA := List.map snapshotFighter (teamA (teams st));
          fin_teamB := List.map snapshotFighter (teamB (teams st)) |};
     logHash := computeLogHash (events st) |}.

Definition demoConfig : BattleConfig :=
  {| seed := lit "RAIKU-DEMO-SEED-001"; maxRounds := 20 |}.

(** ** The course of a simulation

    Between its first and its last state a simulation changes state in two
    ways only: the turn-order sort leaves the generator in a new state, and
    a turn that does not [break] goes through the body of the inner loop. *)
Inductive step : Sim -> Sim -> Prop :=
| step_draw (st : Sim) (rng' : DeterministicRng) :
    step st {| teams := teams st; rng := rng'; events := events st |}
| step_turn (round_ : Z) (e : TurnEntry) (st st' : Sim) :
    takeTurn round_ e st = Continue st' -> step st st'.

Definition evolves : Sim -> Sim -> Prop := rtc step.

(** ** Properties named by the specification *)

(** A finite number whose value is whole. *)
Definition wholeNumber (a : number) : Prop :=
  B64.isFinite a = true /\ exists n : Z, (B64.value a == inject_Z n)%Q.

(** [max(0, x)] on exact values. *)
Definition floorAtZero (x : Q) : Q := if Qle_bool 0 x then x else 0%Q.

(** Templates on which no product of [computeDamage] leaves the finite
    numbers: a finite [maxHp] above 0, and attack, defense and skill
    multiplier of magnitude at most 2^300. *)
Definition moderate (a : number) : Prop :=
  B64.isFinite a = true /\ (Qabs (B64.value a) <= B64.pow2 300)%Q.

Definition tame (c : Character) : Prop :=
  B64.isFinite (maxHp c) = true
  /\ (0 < B64.value (maxHp c))%Q
  /\ moderate (attack c)
  /\ moderate (defense c)
  /\ moderate (skillMultiplier c).

Definition tameTeams (ts : BattleTeams) : Prop :=
  Forall (fun f => tame (base f)) (teamA ts)
  /\ Forall (fun f => tame (base f)) (teamB ts).

(** Health bounds and the meaning of the [alive] flag. *)
Definition fighterOk (f : InternalFighter) : Prop :=
  B64.isFinite (hp f) = true
  /\ (0 <= B64.value (hp f))%Q
  /\ (B64.value (hp f) <= B64.value (maxHp (base f)))%Q
  /\ (alive f = true <-> (0 < B64.value (hp f))%Q).

(** The damage of an event is a whole number from 1 on, and the health of
    its target afterwards is [Math.max(0, hpBefore - damage)]: the
    difference is the binary64 one, and it is the exact one where the
    health before is at most 2^53. *)
Definition eventOk (e : BattleEvent) : Prop :=
  wholeNumber (damage e)
  /\ (1 <= B64.value (damage e))%Q
  /\ B64.isFinite (hpBefore (target e)) = true
  /\ B64.isFinite (hpAfter (target e)) = true
  /\ hpAfter (target e)
     = B64.max (Num 0) (B64.sub (hpBefore (target e)) (damage e))
  /\ ((B64.value (hpBefore (target e)) <= B64.pow2 53)%Q ->
      (B64.value (hpAfter (target e))
       == floorAtZero (B64.value (hpBefore (target e))
                       - B64.value (damage e)))%Q).

Definition simOk (st : Sim) : Prop :=
  Forall fighterOk (teamA (teams st))
  /\ Forall fighterOk (teamB (teams st))
  /\ Forall eventOk (events st).

(** The same bounds on a final snapshot. *)
Definition stateOk (f : FighterState) : Prop :=
  B64.isFinite (fs_hp f) = true
  /\ (0 <= B64.value (fs_hp f))%Q
  /\ (B64.value (fs_hp f) <= B64.value (fs_maxHp f))%Q
  /\ (fs_alive f = true <-> (0 < B64.value (fs_hp f))%Q).

(** A template whose health is beyond the whole numbers that binary64
    tells apart. *)
Definition titan (name : string) (speed_ : Q) : Character :=
  {| c_id := lit name; c_name := lit name;
     maxHp := Num (inject_Z (2 ^ 60));
     attack := Num 24; defense := Num 16; speed := Num speed_;
     critChance := Num 0.15; skillMultiplier := Num 1.4 |}.

(** Two rounds between two of them. *)
Definition twoRounds : BattleConfig := {| seed := lit "s"; maxRounds := 2 |}.

(** A template whose attack is finite and whose critical hits leave the
    finite numbers: three quarters of 2^1024, and a critical hit on every
    attack. *)
Definition colossus : Character :=
  {| c_id := lit "colossus"; c_name := lit "Colossus";
     maxHp := Num 100; attack := Num (inject_Z (3 * 2 ^ 1022));
     defense := Num 0; speed := Num 2;
     critChance := Num 1; skillMultiplier := Num 1 |}.

(** A template that fells the one below with one blow, and the one
    below. *)
Definition bruiser : Character :=
  {| c_id := lit "bruiser"; c_name := lit "Bruiser";
     maxHp := Num 100; attack := Num 200;
     defense := Num 0; speed := Num 2;
     critChance := Num 0; skillMultiplier := Num 1 |}.

Definition bystander : Character :=
  {| c_id := lit "bystander"; c_name := lit "Bystander";
     maxHp := Num 100; attack := Num 1;
     defense := Num 0; speed := Num 1;
     critChance := Num 0; skillMultiplier := Num 1 |}.

(** The target of a strike between the two assignments to it: [hp] is
    written, [alive] is not yet. *)
Definition midStrike (e : TurnEntry) (fighter_ : InternalFighter) (st : Sim)
  : option InternalFighter :=
  match chooseTarget (rng st) (opponentsOf (team e) (teams st)) with
  | (Some (_, target_), rng1) =>
      let '(roll, _) := computeDamage rng1 fighter_ target_ in
      Some (assignHp target_ (dr_damage roll))
  | (None, _) => None
  end.

(** Winner resolution as the specification words it, read off the final
    snapshots of a result; the sums are taken as the engine takes them,
    in binary64, from the left. *)
Definition fullyDead (side : list FighterState) : bool :=
  forallb (fun f => negb (fs_alive f)) side.

Definition remainingHealth (side : list FighterState) : number :=
  fold_left B64.add (List.map fs_hp side) (Num 0).

Definition winnerRule (fin : FinalState) : Winner :=
  match fullyDead (fin_teamA fin), fullyDead (fin_teamB fin) with
  | true, false => WinnerB
  | false, true => WinnerA
  | _, _ =>
      let hpA := remainingHealth (fin_teamA fin) in
      let hpB := remainingHealth (fin_teamB fin) in
      if B64.ltb hpB hpA then WinnerA
      else if B64.ltb hpA hpB then WinnerB
      else DRAW
  end.

(** The health left on a side as the exact sum of the values of the
    numbers. *)
Definition exactHealth (side : list FighterState) : Q :=
  fold_right Qplus 0%Q (List.map (fun f => B64.value (fs_hp f)) side).

(** The turn list before sorting as the specification words it: the
    living fighters of a team, in the order of the team. *)
Definition livingOf (tag : TeamTag) (members : list InternalFighter)
  : list TurnEntry :=
  List.map (fun p => {| fighter := fst p; team := tag |})
    (List.filter (fun p => alive (snd p)) (indexed members)).

(** Comparing the summed [maxHp] of two rosters, the sums taken as the
    engine takes them. *)
Definition totalMaxHp (roster : list Character) : number :=
  fold_left B64.add (List.map maxHp roster) (Num 0).

Definition winnerByTotals (teamA_ teamB_ : list Character) : Winner :=
  if B64.ltb (totalMaxHp teamB_) (totalMaxHp teamA_) then WinnerA
  else if B64.ltb (totalMaxHp teamA_) (totalMaxHp teamB_) then WinnerB
  else DRAW.

(** The summed [maxHp] of a roster on exact values. *)
Definition exactMaxHp (roster : list Character) : Q :=
  fold_right Qplus 0%Q (List.map (fun c => B64.value (maxHp c)) roster).

(** The digest of the serialisation of the empty log, the two bytes of
    the text of an empty array. *)
Definition emptyLogHash : jsstring :=
  lit "4f53cda18c2baa0c0354bb5f9a3ecbe5ed12ab4d8e11ba873c2f11161202b945".

Definition isLowerHex (c : Z) : Prop :=
  48 <= c <= 57 \/ 97 <= c <= 102.

(** The order of the log: round numbers never decrease. *)
Definition roundOrder (e1 e2 : BattleEvent) : Prop := round e1 <= round e2.

(** The winner when no round is played, read off the rosters: a side
    without fighters counts as fully dead, a side with fighters does not. *)
Definition initialWinner (teamA_ teamB_ : list Character) : Winner :=
  match teamA_, teamB_ with
  | [], _ :: _ => WinnerB
  | _ :: _, [] => WinnerA
  | _, _ => winnerByTotals teamA_ teamB_
  end.

(** A configuration that allows no round. *)
Definition noRounds : BattleConfig := {| seed := lit "s"; maxRounds := 0 |}.

(** ** The damage formula

    The formula of the specification on the three rolls of an attack:
    each operation is the one of the numbers of the program, binary64, in
    the order written. *)
Definition damageFormula (attacker defender : Character)
    (skillRoll critRoll varianceRoll : Q) : number :=
  let base_ :=
    B64.max (Num 1)
      (B64.sub (attack attacker) (B64.mul (defense defender) (Num 0.5))) in
  let skillFactor :=
    if B64.ltb (Num skillRoll) (Num 0.35) then skillMultiplier attacker
    else Num 1.0 in
  let variance := B64.add (Num 0.9) (B64.mul (Num varianceRoll) (Num 0.2)) in
  let critFactor :=
    if B64.ltb (Num critRoll) (critChance attacker) then Num 1.7
    else Num 1.0 in
  B64.max (Num 1)
    (B64.floor
       (B64.mul (B64.mul (B64.mul base_ skillFactor) variance) critFactor)).

(** An attack on which the rounding shows: attack 120 against defense 0,
    without skill or critical hit, and a variance roll of 0.625, the
    third draw from the generator state below. *)
Definition plainFighter (attack_ defense_ : Q) : InternalFighter :=
  {| base := {| c_id := lit "plain"; c_name := lit "Plain";
                maxHp := Num 100; attack := Num attack_;
                defense := Num defense_; speed := Num 1;
                critChance := Num 0; skillMultiplier := Num 1 |};
     hp := Num 100;
     alive := true |}.

Definition fiveEighths : DeterministicRng := {| rng_a := 470710010 |}.

(** ** What a simulation keeps *)

(** How the fighter at one position may differ between a state and a later
    one: the template is the same, a dead fighter is still dead, health
    that is not a number stays so, and health that is not negative neither
    becomes negative nor rises. *)
Definition keeps (f f' : InternalFighter) : Prop :=
  base f' = base f
  /\ (alive f' = true -> alive f = true)
  /\ (B64.isNaN (hp f) = true -> B64.isNaN (hp f') = true)
  /\ (B64.leb (Num 0) (hp f) = true ->
      B64.ltb (hp f') (Num 0) = false /\ B64.ltb (hp f) (hp f') = false).

Definition teamsKeep (ts ts' : BattleTeams) : Prop :=
  Forall2 keeps (teamA ts) (teamA ts')
  /\ Forall2 keeps (teamB ts) (teamB ts').

(** A final snapshot that carries the identity of a template. *)
Definition templateOf (c : Character) (f : FighterState) : Prop :=
  fs_id f = c_id c /\ fs_name f = c_name c /\ fs_maxHp f = maxHp c.

(** The health that a log records as taken from the fighters of team [t]:
    the drop of the target, summed over the events of the other team. *)
Definition healthTaken (t : TeamTag) (log_ : list BattleEvent) : Q :=
  fold_right Qplus 0%Q
    (List.map
       (fun ev =>
          if decide (actorTeam ev = t) then 0%Q
          else (B64.value (hpBefore (target ev))
                - B64.value (hpAfter (target ev)))%Q)
       log_).

(** ** What an event says *)

Definition otherTeam (t : TeamTag) : TeamTag :=
  match t with TeamA => TeamB | TeamB => TeamA end.

Definition rosterOf (t : TeamTag) (teamA_ teamB_ : list Character)
  : list Character :=
  match t with TeamA => teamA_ | TeamB => teamB_ end.

(** The text of the template literal of [description], read off the
    other fields of an event. *)
Definition describe (ev : BattleEvent) : jsstring :=
  s_name (actor ev) ++ lit " from Team " ++ teamLetter (actorTeam ev)
  ++ lit " hits " ++ s_name (target ev) ++ lit " for "
  ++ B64.toString (damage ev) ++ lit " damage"
  ++ (if isCrit ev then lit " (CRIT)" else []) ++ lit ".".

Definition namedAfter (c : Character) (s : CharacterSnapshot) : Prop :=
  s_id s = c_id c /\ s_name s = c_name c.

(** An event of a battle between two rosters: the actor is of the roster
    of [actorTeam] and is not hurt by its own attack, the target is of the
    other roster, and the description repeats the other fields. *)
Definition eventSound (teamA_ teamB_ : list Character) (ev : BattleEvent)
  : Prop :=
  hpAfter (actor ev) = hpBefore (actor ev)
  /\ (exists c, In c (rosterOf (actorTeam ev) teamA_ teamB_)
                /\ namedAfter c (actor ev))
  /\ (exists c, In c (rosterOf (otherTeam (actorTeam ev)) teamA_ teamB_)
                /\ namedAfter c (target ev))
  /\ description ev = describe ev.

(** Only the living act and are hit, and a hit takes health. *)
Definition eventVital (ev : BattleEvent) : Prop :=
  (0 < B64.value (hpBefore (actor ev)))%Q
  /\ (0 < B64.value (hpBefore (target ev)))%Q
  /\ (0 <= B64.value (hpAfter (target ev)))%Q
  /\ (B64.value (hpAfter (target ev)) < B64.value (hpBefore (target ev)))%Q.

(** No two fighters of the two rosters have the same speed, and every
    speed is a finite number. *)
Definition distinctSpeeds (teamA_ teamB_ : list Character) : Prop :=
  forall t t' i j c c',
    rosterOf t teamA_ teamB_ !! i = Some c ->
    rosterOf t' teamA_ teamB_ !! j = Some c' ->
    B64.eqb (speed c) (speed c') = true -> t = t' /\ i = j.

Definition finiteSpeeds (roster : list Character) : Prop :=
  Forall (fun c => B64.isFinite (speed c) = true) roster.

(** The speed of the fighter of a turn entry as a key of the turn
    order. *)
Definition speedKey (ts : BattleTeams) (e : TurnEntry) : Q :=
  B64.value (speedOf ts e).

(** ** mulberry32 on a 32-bit state

    The output of [mulberry32] as a function of the 32-bit reading of the
    state it has just advanced to. *)
Definition mulberry32_mix (t : Z) : Z :=
  let t := imul (xor32 t (ushr32 t 15)) (or32 t 1) in
  let t := xor32 t (wrap32 (t + imul (xor32 t (ushr32 t 7)) (or32 t 61))) in
  wrap32 (xor32 t (ushr32 t 14)).

(** ** web/app.js: hexadecimal by hand

    The browser build repeats the engine of [battleEngine.ts] line by
    line; it differs in [computeLogHash], which asks Web Crypto for the
    digest as bytes and writes them in hexadecimal itself, and it adds
    [randomSeed]. *)

Fixpoint hexDigitsOf (fuel : nat) (n : Z) (acc : jsstring) : jsstring :=
  match fuel with
  | O => acc
  | S fuel' =>
      let acc' := hexDigit (n mod 16) :: acc in
      if n <? 16 then acc' else hexDigitsOf fuel' (n / 16) acc'
  end.

(** [n.toString(16)] for a whole number [n >= 0]. *)
Definition toString16 (n : Z) : jsstring :=
  hexDigitsOf (S (Z.to_nat (Z.log2 n))) n [].

(** [s.padStart(n, "0")] *)
Definition padStart0 (n : nat) (s : jsstring) : jsstring :=
  List.repeat 48 (n - length s) ++ s.

(** [(b) => b.toString(16).padStart(2, "0")] *)
Definition byteHex (b : Z) : jsstring := padStart0 2 (toString16 b).

(** [Array.from(bytes).map(...).join("")] *)
Definition hexOfBytes (bytes : list Z) : jsstring :=
  concat (List.map byteHex bytes).

(** The [Uint8Array] over the buffer that [crypto.subtle.digest] resolves
    to: the eight words of the digest, most significant byte first. *)
Definition wordBytes (w : Z) : list Z :=
  List.map (fun i => Z.shiftr w (8 * i) mod 256) [3; 2; 1; 0].

Definition digestBytes (s : Sha256.state) : list Z :=
  wordBytes (Sha256.h0 s) ++ wordBytes (Sha256.h1 s)
  ++ wordBytes (Sha256.h2 s) ++ wordBytes (Sha256.h3 s)
  ++ wordBytes (Sha256.h4 s) ++ wordBytes (Sha256.h5 s)
  ++ wordBytes (Sha256.h6 s) ++ wordBytes (Sha256.h7 s).

(** [computeLogHash] of [app.js]; [TextEncoder.encode] is UTF-8. *)
Definition webComputeLogHash (log_ : list BattleEvent) : jsstring :=
  let json := JSON_stringify log_ in
  let enc := utf8 json in
  hexOfBytes (digestBytes (Sha256.digest enc)).

(** [simulateBattle] of [app.js]. *)
Definition webSimulateBattle (hostSort : HostSort)
    (teamA_ teamB_ : list Character) (cfg : BattleConfig) : BattleResult :=
  let '(round_, st) := runBattle hostSort teamA_ teamB_ cfg in
  {| config := cfg;
     winner := resolveWinner (teams st);
     rounds := round_;
     log := events st;
     finalState :=
       {| fin_teamA := List.map snapshotFighter (teamA (teams st));
          fin_teamB := List.map snapshotFighter (teamB (teams st)) |};
     logHash := webComputeLogHash (events st) |}.

(** [s.toUpperCase()] on the code units below 128, where only the letters
    a to z change; a string of hexadecimal digits has no others. *)
Definition upperUnit (c : Z) : Z :=
  if (97 <=? c) && (c <=? 122) then c - 32 else c.

Definition toUpperCase (s : jsstring) : jsstring := List.map upperUnit s.

(** [randomSeed], as a function of the six bytes that
    [crypto.getRandomValues] fills in. *)
Definition randomSeed (bytes : list Z) : jsstring :=
  lit "RAIKU-" ++ toUpperCase (hexOfBytes bytes).

Definition isByte (b : Z) : Prop := 0 <= b < 256.

Definition isUpperHex (c : Z) : Prop :=
  48 <= c <= 57 \/ 65 <= c <= 70.

(* ===================================================================== *)
(** * Part II: lemmas and theorems                                       *)
(* ===================================================================== *)

(** ** Powers of two and the binary logarithm *)

Module B64Facts.
Import B64.

Lemma pow2_pos (e : Z) : (0 < pow2 e)%Q.
Proof. apply Qpower_0_lt. reflexivity. Qed.

Lemma pow2_add (a b : Z) : (pow2 (a + b) == pow2 a * pow2 b)%Q.
Proof. apply Qpower_plus. discriminate. Qed.

Lemma pow2_0 : (pow2 0 == 1)%Q.
Proof. reflexivity. Qed.

Lemma pow2_1 : (pow2 1 == 2)%Q.
Proof. reflexivity. Qed.

Lemma pow2_succ (a : Z) : (pow2 (a + 1) == 2 * pow2 a)%Q.
Proof. rewrite pow2_add, pow2_1. ring. Qed.

Lemma pow2_le (a b : Z) : a <= b -> (pow2 a <= pow2 b)%Q.
Proof. intros H. apply Qpower_le_compat_l; [exact H | discriminate]. Qed.

Lemma pow2_lt (a b : Z) : a < b -> (pow2 a < pow2 b)%Q.
Proof. intros H. apply Qpower_lt_compat_l; [exact H | reflexivity]. Qed.

Lemma pow2_le_inv (a b : Z) : (pow2 a <= pow2 b)%Q -> a <= b.
Proof.
  intros H. destruct (Z_lt_le_dec b a) as [Hlt|Hle]; [|exact Hle].
  apply pow2_lt in Hlt. lra.
Qed.

Lemma pow2_lt_inv (a b : Z) : (pow2 a < pow2 b)%Q -> a < b.
Proof.
  intros H. destruct (Z_lt_le_dec a b) as [Hlt|Hle]; [exact Hlt|].
  apply pow2_le in Hle. lra.
Qed.

Lemma pow2_inject (e : Z) : 0 <= e -> (pow2 e == inject_Z (2 ^ e))%Q.
Proof. intros H. unfold pow2. now rewrite Zpower_Qpower. Qed.

Lemma pow2_sub (a b : Z) : (pow2 (a - b) == pow2 a / pow2 b)%Q.
Proof.
  unfold Z.sub. rewrite pow2_add. unfold pow2 at 2. rewrite Qpower_opp.
  reflexivity.
Qed.

Lemma pow2_div_cancel (x : Q) (a b : Z) :
  (x * pow2 a / pow2 b == x * pow2 (a - b))%Q.
Proof. rewrite pow2_sub. field. pose proof (pow2_pos b). lra. Qed.

(** The logarithm brackets the absolute value. *)
Lemma Zlog2_bracket (a : Z) :
  0 < a ->
  (pow2 (Z.log2 a) <= inject_Z a)%Q /\ (inject_Z a < pow2 (Z.log2 a + 1))%Q.
Proof.
  intros H. pose proof (Z.log2_spec a H) as [H1 H2].
  pose proof (Z.log2_nonneg a) as H0.
  rewrite !pow2_inject by lia. rewrite <- Zle_Qle, <- Zlt_Qlt.
  split; [exact H1|]. now rewrite <- Z.add_1_r in H2.
Qed.

Lemma Qabs_frac (x : Q) :
  (Qabs x * inject_Z (Zpos (Qden x)) == inject_Z (Z.abs (Qnum x)))%Q.
Proof.
  destruct x as [n d]. unfold Qabs, Qeq, Qmult, inject_Z. cbn. lia.
Qed.

Lemma Qabs_num_pos (x : Q) : ~ (x == 0)%Q -> 0 < Z.abs (Qnum x).
Proof.
  destruct x as [n d]. unfold Qeq. cbn. lia.
Qed.

Lemma Qlog2_test (x : Q) (d : Z) :
  Z.abs (Qnum x) * 2 ^ Z.max 0 (- d) < Zpos (Qden x) * 2 ^ Z.max 0 d
  <-> (Qabs x < pow2 d)%Q.
Proof.
  pose proof (Qabs_frac x) as Hx.
  set (A := Z.abs (Qnum x)) in *. set (B := Zpos (Qden x)) in *.
  assert (0 < inject_Z B)%Q as HB by (rewrite <- (Zlt_Qlt 0); subst B; lia).
  assert (pow2 d * pow2 (Z.max 0 (- d)) == pow2 (Z.max 0 d))%Q as Hd.
  { rewrite <- pow2_add. replace (d + Z.max 0 (- d)) with (Z.max 0 d) by lia.
    reflexivity. }
  pose proof (pow2_pos (Z.max 0 (- d))) as Hn.
  pose proof (pow2_pos d) as Hpd.
  rewrite Zlt_Qlt, !inject_Z_mult, <- !pow2_inject by lia.
  rewrite <- Hx, <- Hd.
  split; intros H.
  - apply Qnot_le_lt. intros Hle.
    apply (Qmult_le_compat_r _ _ (inject_Z B * pow2 (Z.max 0 (- d)))) in Hle;
      [|apply Qmult_le_0_compat; lra].
    lra.
  - assert (Qabs x * (inject_Z B * pow2 (Z.max 0 (- d)))
            < pow2 d * (inject_Z B * pow2 (Z.max 0 (- d))))%Q as H1.
    { apply Qmult_lt_compat_r; [|exact H].
      apply Qmult_lt_0_compat; lra. }
    lra.
Qed.

Lemma Qlog2_spec (x : Q) :
  ~ (x == 0)%Q ->
  (pow2 (Qlog2 x) <= Qabs x)%Q /\ (Qabs x < pow2 (Qlog2 x + 1))%Q.
Proof.
  intros Hx. pose proof (Qabs_num_pos x Hx) as Ha.
  pose proof (Qabs_frac x) as Hf.
  assert (0 < Zpos (Qden x)) as Hb by lia.
  pose proof (Zlog2_bracket _ Ha) as [A1 A2].
  pose proof (Zlog2_bracket _ Hb) as [B1 B2].
  set (la := Z.log2 (Z.abs (Qnum x))) in *.
  set (lb := Z.log2 (Zpos (Qden x))) in *.
  set (A := inject_Z (Z.abs (Qnum x))) in *.
  set (B := inject_Z (Zpos (Qden x))) in *.
  set (X := Qabs x) in *.
  assert (0 < B)%Q as HB by (pose proof (pow2_pos lb); lra).
  pose proof (pow2_pos (la - lb)) as Hd.
  pose proof (pow2_pos lb) as Hlb.
  assert (pow2 la == pow2 (la - lb) * pow2 lb)%Q as Hla.
  { rewrite <- pow2_add. replace (la - lb + lb) with la by lia. reflexivity. }
  assert (pow2 (la + 1) == 2 * pow2 la)%Q as Hla1 by apply pow2_succ.
  assert (pow2 (lb + 1) == 2 * pow2 lb)%Q as Hlb1 by apply pow2_succ.
  (* 2^(d-1) < X < 2^(d+1) *)
  assert (pow2 (la - lb) < 2 * X)%Q as Hlow.
  { apply Qnot_le_lt. intros Hle.
    assert (X * B <= (1 # 2) * pow2 (la - lb) * B)%Q as H1
        by (apply Qmult_le_compat_r; lra).
    assert ((1 # 2) * pow2 (la - lb) * B < (1 # 2) * pow2 (la - lb) * (2 * pow2 lb))%Q
      as H2 by (apply Qmult_lt_l; lra).
    lra. }
  assert (X < 2 * pow2 (la - lb))%Q as Hhigh.
  { apply Qnot_le_lt. intros Hle.
    assert (2 * pow2 (la - lb) * B <= X * B)%Q as H1
        by (apply Qmult_le_compat_r; lra).
    assert (2 * pow2 (la - lb) * pow2 lb <= 2 * pow2 (la - lb) * B)%Q as H2
        by (apply Qmult_le_l; lra).
    lra. }
  unfold Qlog2. fold la lb.
  destruct (Z.ltb_spec (Z.abs (Qnum x) * 2 ^ Z.max 0 (- (la - lb)))
              (Zpos (Qden x) * 2 ^ Z.max 0 (la - lb))) as [Hlt|Hge].
  - apply Qlog2_test in Hlt. fold X in Hlt.
    replace (la - lb - 1 + 1) with (la - lb) by lia.
    split; [|exact Hlt].
    assert (pow2 (la - lb) == 2 * pow2 (la - lb - 1))%Q as E.
    { rewrite <- pow2_succ. replace (la - lb - 1 + 1) with (la - lb) by lia.
      reflexivity. }
    lra.
  - assert (~ (X < pow2 (la - lb))%Q) as Hn.
    { intros H. apply Qlog2_test in H. lia. }
    rewrite pow2_succ. split; [apply Qnot_lt_le, Hn | exact Hhigh].
Qed.

Lemma Qlog2_unique (x : Q) (e : Z) :
  (pow2 e <= Qabs x)%Q -> (Qabs x < pow2 (e + 1))%Q -> Qlog2 x = e.
Proof.
  intros H1 H2.
  assert (~ (x == 0)%Q) as Hx.
  { intros E. rewrite E in H1. pose proof (pow2_pos e).
    change (Qabs 0) with 0%Q in H1. lra. }
  destruct (Qlog2_spec x Hx) as [S1 S2].
  assert (pow2 e < pow2 (Qlog2 x + 1))%Q as A by lra.
  assert (pow2 (Qlog2 x) < pow2 (e + 1))%Q as B by lra.
  apply pow2_lt_inv in A, B. lia.
Qed.

Lemma Qlog2_compat (x y : Q) :
  ~ (x == 0)%Q -> (x == y)%Q -> Qlog2 x = Qlog2 y.
Proof.
  intros Hx E. destruct (Qlog2_spec x Hx) as [S1 S2].
  symmetry. apply Qlog2_unique; rewrite <- E; assumption.
Qed.

(** ** Rounding to a whole number *)

Lemma Qfloor_unique (x : Q) (z : Z) :
  (inject_Z z <= x)%Q -> (x < inject_Z (z + 1))%Q -> Qfloor x = z.
Proof.
  intros H1 H2. pose proof (Qfloor_le x) as F1. pose proof (Qlt_floor x) as F2.
  assert (inject_Z z < inject_Z (Qfloor x + 1))%Q as A by lra.
  assert (inject_Z (Qfloor x) < inject_Z (z + 1))%Q as B by lra.
  rewrite <- Zlt_Qlt in A, B. lia.
Qed.

Lemma Qfloor_compat (x y : Q) : (x == y)%Q -> Qfloor x = Qfloor y.
Proof. intros E. now rewrite E. Qed.

Lemma rne_compat (x y : Q) : (x == y)%Q -> rne x = rne y.
Proof.
  intros E. unfold rne. rewrite (Qfloor_compat x y E).
  assert (x - inject_Z (Qfloor y) == y - inject_Z (Qfloor y))%Q as E'
      by (rewrite E; reflexivity).
  now rewrite E'.
Qed.

Lemma rne_Z (z : Z) : rne (inject_Z z) = z.
Proof.
  unfold rne. rewrite Qfloor_Z.
  assert (inject_Z z - inject_Z z == 0)%Q as E by ring.
  now rewrite E.
Qed.

Lemma rne_cases (x : Q) :
  let f := Qfloor x in
  let r := (x - inject_Z f)%Q in
  (0 <= r)%Q /\ (r < 1)%Q
  /\ ((r < 1 # 2)%Q /\ rne x = f
      \/ (1 # 2 < r)%Q /\ rne x = f + 1
      \/ (r == 1 # 2)%Q /\ rne x = if Z.even f then f else f + 1).
Proof.
  cbn zeta. pose proof (Qfloor_le x) as F1. pose proof (Qlt_floor x) as F2.
  rewrite inject_Z_plus in F2.
  split; [lra|]. split; [change (inject_Z 1) with 1%Q in F2; lra|].
  unfold rne.
  destruct (Qcompare_spec (x - inject_Z (Qfloor x)) (1 # 2)) as [E|L|G].
  - right. right. split; [exact E | reflexivity].
  - left. split; [exact L | reflexivity].
  - right. left. split; [exact G | reflexivity].
Qed.

Lemma rne_near (x : Q) :
  (x - (1 # 2) <= inject_Z (rne x))%Q /\ (inject_Z (rne x) <= x + (1 # 2))%Q.
Proof.
  destruct (rne_cases x) as (R0 & R1 & [[L E]|[[G E]|[Q E]]]); rewrite E.
  - lra.
  - rewrite inject_Z_plus. change (inject_Z 1) with 1%Q. lra.
  - destruct (Z.even (Qfloor x));
      [|rewrite inject_Z_plus; change (inject_Z 1) with 1%Q]; lra.
Qed.

Lemma rne_mono (x y : Q) : (x <= y)%Q -> rne x <= rne y.
Proof.
  intros H. pose proof (Qfloor_resp_le x y H) as Hf.
  destruct (rne_cases x) as (X0 & X1 & HX).
  destruct (rne_cases y) as (Y0 & Y1 & HY).
  destruct (Z.eq_dec (Qfloor x) (Qfloor y)) as [Ef|Nf].
  - rewrite Ef in *.
    destruct HX as [[LX EX]|[[GX EX]|[QX EX]]];
      destruct HY as [[LY EY]|[[GY EY]|[QY EY]]]; rewrite EX, EY;
      try lia; try lra; destruct (Z.even (Qfloor y)); lia.
  - assert (rne x <= Qfloor x + 1) as A.
    { destruct HX as [[_ E]|[[_ E]|[_ E]]]; rewrite E; [lia | lia |].
      destruct (Z.even (Qfloor x)); lia. }
    assert (Qfloor y <= rne y) as B.
    { destruct HY as [[_ E]|[[_ E]|[_ E]]]; rewrite E; [lia | lia |].
      destruct (Z.even (Qfloor y)); lia. }
    lia.
Qed.

Lemma rne_opp (x : Q) : rne (- x) = - rne x.
Proof.
  destruct (rne_cases x) as (X0 & X1 & HX).
  destruct (Qeq_dec (x - inject_Z (Qfloor x)) 0) as [E0|N0].
  - assert (x == inject_Z (Qfloor x))%Q as Ex by lra.
    rewrite (rne_compat x _ Ex), rne_Z.
    assert (- x == inject_Z (- Qfloor x))%Q as Eo
        by (rewrite inject_Z_opp; lra).
    now rewrite (rne_compat _ _ Eo), rne_Z.
  - assert (0 < x - inject_Z (Qfloor x))%Q as P0.
    { apply Qnot_le_lt. intros H. apply N0. lra. }
    assert (Qfloor (- x) = - Qfloor x - 1) as Ef.
    { apply Qfloor_unique.
      - replace (- Qfloor x - 1) with (- (Qfloor x + 1)) by lia.
        rewrite inject_Z_opp, inject_Z_plus. change (inject_Z 1) with 1%Q.
        lra.
      - replace (- Qfloor x - 1 + 1) with (- Qfloor x) by lia.
        rewrite inject_Z_opp. lra. }
    destruct (rne_cases (- x)) as (Y0 & Y1 & HY).
    rewrite Ef in *.
    assert (- x - inject_Z (- Qfloor x - 1)
            == 1 - (x - inject_Z (Qfloor x)))%Q as Er.
    { replace (- Qfloor x - 1) with (- (Qfloor x + 1)) by lia.
      rewrite inject_Z_opp, inject_Z_plus. change (inject_Z 1) with 1%Q.
      ring. }
    rewrite Er in HY.
    assert (Z.even (- Qfloor x - 1) = negb (Z.even (Qfloor x))) as Ee.
    { replace (- Qfloor x - 1) with (- (Qfloor x + 1)) by lia.
      rewrite Z.even_opp, Z.add_1_r, Z.even_succ, <- Z.negb_even.
      reflexivity. }
    destruct HX as [[LX EX]|[[GX EX]|[QX EX]]];
      destruct HY as [[LY EY]|[[GY EY]|[QY EY]]]; rewrite EX, EY;
      try lia; try lra.
    rewrite Ee. destruct (Z.even (Qfloor x)); cbn [negb]; lia.
Qed.

(** ** The nearest binary64 value *)

Lemma ulpExp_opp (x : Q) : ulpExp (- x) = ulpExp x.
Proof.
  unfold ulpExp, Qlog2. destruct x as [n d]. cbn [Qopp Qnum Qden].
  now rewrite Z.abs_opp.
Qed.

Lemma ulpExp_compat (x y : Q) :
  ~ (x == 0)%Q -> (x == y)%Q -> ulpExp x = ulpExp y.
Proof. intros Hx E. unfold ulpExp. now rewrite (Qlog2_compat x y Hx E). Qed.

Lemma Qeq_bool_compat (x y : Q) : (x == y)%Q -> Qeq_bool x 0 = Qeq_bool y 0.
Proof.
  intros E. destruct (Qeq_bool x 0) eqn:Ex, (Qeq_bool y 0) eqn:Ey;
    try reflexivity.
  - apply Qeq_bool_iff in Ex. apply Qeq_bool_neq in Ey. rewrite E in Ex.
    contradiction.
  - apply Qeq_bool_iff in Ey. apply Qeq_bool_neq in Ex. rewrite E in Ex.
    contradiction.
Qed.

Lemma nearest_compat (x y : Q) : (x == y)%Q -> nearest x = nearest y.
Proof.
  intros E. unfold nearest. rewrite (Qeq_bool_compat x y E).
  destruct (Qeq_bool y 0) eqn:Ey; [reflexivity|].
  apply Qeq_bool_neq in Ey.
  assert (~ (x == 0)%Q) as Ex by (now rewrite E).
  rewrite (ulpExp_compat x y Ex E).
  apply Qred_complete.
  assert (x / pow2 (ulpExp y) == y / pow2 (ulpExp y))%Q as Ed
      by (now rewrite E).
  now rewrite (rne_compat _ _ Ed).
Qed.

Lemma nearest_0 : nearest 0 = 0%Q.
Proof. reflexivity. Qed.

Lemma nearest_zero (x : Q) : (x == 0)%Q -> nearest x = 0%Q.
Proof. intros E. now rewrite (nearest_compat x 0 E). Qed.

Lemma nearest_nonzero (x : Q) :
  ~ (x == 0)%Q ->
  (nearest x == inject_Z (rne (x / pow2 (ulpExp x))) * pow2 (ulpExp x))%Q.
Proof.
  intros Hx. unfold nearest.
  destruct (Qeq_bool x 0) eqn:E; [apply Qeq_bool_iff in E; contradiction|].
  apply Qred_correct.
Qed.

Lemma nearest_canonical (x : Q) : Qred (nearest x) = nearest x.
Proof.
  unfold nearest. destruct (Qeq_bool x 0); [reflexivity|].
  apply Qred_complete, Qred_correct.
Qed.

Lemma nearest_eq (x y : Q) : (nearest x == nearest y)%Q -> nearest x = nearest y.
Proof.
  intros E. rewrite <- (nearest_canonical x), <- (nearest_canonical y).
  now apply Qred_complete.
Qed.

Lemma nearest_opp (x : Q) : nearest (- x) = (- nearest x)%Q.
Proof.
  unfold nearest.
  assert (Qeq_bool (- x) 0 = Qeq_bool x 0) as E0.
  { destruct (Qeq_bool x 0) eqn:Ex.
    - apply Qeq_bool_iff in Ex. apply Qeq_bool_iff. lra.
    - apply Qeq_bool_neq in Ex.
      destruct (Qeq_bool (- x) 0) eqn:Ey; [|reflexivity].
      apply Qeq_bool_iff in Ey. exfalso. apply Ex. lra. }
  rewrite E0. destruct (Qeq_bool x 0); [reflexivity|].
  rewrite ulpExp_opp, <- Qred_opp. apply Qred_complete.
  assert (- x / pow2 (ulpExp x) == - (x / pow2 (ulpExp x)))%Q as Ed.
  { field. pose proof (pow2_pos (ulpExp x)). lra. }
  rewrite (rne_compat _ _ Ed), rne_opp, inject_Z_opp. ring.
Qed.

(** The scaled value lies within the 53 bits. *)
Lemma scaled_bounds (x : Q) :
  (0 < x)%Q ->
  let e := ulpExp x in
  (x / pow2 e < pow2 53)%Q
  /\ (-1074 < e -> (pow2 52 <= x / pow2 e)%Q).
Proof.
  intros Hx e.
  assert (~ (x == 0)%Q) as Hn by lra.
  destruct (Qlog2_spec x Hn) as [S1 S2].
  rewrite Qabs_pos in S1, S2 by lra.
  pose proof (pow2_pos e) as He.
  assert (forall k, (x / pow2 e < pow2 k)%Q <-> (x < pow2 (k + e))%Q) as Hlt.
  { intros k. rewrite pow2_add. split; intros H.
    - apply (Qmult_lt_compat_r _ _ (pow2 e)) in H; [|exact He].
      assert (x / pow2 e * pow2 e == x)%Q as Ex by (field; lra).
      lra.
    - apply (Qmult_lt_r _ _ (pow2 e)); [exact He|].
      assert (x / pow2 e * pow2 e == x)%Q as Ex by (field; lra).
      lra. }
  assert (forall k, (pow2 k <= x / pow2 e)%Q <-> (pow2 (k + e) <= x)%Q) as Hle.
  { intros k. rewrite pow2_add. split; intros H.
    - apply (Qmult_le_compat_r _ _ (pow2 e)) in H; [|lra].
      assert (x / pow2 e * pow2 e == x)%Q as Ex by (field; lra).
      lra.
    - apply (Qmult_le_r _ _ (pow2 e)); [exact He|].
      assert (x / pow2 e * pow2 e == x)%Q as Ex by (field; lra).
      lra. }
  split.
  - apply Hlt. subst e. unfold ulpExp.
    assert (Qlog2 x + 1 <= 53 + Z.max (Qlog2 x - 52) (-1074)) as Hk by lia.
    apply pow2_le in Hk. lra.
  - intros Hgt. apply Hle. subst e. unfold ulpExp in *.
    replace (52 + Z.max (Qlog2 x - 52) (-1074)) with (Qlog2 x) by lia.
    exact S1.
Qed.

Lemma nearest_pos_bounds (x : Q) :
  (0 < x)%Q ->
  let e := ulpExp x in
  let m := rne (x / pow2 e) in
  0 <= m <= 2 ^ 53 /\ (-1074 < e -> 2 ^ 52 <= m).
Proof.
  intros Hx e m. destruct (scaled_bounds x Hx) as [B1 B2]. fold e in B1, B2.
  pose proof (pow2_pos e) as He.
  assert (0 <= x / pow2 e)%Q as H0.
  { apply Qle_shift_div_l; [exact He | lra]. }
  split; [split|].
  - subst m. rewrite <- (rne_Z 0). apply rne_mono. exact H0.
  - subst m. rewrite <- (rne_Z (2 ^ 53)). apply rne_mono.
    rewrite <- pow2_inject by lia. lra.
  - intros Hgt. subst m. rewrite <- (rne_Z (2 ^ 52)). apply rne_mono.
    rewrite <- pow2_inject by lia. auto.
Qed.

Lemma nearest_nonneg (x : Q) : (0 <= x)%Q -> (0 <= nearest x)%Q.
Proof.
  intros Hx. destruct (Qeq_dec x 0) as [E|N].
  - rewrite (nearest_zero x E). lra.
  - rewrite (nearest_nonzero x N).
    destruct (nearest_pos_bounds x ltac:(lra)) as [[B _] _].
    apply Qmult_le_0_compat; [|pose proof (pow2_pos (ulpExp x)); lra].
    change 0%Q with (inject_Z 0). now rewrite <- Zle_Qle.
Qed.

(** A multiple of a power of two within 53 bits is its own nearest
    value. *)
Lemma nearest_exact (x : Q) : representable x -> (nearest x == x)%Q.
Proof.
  assert (forall x, (0 < x)%Q -> representable x -> (nearest x == x)%Q) as Hpos.
  { clear x. intros x Hx (m & e & He & Hm & E).
    assert (~ (x == 0)%Q) as Hn by lra.
    rewrite (nearest_nonzero x Hn).
    pose proof (pow2_pos e) as Pe. pose proof (pow2_pos (ulpExp x)) as Pu.
    assert (0 < m) as Hm0.
    { destruct (Z_lt_le_dec 0 m) as [H|H]; [exact H|].
      assert (inject_Z m <= 0)%Q as Hq
          by (change 0%Q with (inject_Z 0); now rewrite <- Zle_Qle).
      assert (inject_Z m * pow2 e <= 0 * pow2 e)%Q as Hp
          by (apply Qmult_le_compat_r; lra).
      lra. }
    assert (ulpExp x <= e) as Hue.
    { unfold ulpExp. apply Z.max_lub; [|exact He].
      destruct (Qlog2_spec x Hn) as [S1 _]. rewrite Qabs_pos in S1 by lra.
      assert (inject_Z m < pow2 53)%Q as Hm53.
      { rewrite pow2_inject by lia. rewrite <- Zlt_Qlt. lia. }
      assert (x < pow2 (53 + e))%Q as Hxe.
      { rewrite E, pow2_add. apply Qmult_lt_compat_r; assumption. }
      assert (pow2 (Qlog2 x) < pow2 (53 + e))%Q as Hl by lra.
      apply pow2_lt_inv in Hl. lia. }
    remember (ulpExp x) as u eqn:Eu. clear Eu.
    assert (x / pow2 u == inject_Z (m * 2 ^ (e - u)))%Q as Ei.
    { rewrite inject_Z_mult, <- pow2_inject by lia. rewrite E, pow2_sub.
      field. lra. }
    rewrite (rne_compat _ _ Ei), rne_Z, <- Ei. field. lra. }
  intros Hr. destruct (Qlt_le_dec 0 x) as [Hx|Hx]; [now apply Hpos|].
  destruct (Qeq_dec x 0) as [E|N]; [rewrite (nearest_zero x E); lra|].
  assert (nearest (- x) == - x)%Q as Ho.
  { apply Hpos; [lra|]. destruct Hr as (m & e & He & Hm & E).
    exists (- m), e. split; [exact He|]. split; [lia|].
    rewrite inject_Z_opp, E. ring. }
  rewrite nearest_opp in Ho. lra.
Qed.

Lemma representable_pow2 (k : Z) : -1074 <= k -> representable (pow2 k).
Proof.
  intros H. exists 1, k. split; [exact H|]. split; [reflexivity|].
  change (inject_Z 1) with 1%Q. ring.
Qed.

Lemma representable_0 : representable 0.
Proof.
  exists 0, 0. split; [lia|]. split; [reflexivity|].
  change (inject_Z 0) with 0%Q. ring.
Qed.

Lemma representable_opp (x : Q) : representable x -> representable (- x).
Proof.
  intros (m & e & He & Hm & E). exists (- m), e.
  split; [exact He|]. split; [lia|]. rewrite inject_Z_opp, E. ring.
Qed.

Lemma representable_compat (x y : Q) :
  (x == y)%Q -> representable x -> representable y.
Proof.
  intros E (m & e & He & Hm & Ex). exists m, e.
  split; [exact He|]. split; [exact Hm|]. now rewrite <- E.
Qed.

(** What [nearest] returns is representable. *)
Lemma nearest_representable (x : Q) : representable (nearest x).
Proof.
  assert (forall x, (0 < x)%Q -> representable (nearest x)) as Hpos.
  { clear x. intros x Hx.
    assert (~ (x == 0)%Q) as Hn by lra.
    destruct (nearest_pos_bounds x Hx) as [[B0 B1] _].
    set (e := ulpExp x) in *. set (m := rne (x / pow2 e)) in *.
    assert (-1074 <= e) as He by (subst e; unfold ulpExp; lia).
    destruct (Z.eq_dec m (2 ^ 53)) as [Em|Nm].
    - exists (2 ^ 52), (e + 1). split; [lia|]. split; [reflexivity|].
      rewrite (nearest_nonzero x Hn). fold e m. rewrite Em, pow2_succ.
      change (inject_Z (2 ^ 53)) with (2 * inject_Z (2 ^ 52))%Q. ring.
    - exists m, e. split; [exact He|]. split; [lia|].
      apply (nearest_nonzero x Hn). }
  destruct (Qlt_le_dec 0 x) as [Hx|Hx]; [now apply Hpos|].
  destruct (Qeq_dec x 0) as [E|N].
  - rewrite (nearest_zero x E). apply representable_0.
  - assert (representable (nearest (- x))) as Ho by (apply Hpos; lra).
    rewrite nearest_opp in Ho. apply representable_opp in Ho.
    eapply representable_compat; [|exact Ho]. ring.
Qed.

Lemma nearest_idem (x : Q) : nearest (nearest x) = nearest x.
Proof.
  rewrite <- (nearest_canonical x) at 2.
  rewrite <- (nearest_canonical (nearest x)).
  apply Qred_complete, nearest_exact, nearest_representable.
Qed.

Lemma Qlog2_mono (x y : Q) : (0 < x)%Q -> (x <= y)%Q -> Qlog2 x <= Qlog2 y.
Proof.
  intros Hx Hxy.
  destruct (Qlog2_spec x ltac:(lra)) as [X1 _].
  destruct (Qlog2_spec y ltac:(lra)) as [_ Y2].
  rewrite Qabs_pos in X1, Y2 by lra.
  assert (pow2 (Qlog2 x) < pow2 (Qlog2 y + 1))%Q as H by lra.
  apply pow2_lt_inv in H. lia.
Qed.

Lemma nearest_mono (x y : Q) : (x <= y)%Q -> (nearest x <= nearest y)%Q.
Proof.
  assert (forall x y, (0 < x)%Q -> (x <= y)%Q -> (nearest x <= nearest y)%Q)
    as Hpos.
  { clear x y. intros x y Hx Hxy.
    assert (0 < y)%Q as Hy by lra.
    rewrite (nearest_nonzero x), (nearest_nonzero y) by lra.
    destruct (nearest_pos_bounds x Hx) as [[X0 X1] _].
    destruct (nearest_pos_bounds y Hy) as [_ Y2].
    pose proof (Qlog2_mono x y Hx Hxy) as Hl.
    assert (-1074 <= ulpExp x) as Hux by (unfold ulpExp; lia).
    assert (ulpExp x <= ulpExp y) as Hu by (unfold ulpExp; lia).
    set (ux := ulpExp x) in *. set (uy := ulpExp y) in *.
    pose proof (pow2_pos ux) as Px. pose proof (pow2_pos uy) as Py.
    destruct (Z.eq_dec ux uy) as [E|N].
    - rewrite <- E. apply Qmult_le_compat_r; [|lra].
      rewrite <- Zle_Qle. apply rne_mono.
      apply Qmult_le_compat_r; [exact Hxy|].
      apply Qlt_le_weak, Qinv_lt_0_compat, Px.
    - specialize (Y2 ltac:(lia)).
      assert (inject_Z (rne (x / pow2 ux)) * pow2 ux <= pow2 53 * pow2 ux)%Q
        as A.
      { apply Qmult_le_compat_r; [|lra].
        rewrite (pow2_inject 53) by lia. now rewrite <- Zle_Qle. }
      assert (pow2 52 * pow2 uy <= inject_Z (rne (y / pow2 uy)) * pow2 uy)%Q
        as B.
      { apply Qmult_le_compat_r; [|lra].
        rewrite (pow2_inject 52) by lia. now rewrite <- Zle_Qle. }
      assert (pow2 (53 + ux) <= pow2 (52 + uy))%Q as C
          by (apply pow2_le; lia).
      rewrite !pow2_add in C. lra. }
  intros Hxy.
  destruct (Qlt_le_dec 0 x) as [Hx|Hx]; [now apply Hpos|].
  assert (nearest x <= 0)%Q as Hnx.
  { pose proof (nearest_nonneg (- x)%Q ltac:(lra)) as H.
    rewrite nearest_opp in H. lra. }
  destruct (Qlt_le_dec y 0) as [Hy|Hy].
  - pose proof (Hpos (- y)%Q (- x)%Q ltac:(lra) ltac:(lra)) as H.
    rewrite !nearest_opp in H. lra.
  - pose proof (nearest_nonneg y Hy). lra.
Qed.

Lemma nearest_le_bound (x b : Q) :
  representable b -> (x <= b)%Q -> (nearest x <= b)%Q.
Proof.
  intros Hb H. rewrite <- (nearest_exact b Hb). now apply nearest_mono.
Qed.

Lemma nearest_ge_bound (x b : Q) :
  representable b -> (b <= x)%Q -> (b <= nearest x)%Q.
Proof.
  intros Hb H. rewrite <- (nearest_exact b Hb). now apply nearest_mono.
Qed.

Lemma nearest_abs_bound (x b : Q) :
  representable b -> (Qabs x <= b)%Q -> (Qabs (nearest x) <= b)%Q.
Proof.
  intros Hb H. apply Qabs_Qle_condition in H as [H1 H2].
  apply Qabs_Qle_condition. split.
  - apply nearest_ge_bound; [now apply representable_opp | exact H1].
  - now apply nearest_le_bound.
Qed.

(** Every representable value is a multiple of 2^-1074. *)
Lemma representable_grid (x : Q) :
  representable x -> exists k, (x == inject_Z k * pow2 (-1074))%Q.
Proof.
  intros (m & e & He & _ & E). exists (m * 2 ^ (e + 1074)).
  rewrite inject_Z_mult, <- pow2_inject by lia. rewrite E, pow2_add.
  assert (pow2 1074 * pow2 (-1074) == 1)%Q as P
      by (rewrite <- pow2_add; reflexivity).
  rewrite <- Qmult_assoc, <- (Qmult_assoc (pow2 e)), P. ring.
Qed.

(** The difference of two representable values keeps its sign when it is
    rounded: it is at least one last place away from zero. *)
Lemma nearest_diff_pos (x y : Q) :
  representable x -> representable y -> (x < y)%Q -> (0 < nearest (y - x))%Q.
Proof.
  intros Hx Hy Hlt.
  destruct (representable_grid x Hx) as (kx & Ex).
  destruct (representable_grid y Hy) as (ky & Ey).
  pose proof (pow2_pos (-1074)) as P.
  assert (kx < ky) as Hk.
  { destruct (Z_lt_le_dec kx ky) as [H|H]; [exact H|].
    assert (inject_Z ky <= inject_Z kx)%Q as Hq by (now rewrite <- Zle_Qle).
    assert (inject_Z ky * pow2 (-1074) <= inject_Z kx * pow2 (-1074))%Q
      by (apply Qmult_le_compat_r; lra).
    lra. }
  assert (pow2 (-1074) <= y - x)%Q as Hd.
  { rewrite Ex, Ey.
    assert (inject_Z kx + 1 <= inject_Z ky)%Q as Hq.
    { change 1%Q with (inject_Z 1). rewrite <- inject_Z_plus, <- Zle_Qle.
      lia. }
    assert ((inject_Z kx + 1) * pow2 (-1074) <= inject_Z ky * pow2 (-1074))%Q
      by (apply Qmult_le_compat_r; lra).
    lra. }
  pose proof (nearest_ge_bound (y - x) (pow2 (-1074))
                (representable_pow2 (-1074) ltac:(lia)) Hd).
  lra.
Qed.

(** ** Numbers in normal form *)

Lemma round_cases (x : Q) :
  (round x = Num (nearest x) /\ (Qabs (nearest x) < pow2 1024)%Q)
  \/ (round x = PosInf /\ (0 <= x)%Q /\ (pow2 1024 <= Qabs (nearest x))%Q)
  \/ (round x = NegInf /\ (x < 0)%Q /\ (pow2 1024 <= Qabs (nearest x))%Q).
Proof.
  unfold round.
  destruct (Qle_bool (pow2 1024) (Qabs (nearest x))) eqn:E.
  - apply Qle_bool_iff in E. right.
    destruct (Qle_bool 0 x) eqn:E0.
    + apply Qle_bool_iff in E0. left. auto.
    + right. split; [reflexivity|]. split; [|exact E].
      apply Qnot_le_lt. intros H. apply Qle_bool_iff in H. congruence.
  - left. split; [reflexivity|]. apply Qnot_le_lt. intros H.
    apply Qle_bool_iff in H. congruence.
Qed.

Lemma round_compat (x y : Q) : (x == y)%Q -> round x = round y.
Proof.
  intros E. unfold round. rewrite (nearest_compat x y E).
  destruct (Qle_bool (pow2 1024) (Qabs (nearest y))); [|reflexivity].
  assert (Qle_bool 0 x = Qle_bool 0 y) as ->; [|reflexivity].
  destruct (Qle_bool 0 x) eqn:Ex, (Qle_bool 0 y) eqn:Ey; try reflexivity.
  - apply Qle_bool_iff in Ex. rewrite E in Ex. apply Qle_bool_iff in Ex.
    congruence.
  - apply Qle_bool_iff in Ey. rewrite <- E in Ey. apply Qle_bool_iff in Ey.
    congruence.
Qed.

Lemma round_nearest (x : Q) :
  (Qabs (nearest x) < pow2 1024)%Q -> round (nearest x) = Num (nearest x).
Proof.
  intros H. unfold round. rewrite nearest_idem.
  destruct (Qle_bool (pow2 1024) (Qabs (nearest x))) eqn:E; [|reflexivity].
  apply Qle_bool_iff in E. lra.
Qed.

Lemma norm_round (x : Q) : norm (round x) = round x.
Proof.
  destruct (round_cases x) as [[E H]|[[E _]|[E _]]]; rewrite E;
    [|reflexivity..].
  cbn [norm]. now apply round_nearest.
Qed.

Lemma norm_norm (a : number) : norm (norm a) = norm a.
Proof. destruct a; try reflexivity. apply norm_round. Qed.

(** What a number in normal form is. *)
Lemma norm_Num (a : number) (x : Q) :
  norm a = Num x ->
  nearest x = x /\ (Qabs x < pow2 1024)%Q /\ representable x
  /\ round x = Num x.
Proof.
  intros E. destruct a as [| | |q]; try discriminate. cbn [norm] in E.
  destruct (round_cases q) as [[E' H]|[[E' _]|[E' _]]]; rewrite E' in E;
    try discriminate.
  injection E as <-.
  split; [apply nearest_idem|]. split; [exact H|].
  split; [apply nearest_representable | now apply round_nearest].
Qed.

Lemma round_representable (x : Q) :
  representable x -> (Qabs x < pow2 1024)%Q ->
  round x = Num (nearest x) /\ (nearest x == x)%Q.
Proof.
  intros Hr Hb. pose proof (nearest_exact x Hr) as E.
  split; [|exact E].
  destruct (round_cases x) as [[E' _]|[[_ [_ H]]|[_ [_ H]]]];
    [exact E' | rewrite E in H; lra..].
Qed.

(** ** Finite numbers *)

Lemma isFinite_norm (a : number) :
  isFinite a = true -> norm a = Num (value a).
Proof.
  unfold isFinite, value. destruct (norm a); try discriminate. reflexivity.
Qed.

Lemma finite_value (a : number) :
  isFinite a = true ->
  norm a = Num (value a)
  /\ nearest (value a) = value a
  /\ (Qabs (value a) < pow2 1024)%Q
  /\ representable (value a).
Proof.
  intros H. pose proof (isFinite_norm a H) as E.
  destruct (norm_Num a _ E) as (H1 & H2 & H3 & _). auto.
Qed.

Lemma isFinite_round (x : Q) :
  isFinite (round x) = true ->
  round x = Num (nearest x) /\ value (round x) = nearest x.
Proof.
  unfold isFinite, value. rewrite norm_round.
  destruct (round_cases x) as [[E H]|[[E _]|[E _]]]; rewrite E;
    try discriminate.
  auto.
Qed.

(** Rounding within a bound that is a power of two below 2^1024. *)
Lemma round_bounded (x : Q) (k : Z) :
  -1074 <= k < 1024 -> (Qabs x <= pow2 k)%Q ->
  isFinite (round x) = true
  /\ value (round x) = nearest x
  /\ (Qabs (nearest x) <= pow2 k)%Q.
Proof.
  intros Hk Hx.
  pose proof (nearest_abs_bound x (pow2 k)
                (representable_pow2 k ltac:(lia)) Hx) as Hb.
  assert (pow2 k < pow2 1024)%Q as Hlt by (apply pow2_lt; lia).
  unfold isFinite, value. rewrite norm_round.
  destruct (round_cases x) as [[E H]|[[_ [_ H]]|[_ [_ H]]]];
    [rewrite E; auto | lra..].
Qed.

Lemma round_exact (x : Q) :
  representable x -> (Qabs x < pow2 1024)%Q ->
  isFinite (round x) = true /\ (value (round x) == x)%Q.
Proof.
  intros Hr Hb. destruct (round_representable x Hr Hb) as [E1 E2].
  unfold isFinite, value. rewrite norm_round, E1. auto.
Qed.

Lemma neg_finite (a : number) :
  isFinite a = true ->
  neg a = Num (- value a)%Q /\ isFinite (neg a) = true
  /\ value (neg a) = (- value a)%Q.
Proof.
  intros H. destruct (finite_value a H) as (E & Hn & Hb & Hr).
  assert (round (- value a) = Num (- value a)%Q) as Er.
  { destruct (round_representable (- value a)%Q) as [E1 _].
    - now apply representable_opp.
    - now rewrite Qabs_opp.
    - rewrite E1, nearest_opp, Hn. reflexivity. }
  assert (neg a = Num (- value a)%Q) as En.
  { unfold neg. rewrite E. exact Er. }
  split; [exact En|].
  unfold isFinite, value. rewrite En. cbn [norm]. rewrite Er. auto.
Qed.

Lemma add_finite (a b : number) :
  isFinite a = true -> isFinite b = true ->
  add a b = round (value a + value b).
Proof.
  intros Ha Hb. unfold add.
  now rewrite (isFinite_norm a Ha), (isFinite_norm b Hb).
Qed.

Lemma sub_finite (a b : number) :
  isFinite a = true -> isFinite b = true ->
  sub a b = round (value a - value b).
Proof.
  intros Ha Hb. unfold sub.
  destruct (neg_finite b Hb) as (_ & Hf & Hv).
  rewrite (add_finite a (neg b) Ha Hf), Hv. reflexivity.
Qed.

Lemma mul_finite (a b : number) :
  isFinite a = true -> isFinite b = true ->
  mul a b = round (value a * value b).
Proof.
  intros Ha Hb. unfold mul.
  now rewrite (isFinite_norm a Ha), (isFinite_norm b Hb).
Qed.

Lemma ltb_finite (a b : number) :
  isFinite a = true -> isFinite b = true ->
  (ltb a b = true <-> (value a < value b)%Q).
Proof.
  intros Ha Hb. unfold ltb.
  rewrite (isFinite_norm a Ha), (isFinite_norm b Hb), negb_true_iff.
  split; intros H.
  - apply Qnot_le_lt. intros Hle. apply Qle_bool_iff in Hle. congruence.
  - destruct (Qle_bool (value b) (value a)) eqn:E; [|reflexivity].
    apply Qle_bool_iff in E. lra.
Qed.

Lemma leb_finite (a b : number) :
  isFinite a = true -> isFinite b = true ->
  (leb a b = true <-> (value a <= value b)%Q).
Proof.
  intros Ha Hb. unfold leb.
  rewrite (isFinite_norm a Ha), (isFinite_norm b Hb). apply Qle_bool_iff.
Qed.

Lemma eqb_finite (a b : number) :
  isFinite a = true -> isFinite b = true ->
  (eqb a b = true <-> (value a == value b)%Q).
Proof.
  intros Ha Hb. unfold eqb.
  rewrite (isFinite_norm a Ha), (isFinite_norm b Hb). apply Qeq_bool_iff.
Qed.

Lemma isFinite_Num_norm (a : number) :
  isFinite a = true -> isFinite (norm a) = true /\ value (norm a) = value a.
Proof.
  intros H. unfold isFinite, value in *. rewrite norm_norm. auto.
Qed.

Lemma max_finite (a b : number) :
  isFinite a = true -> isFinite b = true ->
  isFinite (max a b) = true
  /\ (value (max a b) == Qmax (value a) (value b))%Q.
Proof.
  intros Ha Hb. unfold max.
  pose proof (isFinite_norm a Ha) as Ea. pose proof (isFinite_norm b Hb) as Eb.
  rewrite Ea, Eb.
  assert (isFinite (Num (value a)) = true /\ value (Num (value a)) = value a)
    as [Fa Va].
  { rewrite <- Ea. now apply isFinite_Num_norm. }
  assert (isFinite (Num (value b)) = true /\ value (Num (value b)) = value b)
    as [Fb Vb].
  { rewrite <- Eb. now apply isFinite_Num_norm. }
  destruct (ltb (Num (value a)) (Num (value b))) eqn:E.
  - apply ltb_finite in E; [|assumption..]. rewrite Va, Vb in E.
    split; [exact Fb|]. rewrite Vb, Q.max_r; [reflexivity | lra].
  - split; [exact Fa|]. rewrite Va, Q.max_l; [reflexivity|].
    apply Qnot_lt_le. intros H.
    assert (ltb (Num (value a)) (Num (value b)) = true) as C
        by (apply ltb_finite; [assumption..|]; now rewrite Va, Vb).
    congruence.
Qed.

(** A whole number of at most 53 bits is representable. *)
Lemma representable_Z (n : Z) : Z.abs n <= 2 ^ 53 -> representable (inject_Z n).
Proof.
  intros H. destruct (Z.eq_dec (Z.abs n) (2 ^ 53)) as [E|N].
  - destruct (Z_le_gt_dec 0 n) as [Hn|Hn].
    + assert (n = 2 ^ 53) as -> by lia.
      eapply representable_compat; [|apply (representable_pow2 53); lia].
      now rewrite pow2_inject by lia.
    + assert (n = - 2 ^ 53) as -> by lia.
      eapply representable_compat;
        [|apply representable_opp, (representable_pow2 53); lia].
      rewrite pow2_inject by lia. now rewrite inject_Z_opp.
  - exists n, 0. split; [lia|]. split; [lia|]. rewrite pow2_0. ring.
Qed.

(** The floor of a representable value is representable, and no larger
    in size than 2^53 or the value itself. *)
Lemma representable_floor (x : Q) :
  representable x ->
  representable (inject_Z (Qfloor x))
  /\ ((inject_Z (Qfloor x) == x)%Q \/ Z.abs (Qfloor x) <= 2 ^ 53).
Proof.
  intros (m & e & He & Hm & E).
  destruct (Z_le_gt_dec 0 e) as [Hpos|Hneg].
  - assert (x == inject_Z (m * 2 ^ e))%Q as Ex.
    { rewrite inject_Z_mult, <- pow2_inject by lia. exact E. }
    rewrite (Qfloor_compat _ _ Ex), Qfloor_Z. split.
    + exists m, e. split; [exact He|]. split; [exact Hm|].
      now rewrite <- Ex.
    + left. now rewrite Ex.
  - assert (Z.abs (Qfloor x) <= 2 ^ 53) as Hf.
    { assert (Qabs x <= pow2 53)%Q as Hx.
      { rewrite E, Qabs_Qmult, (Qabs_pos (pow2 e))
          by (pose proof (pow2_pos e); lra).
        assert (Qabs (inject_Z m) <= pow2 53)%Q as Hm'.
        { rewrite pow2_inject by lia.
          change (Qabs (inject_Z m)) with (inject_Z (Z.abs m)).
          rewrite <- Zle_Qle. lia. }
        assert (pow2 e <= 1)%Q as He1.
        { rewrite <- pow2_0. apply pow2_le. lia. }
        pose proof (pow2_pos e). pose proof (Qabs_nonneg (inject_Z m)).
        assert (pow2 e * Qabs (inject_Z m) <= 1 * Qabs (inject_Z m))%Q
          by (apply Qmult_le_compat_r; lra).
        lra. }
      apply Qabs_Qle_condition in Hx as [H1 H2].
      rewrite pow2_inject in H1, H2 by lia.
      assert (- 2 ^ 53 <= Qfloor x) as L.
      { rewrite <- (Qfloor_Z (- 2 ^ 53)).
        apply Qfloor_resp_le. now rewrite inject_Z_opp. }
      assert (Qfloor x <= 2 ^ 53) as U.
      { rewrite <- (Qfloor_Z (2 ^ 53)).
        apply Qfloor_resp_le. exact H2. }
      lia. }
    split; [now apply representable_Z | now right].
Qed.

Lemma floor_finite (a : number) :
  isFinite a = true ->
  isFinite (floor a) = true
  /\ (value (floor a) == inject_Z (Qfloor (value a)))%Q.
Proof.
  intros H. destruct (finite_value a H) as (E & _ & Hb & Hr).
  unfold floor. rewrite E.
  destruct (representable_floor (value a) Hr) as [Hrf Hsz].
  apply round_exact; [exact Hrf|].
  destruct Hsz as [Ex|Hs]; [now rewrite Ex|].
  apply Qle_lt_trans with (pow2 53); [|apply pow2_lt; lia].
  rewrite pow2_inject by lia.
  change (Qabs (inject_Z (Qfloor (value a))))
    with (inject_Z (Z.abs (Qfloor (value a)))).
  now rewrite <- Zle_Qle.
Qed.

Lemma value_Num_exact (x : Q) :
  representable x -> (Qabs x < pow2 1024)%Q ->
  isFinite (Num x) = true /\ (value (Num x) == x)%Q.
Proof.
  intros Hr Hb. destruct (round_exact x Hr Hb) as [F V].
  unfold isFinite, value in *. cbn [norm]. rewrite norm_round in F, V.
  auto.
Qed.

Lemma value_ofZ (n : Z) :
  Z.abs n <= 2 ^ 53 ->
  isFinite (Num (inject_Z n)) = true
  /\ (value (Num (inject_Z n)) == inject_Z n)%Q.
Proof.
  intros H. apply value_Num_exact; [now apply representable_Z|].
  apply Qle_lt_trans with (pow2 53); [|apply pow2_lt; lia].
  rewrite pow2_inject by lia.
  change (Qabs (inject_Z n)) with (inject_Z (Z.abs n)).
  now rewrite <- Zle_Qle.
Qed.

(** ** The order of all numbers *)

Lemma norm_zero : norm (Num 0) = Num 0.
Proof. reflexivity. Qed.

Lemma norm_one : norm (Num 1) = Num 1.
Proof. reflexivity. Qed.

Lemma isNaN_norm (a : number) : isNaN a = true <-> norm a = NaN.
Proof. unfold isNaN. destruct (norm a); split; congruence. Qed.

Lemma ltb_leb (a b : number) : ltb a b = true -> leb a b = true.
Proof.
  unfold ltb, leb. destruct (norm a), (norm b); try congruence.
  rewrite negb_true_iff. intros H. apply Qle_bool_iff.
  apply Qlt_le_weak, Qnot_le_lt. intros Hle. apply Qle_bool_iff in Hle.
  congruence.
Qed.

Lemma leb_trans (a b c : number) :
  leb a b = true -> leb b c = true -> leb a c = true.
Proof.
  unfold leb. destruct (norm a), (norm b), (norm c); try congruence.
  rewrite !Qle_bool_iff. apply Qle_trans.
Qed.

Lemma leb_refl (a : number) : isNaN a = false -> leb a a = true.
Proof.
  unfold leb, isNaN. destruct (norm a); try congruence.
  intros _. apply Qle_bool_iff, Qle_refl.
Qed.

Lemma leb_norm_l (a b : number) : leb (norm a) b = leb a b.
Proof. unfold leb. now rewrite norm_norm. Qed.

Lemma leb_norm_r (a b : number) : leb a (norm b) = leb a b.
Proof. unfold leb. now rewrite norm_norm. Qed.

Lemma ltb_norm_l (a b : number) : ltb (norm a) b = ltb a b.
Proof. unfold ltb. now rewrite norm_norm. Qed.

Lemma ltb_norm_r (a b : number) : ltb a (norm b) = ltb a b.
Proof. unfold ltb. now rewrite norm_norm. Qed.

Lemma isNaN_norm_eq (a : number) : isNaN (norm a) = isNaN a.
Proof. unfold isNaN. now rewrite norm_norm. Qed.

Lemma ltb_false_leb (a b : number) :
  isNaN a = false -> isNaN b = false -> ltb a b = false -> leb b a = true.
Proof.
  unfold ltb, leb, isNaN. destruct (norm a), (norm b); try congruence.
  intros _ _. now rewrite negb_false_iff.
Qed.

(** [Math.max]: not a number when an argument is not one, the larger
    argument otherwise. *)
Lemma max_NaN (a b : number) :
  isNaN a = true \/ isNaN b = true -> max a b = NaN.
Proof.
  unfold max, isNaN. intros [H|H].
  - destruct (norm a); try discriminate. reflexivity.
  - destruct (norm b); try discriminate. destruct (norm a); reflexivity.
Qed.

Lemma max_numbers (a b : number) :
  isNaN a = false -> isNaN b = false ->
  max a b = if ltb a b then norm b else norm a.
Proof.
  unfold isNaN. intros Ha Hb.
  rewrite <- (ltb_norm_l a b), <- (ltb_norm_r (norm a) b). unfold max.
  destruct (norm a); try discriminate; destruct (norm b); try discriminate;
    reflexivity.
Qed.

Lemma max_spec (a b : number) :
  (max a b = NaN /\ (isNaN a = true \/ isNaN b = true))
  \/ (isNaN a = false /\ isNaN b = false /\ isNaN (max a b) = false
      /\ (max a b = norm a \/ max a b = norm b)
      /\ leb a (max a b) = true /\ leb b (max a b) = true).
Proof.
  destruct (isNaN a) eqn:Ha; [left; split; [apply max_NaN|]; auto|].
  destruct (isNaN b) eqn:Hb; [left; split; [apply max_NaN|]; auto|].
  right. split; [reflexivity|]. split; [reflexivity|].
  rewrite (max_numbers a b Ha Hb).
  destruct (ltb a b) eqn:E.
  - rewrite isNaN_norm_eq, !leb_norm_r.
    split; [exact Hb|]. split; [now right|].
    split; [now apply ltb_leb | now apply leb_refl].
  - rewrite isNaN_norm_eq, !leb_norm_r.
    split; [exact Ha|]. split; [now left|].
    split; [now apply leb_refl | now apply ltb_false_leb].
Qed.

(** The damage of an attack, [Math.max(1, ...)], is not a number or is at
    least 1. *)
Lemma max_one (x : number) :
  max (Num 1) x = NaN \/ leb (Num 1) (max (Num 1) x) = true.
Proof.
  destruct (max_spec (Num 1) x) as [[E _]|(_ & _ & _ & _ & H & _)]; auto.
Qed.

(** [Math.max(0, hp - damage)] for a damage that is at least 1 or not a
    number. *)
Lemma hurt_spec (a d : number) :
  isNaN d = true \/ leb (Num 1) d = true ->
  let h := max (Num 0) (sub a d) in
  (isNaN a = true -> isNaN h = true)
  /\ (leb (Num 0) a = true ->
      isNaN h = true \/ leb (Num 0) h = true /\ leb h a = true).
Proof.
  intros Hd h.
  assert (isNaN (sub a d) = true -> isNaN h = true) as Hnan.
  { intros H. subst h. rewrite max_NaN by auto. reflexivity. }
  split.
  { intros Ha. apply Hnan. unfold sub, add, isNaN in *.
    destruct (norm a); try discriminate. reflexivity. }
  intros H0.
  destruct (isNaN (sub a d)) eqn:Es; [left; now apply Hnan|].
  right.
  destruct (max_spec (Num 0) (sub a d))
    as [[_ [C|C]]|(_ & _ & _ & Hc & H1 & _)];
    [discriminate C | congruence |].
  fold h in Hc, H1. split; [exact H1|].
  destruct Hc as [Ec|Ec]; rewrite Ec.
  { now rewrite leb_norm_l. }
  rewrite leb_norm_l.
  (* the difference is not above [a] *)
  destruct Hd as [Hd|Hd].
  { exfalso. unfold sub, add, neg, isNaN in *.
    destruct (norm d); try discriminate.
    destruct (norm a); discriminate. }
  unfold sub, add, neg, leb, isNaN in *.
  change (norm (Num 1)) with (Num 1) in Hd.
  change (norm (Num 0)) with (Num 0) in H0.
  destruct (norm d) as [| | |y] eqn:Ed; try discriminate.
  { (* infinite damage *)
    cbn [norm] in *. destruct (norm a); try discriminate; reflexivity. }
  destruct (norm_Num d y Ed) as (Hny & Hby & Hry & _).
  assert (round (- y) = Num (- y)%Q) as En.
  { destruct (round_representable (- y)%Q) as [E1 _].
    - now apply representable_opp.
    - now rewrite Qabs_opp.
    - rewrite E1, nearest_opp, Hny. reflexivity. }
  rewrite norm_round, En in *.
  destruct (norm a) as [| | |x] eqn:Ea; try discriminate;
    cbn [norm]; [reflexivity|].
  rewrite norm_round in *.
  destruct (norm_Num a x Ea) as (_ & Hbx & Hrx & _).
  apply Qle_bool_iff in H0, Hd.
  assert (nearest (x + - y) <= x)%Q as Hle
      by (apply nearest_le_bound; [exact Hrx | lra]).
  destruct (round_cases (x + - y)) as [[E _]|[[E [_ Hb]]|[E _]]];
    rewrite E in *; [now apply Qle_bool_iff | | reflexivity].
  exfalso. apply Qabs_Qlt_condition in Hbx.
  assert (0 <= nearest (x + - y))%Q as Hnn.
  { unfold round in E.
    destruct (Qle_bool (pow2 1024) (Qabs (nearest (x + - y))));
      [|discriminate].
    destruct (Qle_bool 0 (x + - y)) eqn:E0; [|discriminate].
    apply Qle_bool_iff in E0. now apply nearest_nonneg. }
  rewrite Qabs_pos in Hb by exact Hnn. lra.
Qed.

(** ** Arithmetic that stays finite *)

Lemma mul_bounded (a b : number) (ka kb : Z) :
  isFinite a = true -> isFinite b = true ->
  (Qabs (value a) <= pow2 ka)%Q -> (Qabs (value b) <= pow2 kb)%Q ->
  -1074 <= ka + kb < 1024 ->
  isFinite (mul a b) = true
  /\ (Qabs (value (mul a b)) <= pow2 (ka + kb))%Q
  /\ value (mul a b) = nearest (value a * value b).
Proof.
  intros Fa Fb Ba Bb Hk. rewrite (mul_finite a b Fa Fb).
  assert (Qabs (value a * value b) <= pow2 (ka + kb))%Q as Hb.
  { rewrite Qabs_Qmult, pow2_add.
    pose proof (Qabs_nonneg (value a)). pose proof (Qabs_nonneg (value b)).
    pose proof (pow2_pos ka). pose proof (pow2_pos kb).
    apply Qle_trans with (pow2 ka * Qabs (value b))%Q.
    - apply Qmult_le_compat_r; assumption.
    - rewrite (Qmult_comm (pow2 ka)), (Qmult_comm (pow2 ka)).
      apply Qmult_le_compat_r; lra. }
  destruct (round_bounded _ (ka + kb) Hk Hb) as (F & V & B).
  rewrite V. auto.
Qed.

Lemma add_bounded (a b : number) (k : Z) :
  isFinite a = true -> isFinite b = true ->
  (Qabs (value a) <= pow2 k)%Q -> (Qabs (value b) <= pow2 k)%Q ->
  -1074 <= k + 1 < 1024 ->
  isFinite (add a b) = true
  /\ (Qabs (value (add a b)) <= pow2 (k + 1))%Q
  /\ value (add a b) = nearest (value a + value b).
Proof.
  intros Fa Fb Ba Bb Hk. rewrite (add_finite a b Fa Fb).
  assert (Qabs (value a + value b) <= pow2 (k + 1))%Q as Hb.
  { rewrite pow2_succ. pose proof (Qabs_triangle (value a) (value b)). lra. }
  destruct (round_bounded _ (k + 1) Hk Hb) as (F & V & B).
  rewrite V. auto.
Qed.

Lemma sub_bounded (a b : number) (k : Z) :
  isFinite a = true -> isFinite b = true ->
  (Qabs (value a) <= pow2 k)%Q -> (Qabs (value b) <= pow2 k)%Q ->
  -1074 <= k + 1 < 1024 ->
  isFinite (sub a b) = true
  /\ (Qabs (value (sub a b)) <= pow2 (k + 1))%Q
  /\ value (sub a b) = nearest (value a - value b).
Proof.
  intros Fa Fb Ba Bb Hk. rewrite (sub_finite a b Fa Fb).
  assert (Qabs (value a - value b) <= pow2 (k + 1))%Q as Hb.
  { rewrite pow2_succ.
    pose proof (Qabs_triangle (value a) (- value b)) as T.
    rewrite Qabs_opp in T. unfold Qminus. lra. }
  destruct (round_bounded _ (k + 1) Hk Hb) as (F & V & B).
  rewrite V. auto.
Qed.

Lemma Qabs_le_weaken (x : Q) (k k' : Z) :
  (Qabs x <= pow2 k)%Q -> k <= k' -> (Qabs x <= pow2 k')%Q.
Proof. intros H Hk. apply pow2_le in Hk. lra. Qed.

(** The health left by a hit, in the range in which the subtraction is
    exact. *)
Lemma difference_representable (x : Q) (n : Z) :
  representable x -> (x <= pow2 53)%Q -> 1 <= n -> (inject_Z n <= x)%Q ->
  representable (x - inject_Z n).
Proof.
  intros (m & e & He & Hm & E) Hx Hn Hle.
  pose proof (pow2_pos e) as Pe.
  assert (1 <= inject_Z n)%Q as Hn1.
  { change 1%Q with (inject_Z 1). now rewrite <- Zle_Qle. }
  destruct (Z_le_gt_dec 0 e) as [Hpos|Hneg].
  - assert (x == inject_Z (m * 2 ^ e))%Q as Ex.
    { rewrite inject_Z_mult, <- pow2_inject by lia. exact E. }
    eapply representable_compat;
      [|apply (representable_Z (m * 2 ^ e - n))].
    + unfold Z.sub. rewrite inject_Z_plus, inject_Z_opp, <- Ex. reflexivity.
    + rewrite Ex in Hx, Hle. rewrite pow2_inject in Hx by lia.
      rewrite <- Zle_Qle in Hx, Hle. lia.
  - exists (m - n * 2 ^ (- e)), e. split; [exact He|].
    assert (x - inject_Z n
            == inject_Z (m - n * 2 ^ (- e)) * pow2 e)%Q as Ed.
    { unfold Z.sub. rewrite inject_Z_plus, inject_Z_opp, inject_Z_mult.
      rewrite <- (pow2_inject (- e)) by lia. rewrite E.
      assert (pow2 (- e) * pow2 e == 1)%Q as P.
      { rewrite <- pow2_add. replace (- e + e) with 0 by lia. reflexivity. }
      transitivity (inject_Z m * pow2 e
                    - inject_Z n * (pow2 (- e) * pow2 e))%Q;
        [rewrite P; ring | ring]. }
    split; [|exact Ed].
    assert (0 <= m - n * 2 ^ (- e)) as L.
    { destruct (Z_le_gt_dec 0 (m - n * 2 ^ (- e))) as [H|H]; [exact H|].
      assert (inject_Z (m - n * 2 ^ (- e)) <= inject_Z (-1))%Q as Hq
          by (rewrite <- Zle_Qle; lia).
      assert (inject_Z (m - n * 2 ^ (- e)) * pow2 e <= inject_Z (-1) * pow2 e)%Q
        by (apply Qmult_le_compat_r; lra).
      change (inject_Z (-1)) with (-1)%Q in *. lra. }
    pose proof (Z.pow_pos_nonneg 2 (- e) ltac:(lia) ltac:(lia)). nia.
Qed.

Lemma hurt_exact (a d : number) :
  isFinite a = true -> (0 <= value a)%Q -> (value a <= pow2 53)%Q ->
  isFinite d = true -> (exists n : Z, (value d == inject_Z n)%Q) ->
  (1 <= value d)%Q -> (value d <= pow2 1000)%Q ->
  let h := max (Num 0) (sub a d) in
  isFinite h = true /\ (value h == floorAtZero (value a - value d))%Q.
Proof.
  intros Fa H0 H53 Fd (n & En) H1 Hd h.
  destruct (finite_value a Fa) as (_ & _ & _ & Ra).
  assert (isFinite (sub a d) = true
          /\ (value (sub a d) == value a - value d
              \/ value a - value d < 0 /\ value (sub a d) <= 0))%Q
    as [Fs Vs].
  { rewrite (sub_finite a d Fa Fd).
    destruct (Qlt_le_dec (value a - value d) 0) as [Hneg|Hpos].
    - assert (Qabs (value a - value d) <= pow2 1001)%Q as Hb.
      { pose proof (pow2_succ 1000) as S1. change (1000 + 1) with 1001 in S1.
        apply Qabs_Qle_condition.
        assert (pow2 53 <= pow2 1000)%Q by (apply pow2_le; lia).
        pose proof (pow2_pos 1000). split; lra. }
      destruct (round_bounded _ 1001 ltac:(lia) Hb) as (F & V & _).
      split; [exact F|]. right. split; [exact Hneg|]. rewrite V.
      apply nearest_le_bound; [apply representable_0 | lra].
    - assert (representable (value a - value d)) as Hr.
      { eapply representable_compat;
          [|apply (difference_representable (value a) n Ra H53)].
        + now rewrite En.
        + rewrite En in H1. change 1%Q with (inject_Z 1) in H1.
          now rewrite <- Zle_Qle in H1.
        + rewrite <- En. lra. }
      destruct (round_exact _ Hr) as [F V].
      { apply Qle_lt_trans with (pow2 53); [|apply pow2_lt; lia].
        apply Qabs_Qle_condition. pose proof (pow2_pos 53). split; lra. }
      split; [exact F|]. now left. }
  destruct (max_finite (Num 0) (sub a d) eq_refl Fs) as [Fm Vm].
  fold h in Fm, Vm. split; [exact Fm|]. rewrite Vm.
  change (value (Num 0)) with 0%Q. unfold floorAtZero.
  destruct (Qle_bool 0 (value a - value d)) eqn:E.
  - apply Qle_bool_iff in E. destruct Vs as [Vs|[Vs _]]; [|lra].
    rewrite Vs. apply Q.max_r. exact E.
  - assert (value a - value d < 0)%Q as Hneg.
    { apply Qnot_le_lt. intros H. apply Qle_bool_iff in H. congruence. }
    apply Q.max_l. destruct Vs as [Vs|[_ Vs]]; [rewrite Vs|]; lra.
Qed.

(** The same assignment on any finite health that is not negative: the
    result is finite, not negative and not above the health before. *)
Lemma hurt_finite (a d : number) :
  isFinite a = true -> (0 <= value a)%Q ->
  isFinite d = true -> (1 <= value d)%Q -> (value d <= pow2 1000)%Q ->
  let h := max (Num 0) (sub a d) in
  isFinite h = true /\ (0 <= value h)%Q /\ (value h <= value a)%Q.
Proof.
  intros Fa H0 Fd H1 Hd h.
  destruct (finite_value a Fa) as (_ & _ & Ba & Ra).
  assert (isFinite (sub a d) = true /\ (value (sub a d) <= value a)%Q)
    as [Fs Vs].
  { rewrite (sub_finite a d Fa Fd).
    assert (nearest (value a - value d) <= value a)%Q as Hu
        by (apply nearest_le_bound; [exact Ra | lra]).
    assert (- pow2 1000 <= nearest (value a - value d))%Q as Hl.
    { apply nearest_ge_bound; [|lra].
      apply representable_opp, representable_pow2. lia. }
    assert (Qabs (nearest (value a - value d)) < pow2 1024)%Q as Hb.
    { assert (pow2 1000 < pow2 1024)%Q by (apply pow2_lt; lia).
      rewrite (Qabs_pos _ H0) in Ba.
      apply Qabs_case; intros; lra. }
    destruct (round_cases (value a - value d))
      as [[E _]|[[_ [_ E]]|[_ [_ E]]]]; [|lra..].
    assert (isFinite (round (value a - value d)) = true) as F.
    { unfold isFinite. rewrite norm_round, E. reflexivity. }
    split; [exact F|].
    destruct (isFinite_round _ F) as [_ V]. now rewrite V. }
  destruct (max_finite (Num 0) (sub a d) eq_refl Fs) as [Fm Vm].
  fold h in Fm, Vm. split; [exact Fm|]. rewrite Vm.
  change (value (Num 0)) with 0%Q. split.
  - apply Q.le_max_l.
  - apply Q.max_lub; assumption.
Qed.

(** Comparisons. *)
Lemma ltb_asym (a b : number) : ltb a b = true -> ltb b a = false.
Proof.
  unfold ltb. destruct (norm a) as [| | |x], (norm b) as [| | |y];
    try reflexivity; try discriminate.
  intros H. apply negb_true_iff in H. apply negb_false_iff.
  apply Qle_bool_iff.
  destruct (Qlt_le_dec x y) as [L|L]; [now apply Qlt_le_weak|].
  apply Qle_bool_iff in L. congruence.
Qed.

Lemma eqb_not_ltb (a b : number) :
  eqb a b = true -> ltb a b = false /\ ltb b a = false.
Proof.
  unfold eqb, ltb. destruct (norm a) as [| | |x], (norm b) as [| | |y];
    try discriminate; try (split; reflexivity).
  intros H. apply Qeq_bool_iff in H.
  split; apply negb_false_iff, Qle_bool_iff; rewrite H; apply Qle_refl.
Qed.

Lemma not_ltb_eqb (a b : number) :
  isNaN a = false -> isNaN b = false ->
  ltb a b = false -> ltb b a = false -> eqb a b = true.
Proof.
  unfold isNaN, eqb, ltb.
  destruct (norm a) as [| | |x], (norm b) as [| | |y];
    try discriminate; try reflexivity.
  intros _ _ H1 H2. apply negb_false_iff, Qle_bool_iff in H1, H2.
  apply Qeq_bool_iff. now apply Qle_antisym.
Qed.

(** A sum of a number that is not negative and a number above 0 is above
    0: rounding never takes a sum below a term it has. *)
Lemma add_positive (a b : number) :
  leb (Num 0) a = true -> ltb (Num 0) b = true ->
  ltb (Num 0) (add a b) = true.
Proof.
  unfold leb, ltb at 1, add. rewrite norm_zero.
  destruct (norm a) as [| | |x] eqn:Ea; try discriminate;
    destruct (norm b) as [| | |y] eqn:Eb; try discriminate;
    intros Ha Hb; try reflexivity.
  apply Qle_bool_iff in Ha. apply negb_true_iff in Hb.
  assert (0 < y)%Q as Hy.
  { apply Qnot_le_lt. intros H. apply Qle_bool_iff in H. congruence. }
  destruct (norm_Num b y Eb) as (_ & _ & Ry & _).
  assert (y <= nearest (x + y))%Q as Hn
      by (apply nearest_ge_bound; [exact Ry | lra]).
  unfold ltb. rewrite norm_zero, norm_round.
  destruct (round_cases (x + y)) as [[E _]|[[E _]|[E [Hneg _]]]];
    rewrite E; [|reflexivity|lra].
  apply negb_true_iff.
  destruct (Qle_bool (nearest (x + y)) 0) eqn:El; [|reflexivity].
  apply Qle_bool_iff in El. lra.
Qed.

Lemma ltb_leb_zero (a : number) : ltb (Num 0) a = true -> leb (Num 0) a = true.
Proof. apply ltb_leb. Qed.

(** The difference of two finite numbers has the sign of the difference
    of their values. *)
Lemma sub_sign (a b : number) :
  isFinite a = true -> isFinite b = true -> (value a < value b)%Q ->
  ltb (Num 0) (sub b a) = true /\ ltb (sub a b) (Num 0) = true.
Proof.
  intros Fa Fb H.
  destruct (finite_value a Fa) as (_ & _ & _ & Ra).
  destruct (finite_value b Fb) as (_ & _ & _ & Rb).
  pose proof (nearest_diff_pos _ _ Ra Rb H) as Hp.
  split.
  - rewrite (sub_finite b a Fb Fa). unfold ltb.
    rewrite norm_zero, norm_round.
    destruct (round_cases (value b - value a))
      as [[E _]|[[E _]|[E [Hneg _]]]]; rewrite E; [|reflexivity|lra].
    apply negb_true_iff.
    destruct (Qle_bool (nearest (value b - value a)) 0) eqn:El;
      [|reflexivity].
    apply Qle_bool_iff in El. lra.
  - rewrite (sub_finite a b Fa Fb). unfold ltb.
    rewrite norm_zero, norm_round.
    assert (nearest (value a - value b) < 0)%Q as Hn.
    { assert (value a - value b == - (value b - value a))%Q as E by ring.
      rewrite (nearest_compat _ _ E), nearest_opp. lra. }
    destruct (round_cases (value a - value b))
      as [[E _]|[[E [Hpos _]]|[E _]]]; rewrite E; [|lra|reflexivity].
    apply negb_true_iff.
    destruct (Qle_bool 0 (nearest (value a - value b))) eqn:El;
      [|reflexivity].
    apply Qle_bool_iff in El. lra.
Qed.

Lemma ltb_NaN (a b : number) :
  isNaN a = true -> ltb a b = false /\ ltb b a = false.
Proof.
  intros H. apply isNaN_norm in H. unfold ltb. rewrite H.
  split; [reflexivity|]. destruct (norm b); reflexivity.
Qed.

Lemma leb_notNaN (a b : number) :
  leb a b = true -> isNaN a = false /\ isNaN b = false.
Proof.
  unfold leb, isNaN. destruct (norm a), (norm b); try discriminate; auto.
Qed.

Lemma leb_not_ltb (a b : number) : leb a b = true -> ltb b a = false.
Proof.
  unfold leb, ltb. destruct (norm a) as [| | |x], (norm b) as [| | |y];
    try discriminate; try reflexivity.
  intros H. now rewrite H.
Qed.

(** Health that neither becomes negative nor rises, over two stretches of
    a battle. *)
Lemma within_trans (a b c : number) :
  (isNaN b = true -> isNaN c = true) ->
  (leb (Num 0) a = true -> ltb b (Num 0) = false /\ ltb a b = false) ->
  (leb (Num 0) b = true -> ltb c (Num 0) = false /\ ltb b c = false) ->
  leb (Num 0) a = true -> ltb c (Num 0) = false /\ ltb a c = false.
Proof.
  intros Hn H1 H2 Ha. destruct (H1 Ha) as [B0 Bab].
  destruct (leb_notNaN _ _ Ha) as [_ Na].
  destruct (isNaN b) eqn:Nb.
  { specialize (Hn eq_refl). destruct (ltb_NaN c (Num 0) Hn) as [E _].
    destruct (ltb_NaN c a Hn) as [_ E']. auto. }
  assert (leb (Num 0) b = true) as Hb
      by (apply ltb_false_leb; [exact Nb | reflexivity | exact B0]).
  destruct (H2 Hb) as [C0 Cbc]. split; [exact C0|].
  destruct (isNaN c) eqn:Nc.
  { now destruct (ltb_NaN c a Nc) as [_ E']. }
  apply leb_not_ltb. apply leb_trans with b.
  - now apply ltb_false_leb.
  - now apply ltb_false_leb.
Qed.

(** [Math.max(0, hp - damage)], for a damage that is at least 1 or not a
    number, is neither negative nor above [hp]. *)
Lemma hurt_within (a d : number) :
  isNaN d = true \/ leb (Num 1) d = true ->
  let h := max (Num 0) (sub a d) in
  (isNaN a = true -> isNaN h = true)
  /\ (leb (Num 0) a = true ->
      ltb h (Num 0) = false /\ ltb a h = false).
Proof.
  intros Hd h. destruct (hurt_spec a d Hd) as [Hn Hw]. fold h in Hn, Hw.
  split; [exact Hn|]. intros Ha.
  destruct (Hw Ha) as [N|[L U]].
  - destruct (ltb_NaN h (Num 0) N) as [E _].
    destruct (ltb_NaN h a N) as [_ E']. auto.
  - split; now apply leb_not_ltb.
Qed.

(** A sum of numbers that are not negative is not negative. *)
Lemma add_nonneg (a b : number) :
  leb (Num 0) a = true -> leb (Num 0) b = true ->
  leb (Num 0) (add a b) = true.
Proof.
  unfold leb at 1 2, add. rewrite norm_zero.
  destruct (norm a) as [| | |x] eqn:Ea; try discriminate;
    destruct (norm b) as [| | |y] eqn:Eb; try discriminate;
    intros Ha Hb; try reflexivity.
  apply Qle_bool_iff in Ha, Hb.
  assert (0 <= nearest (x + y))%Q as Hn
      by (apply nearest_ge_bound; [apply representable_0 | lra]).
  unfold leb. rewrite norm_zero, norm_round.
  destruct (round_cases (x + y)) as [[E _]|[[E _]|[E [Hneg _]]]];
    rewrite E; [|reflexivity|lra].
  now apply Qle_bool_iff.
Qed.

End B64Facts.

Import B64Facts.

(** ** Reading the operators *)

#[global] Arguments B64.nearest : simpl never.
#[global] Arguments B64.round : simpl never.
#[global] Arguments B64.norm : simpl never.
#[global] Arguments B64.add : simpl never.
#[global] Arguments B64.sub : simpl never.
#[global] Arguments B64.neg : simpl never.
#[global] Arguments B64.mul : simpl never.
#[global] Arguments B64.ltb : simpl never.
#[global] Arguments B64.leb : simpl never.
#[global] Arguments B64.eqb : simpl never.
#[global] Arguments B64.max : simpl never.
#[global] Arguments B64.floor : simpl never.
#[global] Arguments B64.value : simpl never.
#[global] Arguments B64.isFinite : simpl never.
#[global] Arguments B64.isNaN : simpl never.
#[global] Arguments B64.toString : simpl never.
#[global] Arguments B64.pow2 : simpl never.

(** ** Test vectors *)

Example sha256_constants :
  length Sha256.K = 64%nat
  /\ nth 0 Sha256.K 0 = 0x428a2f98 /\ nth 63 Sha256.K 0 = 0xc67178f2
  /\ Sha256.h0 Sha256.initial = 0x6a09e667
  /\ Sha256.h7 Sha256.initial = 0x5be0cd19.
Proof. vm_compute. repeat split. Qed.

Example sha256_abc :
  Sha256.hex (Sha256.digest (utf8 (lit "abc")))
  = lit "ba7816bf8f01cfea414140de5dae2223b00361a396177a9cb410ff61f20015ad".
Proof. vm_compute. reflexivity. Qed.

Example sha256_two_blocks :
  Sha256.hex (Sha256.digest (utf8 (lit
    "abcdbcdecdefdefgefghfghighijhijkijkljklmklmnlmnomnopnopq")))
  = lit "248d6a61d20638b8e5c026930c3e6039a33ce45964ff2167f6ecedd419db06c1".
Proof. vm_compute. reflexivity. Qed.

Example utf8_sample :
  utf8 [65; 233; 8364; 55357; 56832]
  = [65; 195; 169; 226; 130; 172; 240; 159; 152; 128].
Proof. reflexivity. Qed.

Example demo_battle :
  let r := simulateBattle insertionSort (fst createDefaultTeams)
             (snd createDefaultTeams) demoConfig in
  winner r = WinnerB /\ rounds r = 5 /\ length (log r) = 15%nat
  /\ logHash r
     = lit "62cb23bb9c247e4d5dc897ecbdd64b9d53374beea79d630e8d93f96b81649eff".
Proof. vm_compute. repeat split. Qed.

Example demo_first_draw :
  fst (next (createDeterministicRng (lit "RAIKU-DEMO-SEED-001")))
  = (1902416905 # 4294967296)%Q.
Proof. vm_compute. reflexivity. Qed.

(** ** The generator *)

Lemma wrap32_range (x : Z) : 0 <= wrap32 x < 4294967296.
Proof. unfold wrap32. apply Z.mod_pos_bound. lia. Qed.

Lemma mulberry32_call_range (a : Z) :
  0 <= fst (mulberry32_call a) < 4294967296.
Proof. unfold mulberry32_call. cbn [fst]. apply wrap32_range. Qed.

Lemma next_range (rng_ : DeterministicRng) :
  (0 <= fst (next rng_))%Q /\ (fst (next rng_) < 1)%Q.
Proof.
  unfold next.
  pose proof (mulberry32_call_range (rng_a rng_)) as H.
  destruct (mulberry32_call (rng_a rng_)) as [out a]. cbn [fst] in *.
  split; [unfold Qle | unfold Qlt]; cbn; lia.
Qed.

Lemma nextInt_nonpositive (rng_ : DeterministicRng) (n : Q) :
  (n <= 0)%Q -> nextInt rng_ n = (0, rng_).
Proof.
  intros H. unfold nextInt. apply Qle_bool_iff in H. rewrite H. reflexivity.
Qed.

Lemma nextInt_positive (rng_ : DeterministicRng) (n : Q) :
  (0 < n)%Q ->
  nextInt rng_ n = (Qfloor (fst (next rng_) * n), snd (next rng_))
  /\ 0 <= fst (nextInt rng_ n)
  /\ (inject_Z (fst (nextInt rng_ n)) < n)%Q.
Proof.
  intros Hn. unfold nextInt.
  destruct (Qle_bool n 0) eqn:E.
  { apply Qle_bool_iff in E. exfalso. eapply Qlt_not_le; eauto. }
  destruct (next_range rng_) as [H0 H1].
  destruct (next rng_) as [r rng']. cbn [fst snd] in *.
  split; [reflexivity|]. split.
  - change 0 with (Qfloor 0). apply Qfloor_resp_le.
    apply Qmult_le_0_compat; [assumption | apply Qlt_le_weak; assumption].
  - eapply Qle_lt_trans; [apply Qfloor_le|].
    apply Qlt_le_trans with (1 * n)%Q.
    + apply Qmult_lt_compat_r; assumption.
    + rewrite Qmult_1_l. apply Qle_refl.
Qed.

Lemma advance_next (k : nat) (rng_ : DeterministicRng) :
  advance (S k) rng_ = snd (next (advance k rng_)).
Proof.
  revert rng_. induction k as [|k IH]; intros rng_; [reflexivity|].
  change (advance (S (S k)) rng_) with (advance (S k) (snd (next rng_))).
  rewrite IH. reflexivity.
Qed.

(** ** Target selection *)

Lemma living_none (opponents : list InternalFighter) :
  allDead opponents = true ->
  List.filter (fun o => alive (snd o)) (indexed opponents) = [].
Proof.
  unfold indexed, allDead. generalize 0%nat as start.
  induction opponents as [|f rest IH]; intros start H; [reflexivity|].
  cbn in H. apply andb_true_iff in H as [Hf Hrest].
  cbn. apply negb_true_iff in Hf. rewrite Hf. apply IH, Hrest.
Qed.

Lemma chooseTarget_none (rng_ : DeterministicRng)
    (opponents : list InternalFighter) :
  allDead opponents = true -> chooseTarget rng_ opponents = (None, rng_).
Proof.
  intros H. unfold chooseTarget. rewrite living_none by assumption.
  reflexivity.
Qed.

Lemma strike_no_target (round_ : Z) (e : TurnEntry)
    (fighter_ : InternalFighter) (st : Sim) :
  allDead (opponentsOf (team e) (teams st)) = true ->
  strike round_ e fighter_ st = Continue st.
Proof.
  intros H. unfold strike. rewrite chooseTarget_none by assumption.
  destruct st; reflexivity.
Qed.

(** C9 - at every position of the stream of every seed, [next] returns a
    fraction in [0,1); [nextInt n] returns a whole number in [0,n) for
    [n >= 1] and returns 0, without drawing, for [n <= 0]; [chooseTarget]
    on opponents without a living fighter returns no target and leaves the
    generator alone, and the turn then continues with the state as it
    was. *)
Theorem rng_contract (seed_ : jsstring) (k : nat) :
  let rng_ := advance k (createDeterministicRng seed_) in
  ((0 <= fst (next rng_))%Q /\ (fst (next rng_) < 1)%Q)
  /\ (forall n : Q, (1 <= n)%Q ->
        0 <= fst (nextInt rng_ n) /\ (inject_Z (fst (nextInt rng_ n)) < n)%Q)
  /\ (forall n : Q, (n <= 0)%Q -> nextInt rng_ n = (0, rng_))
  /\ (forall opponents, allDead opponents = true ->
        chooseTarget rng_ opponents = (None, rng_))
  /\ (forall round_ e fighter_ st,
        allDead (opponentsOf (team e) (teams st)) = true ->
        strike round_ e fighter_ st = Continue st).
Proof.
  intros rng_. split; [apply next_range|]. split.
  { intros n Hn.
    apply nextInt_positive.
    eapply Qlt_le_trans; [|exact Hn]. reflexivity. }
  split; [intros n Hn; apply nextInt_nonpositive, Hn|].
  split; [intros opponents H; apply chooseTarget_none, H|].
  intros round_ e fighter_ st H. apply strike_no_target, H.
Qed.

Lemma rng_contract_witness :
  0 <= fst (nextInt (advance 4 (createDeterministicRng (lit "seed"))) 3)
  /\ (inject_Z
        (fst (nextInt (advance 4 (createDeterministicRng (lit "seed"))) 3))
      < 3)%Q.
Proof.
  apply (proj1 (proj2 (rng_contract (lit "seed") 4))).
  vm_compute. discriminate.
Defined.

(** ** Damage *)

Lemma norm_mul (a b : number) : B64.norm (B64.mul a b) = B64.mul a b.
Proof.
  unfold B64.mul.
  destruct (B64.norm a) as [| | |x]; try reflexivity;
    destruct (B64.norm b) as [| | |y]; try reflexivity;
    try apply norm_round;
    match goal with
    | |- context [match ?s with _ => _ end] => destruct s; reflexivity
    end.
Qed.

Lemma mul_one_r (a : number) :
  B64.norm a = a -> B64.mul a (Num 1.0) = a.
Proof.
  intros Hn. unfold B64.mul.
  change (B64.norm (Num 1.0)) with (Num 1). rewrite Hn.
  destruct a as [| | |x]; try reflexivity.
  destruct (norm_Num (Num x) x Hn) as (_ & _ & _ & Er).
  transitivity (B64.round x); [apply round_compat; ring | exact Er].
Qed.

(** C3 - [computeDamage] draws three times, for the skill, the critical
    hit and the variance in this order, and returns the damage of the
    formula together with the critical flag; each operation of the formula
    is the binary64 one, in the order written.  The fighters are arguments
    only: nothing of the teams is returned. *)
Theorem computeDamage_spec (rng_ : DeterministicRng)
    (attacker defender : InternalFighter) :
  let skillRoll := fst (next rng_) in
  let critRoll := fst (next (advance 1 rng_)) in
  let varianceRoll := fst (next (advance 2 rng_)) in
  computeDamage rng_ attacker defender
  = ({| dr_damage :=
          damageFormula (base attacker) (base defender)
            skillRoll critRoll varianceRoll;
        dr_isCrit := B64.ltb (Num critRoll) (critChance (base attacker)) |},
     advance 3 rng_).
Proof.
  cbv zeta. unfold computeDamage, damageFormula. cbn [advance].
  destruct (next rng_) as [r1 g1]. cbn [fst snd].
  destruct (next g1) as [r2 g2]. cbn [fst snd].
  destruct (next g2) as [r3 g3]. cbn [fst snd].
  f_equal. f_equal.
  destruct (B64.ltb (Num r2) (critChance (base attacker))); [reflexivity|].
  now rewrite mul_one_r by apply norm_mul.
Qed.

(** With a variance roll of 0.625 the sum 0.9 + 0.125 is the binary64
    value just below 1.025, and 120 times it is floored to 122. *)
Example computeDamage_rounds :
  fst (next (advance 2 fiveEighths)) = (2684354560 # 4294967296)%Q
  /\ fst (computeDamage fiveEighths (plainFighter 120 0) (plainFighter 1 0))
     = {| dr_damage := Num 122; dr_isCrit := false |}.
Proof. vm_compute. split; reflexivity. Qed.

Lemma computeDamage_draws (rng_ : DeterministicRng)
    (attacker defender : InternalFighter) :
  snd (computeDamage rng_ attacker defender) = advance 3 rng_.
Proof.
  unfold computeDamage. cbn [advance].
  destruct (next rng_) as [r1 g1]. cbn [fst snd].
  destruct (next g1) as [r2 g2]. cbn [fst snd].
  destruct (next g2) as [r3 g3]. reflexivity.
Qed.

(** The damage is [Math.max(1, ...)]: at least 1, or not a number. *)
Lemma computeDamage_at_least_1 (rng_ : DeterministicRng)
    (attacker defender : InternalFighter) :
  let d := dr_damage (fst (computeDamage rng_ attacker defender)) in
  B64.isNaN d = true \/ B64.leb (Num 1) d = true.
Proof.
  cbv zeta. unfold computeDamage.
  destruct (next rng_) as [r1 g1]. destruct (next g1) as [r2 g2].
  destruct (next g2) as [r3 g3]. cbn [fst dr_damage].
  match goal with
  | |- context [B64.max (Num 1) ?x] =>
      destruct (max_one x) as [E|E]; [left; now rewrite E | now right]
  end.
Qed.

(** A roll is a binary64 value. *)
Lemma roll_number (rng_ : DeterministicRng) :
  let r := fst (next rng_) in
  B64.isFinite (Num r) = true /\ (B64.value (Num r) == r)%Q
  /\ (0 <= r)%Q /\ (r < 1)%Q.
Proof.
  cbv zeta. destruct (next_range rng_) as [H0 H1].
  assert (B64.representable (fst (next rng_))) as Hr.
  { unfold next.
    pose proof (mulberry32_call_range (rng_a rng_)) as H.
    destruct (mulberry32_call (rng_a rng_)) as [out a]. cbn [fst] in *.
    exists out, (-32). split; [lia|]. split; [lia|].
    change (B64.pow2 (-32)) with (1 # 4294967296)%Q.
    unfold Qeq, Qmult, inject_Z. cbn [Qnum Qden]. lia. }
  destruct (value_Num_exact _ Hr) as [F V].
  { apply Qle_lt_trans with 1%Q.
    - apply Qabs_Qle_condition. split; lra.
    - change 1%Q with (B64.pow2 0). apply pow2_lt. lia. }
  auto.
Qed.

Lemma Qabs_le_1 (x : Q) : (0 <= x)%Q -> (x < 1)%Q -> (Qabs x <= B64.pow2 0)%Q.
Proof.
  intros H0 H1. rewrite pow2_0. apply Qabs_Qle_condition. split; lra.
Qed.

Lemma moderate_le (a : number) (k : Z) :
  moderate a -> 300 <= k -> (Qabs (B64.value a) <= B64.pow2 k)%Q.
Proof. intros [_ H] Hk. now apply (Qabs_le_weaken _ 300). Qed.

(** Between tame fighters the damage is a whole number from 1 on, far
    from the end of the finite numbers. *)
Lemma computeDamage_tame (rng_ : DeterministicRng)
    (attacker defender : InternalFighter) :
  tame (base attacker) -> tame (base defender) ->
  let d := dr_damage (fst (computeDamage rng_ attacker defender)) in
  wholeNumber d /\ (1 <= B64.value d)%Q /\ (B64.value d <= B64.pow2 1000)%Q.
Proof.
  intros (_ & _ & [Fat Bat] & _ & [Fsk Bsk]) (_ & _ & _ & [Fde Bde] & _).
  cbv zeta. unfold computeDamage.
  destruct (roll_number rng_) as (_ & _ & _ & _).
  destruct (next rng_) as [r1 g1].
  destruct (next g1) as [r2 g2].
  pose proof (roll_number g2) as (F3 & V3 & R0 & R1).
  destruct (next g2) as [r3 g3]. cbn [fst snd dr_damage] in *.
  set (half := Num 0.5).
  assert (B64.isFinite half = true) as Fh by reflexivity.
  assert (Qabs (B64.value half) <= B64.pow2 0)%Q as Bh
      by (vm_compute; discriminate).
  destruct (mul_bounded (defense (base defender)) half 300 0 Fde Fh Bde Bh
              ltac:(lia)) as (F1 & B1 & _).
  destruct (sub_bounded (attack (base attacker)) _ 300 Fat F1 Bat B1
              ltac:(lia)) as (F2 & B2 & _).
  change (300 + 0) with 300 in *. change (300 + 1) with 301 in *.
  set (t2 := B64.sub _ _) in *.
  destruct (max_finite (Num 1) t2 eq_refl F2) as [Fb Vb].
  set (base_ := B64.max (Num 1) t2) in *.
  assert (Qabs (B64.value base_) <= B64.pow2 301)%Q as Bb.
  { rewrite Vb. change (B64.value (Num 1)) with 1%Q.
    assert (1 <= B64.pow2 301)%Q as P1.
    { rewrite <- pow2_0. apply pow2_le. lia. }
    apply Qabs_Qle_condition in B2 as [L U].
    apply Qabs_Qle_condition. split.
    - pose proof (Q.le_max_l 1 (B64.value t2)). lra.
    - apply Q.max_lub; lra. }
  set (sk := if B64.ltb (Num r1) (Num 0.35)
             then skillMultiplier (base attacker) else Num 1.0).
  assert (B64.isFinite sk = true
          /\ (Qabs (B64.value sk) <= B64.pow2 300)%Q) as [Fs Bs].
  { subst sk. destruct (B64.ltb (Num r1) (Num 0.35)); [auto|].
    split; [reflexivity|].
    change (B64.value (Num 1.0)) with 1%Q. change (Qabs 1) with 1%Q.
    rewrite <- pow2_0. apply pow2_le. lia. }
  destruct (mul_bounded base_ sk 301 300 Fb Fs Bb Bs ltac:(lia))
    as (F4 & B4 & _).
  change (301 + 300) with 601 in *. set (t4 := B64.mul base_ sk) in *.
  assert (B64.isFinite (Num 0.2) = true) as F02 by reflexivity.
  assert (Qabs (B64.value (Num 0.2)) <= B64.pow2 0)%Q as B02
      by (vm_compute; discriminate).
  assert (Qabs (B64.value (Num r3)) <= B64.pow2 0)%Q as B3.
  { rewrite V3. now apply Qabs_le_1. }
  destruct (mul_bounded (Num r3) (Num 0.2) 0 0 F3 F02 B3 B02 ltac:(lia))
    as (F5 & B5 & _).
  change (0 + 0) with 0 in *.
  assert (B64.isFinite (Num 0.9) = true) as F09 by reflexivity.
  assert (Qabs (B64.value (Num 0.9)) <= B64.pow2 0)%Q as B09
      by (vm_compute; discriminate).
  destruct (add_bounded (Num 0.9) _ 0 F09 F5 B09 B5 ltac:(lia))
    as (F6 & B6 & _).
  change (0 + 1) with 1 in *. set (variance := B64.add _ _) in *.
  destruct (mul_bounded t4 variance 601 1 F4 F6 B4 B6 ltac:(lia))
    as (F7 & B7 & _).
  change (601 + 1) with 602 in *. set (t7 := B64.mul t4 variance) in *.
  set (dmg := if B64.ltb (Num r2) (critChance (base attacker))
              then B64.mul t7 (Num 1.7) else t7).
  assert (B64.isFinite dmg = true
          /\ (Qabs (B64.value dmg) <= B64.pow2 603)%Q) as [Fd Bd].
  { subst dmg. destruct (B64.ltb (Num r2) (critChance (base attacker))).
    - assert (B64.isFinite (Num 1.7) = true) as F17 by reflexivity.
      assert (Qabs (B64.value (Num 1.7)) <= B64.pow2 1)%Q as B17
          by (vm_compute; discriminate).
      destruct (mul_bounded t7 (Num 1.7) 602 1 F7 F17 B7 B17 ltac:(lia))
        as (F8 & B8 & _).
      auto.
    - split; [exact F7|]. now apply (Qabs_le_weaken _ 602). }
  destruct (floor_finite dmg Fd) as [Ff Vf].
  destruct (max_finite (Num 1) (B64.floor dmg) eq_refl Ff) as [Fm Vm].
  change (B64.value (Num 1)) with 1%Q in Vm. rewrite Vf in Vm.
  assert (Qmax 1 (inject_Z (Qfloor (B64.value dmg)))
          == inject_Z (Z.max 1 (Qfloor (B64.value dmg))))%Q as Ez.
  { destruct (Z.max_spec 1 (Qfloor (B64.value dmg))) as [[H E]|[H E]];
      rewrite E.
    - apply Q.max_r. change 1%Q with (inject_Z 1). rewrite <- Zle_Qle. lia.
    - apply Q.max_l. change 1%Q with (inject_Z 1). rewrite <- Zle_Qle. lia. }
  split; [split; [exact Fm|]; eexists; rewrite Vm; exact Ez|].
  rewrite Vm. split; [apply Q.le_max_l|].
  apply Q.max_lub.
  - rewrite <- pow2_0. apply pow2_le. lia.
  - apply Qle_trans with (B64.value dmg); [apply Qfloor_le|].
    apply Qabs_Qle_condition in Bd as [_ U].
    assert (B64.pow2 603 <= B64.pow2 1000)%Q by (apply pow2_le; lia). lra.
Qed.

(** ** References into a team *)

Lemma combine_seq_lookup {A : Type} (l : list A) (start i : nat) (x : A) :
  In (i, x) (combine (seq start (length l)) l) ->
  (start <= i)%nat /\ l !! (i - start)%nat = Some x.
Proof.
  revert start. induction l as [|a l IH]; intros start H; [destruct H|].
  cbn in H. destruct H as [H|H].
  - inversion H; subst. split; [lia|]. now rewrite Nat.sub_diag.
  - apply IH in H as [Hle Hl]. split; [lia|].
    replace (i - start)%nat with (S (i - S start)) by lia. exact Hl.
Qed.

Lemma indexed_lookup {A : Type} (l : list A) (i : nat) (x : A) :
  In (i, x) (indexed l) -> l !! i = Some x.
Proof.
  intros H. apply combine_seq_lookup in H as [_ H].
  now rewrite Nat.sub_0_r in H.
Qed.

Lemma chooseTarget_some (rng_ rng' : DeterministicRng)
    (opponents : list InternalFighter) (i : nat) (t : InternalFighter) :
  chooseTarget rng_ opponents = (Some (i, t), rng') ->
  opponents !! i = Some t /\ alive t = true.
Proof.
  unfold chooseTarget.
  destruct (length _ =? 0)%nat; [discriminate|].
  destruct (nextInt _ _) as [idx g]. intros H. injection H as H _.
  apply list_elem_of_lookup_2, list_elem_of_In, filter_In in H as [H1 H2].
  split; [apply indexed_lookup, H1 | exact H2].
Qed.

Lemma living_some (opponents : list InternalFighter) :
  allDead opponents = false ->
  List.filter (fun o => alive (snd o)) (indexed opponents) <> [].
Proof.
  unfold indexed, allDead. generalize 0%nat as start.
  induction opponents as [|f rest IH]; intros start H; [discriminate|].
  cbn in *. destruct (alive f); [discriminate|]. apply IH, H.
Qed.

(** With a living opponent [chooseTarget] draws once and finds one. *)
Lemma chooseTarget_living (rng_ : DeterministicRng)
    (opponents : list InternalFighter) :
  allDead opponents = false ->
  exists i t, chooseTarget rng_ opponents = (Some (i, t), snd (next rng_)).
Proof.
  intros H. apply living_some in H. unfold chooseTarget.
  set (living := List.filter _ _) in *.
  destruct (length living =? 0)%nat eqn:E.
  { apply Nat.eqb_eq in E. destruct living; [congruence | discriminate]. }
  apply Nat.eqb_neq in E.
  assert (0 < inject_Z (Z.of_nat (length living)))%Q as Hpos.
  { change 0%Q with (inject_Z 0). rewrite <- Zlt_Qlt. lia. }
  destruct (nextInt_positive rng_ _ Hpos) as (En & H0 & H1).
  rewrite En in *. cbn [fst] in H0, H1. rewrite <- Zlt_Qlt in H1.
  destruct (lookup_lt_is_Some_2 living
              (Z.to_nat (Qfloor (fst (next rng_)
                                 * inject_Z (Z.of_nat (length living))))))
    as [[i t] Hl]; [lia|].
  exists i, t. now rewrite Hl.
Qed.

Lemma allDead_lookup (members : list InternalFighter) (i : nat)
    (f : InternalFighter) :
  allDead members = true -> members !! i = Some f -> alive f = false.
Proof.
  unfold allDead. intros H Hi.
  apply list_elem_of_lookup_2, list_elem_of_In in Hi.
  rewrite forallb_forall in H. apply H in Hi. now apply negb_true_iff.
Qed.

(** ** Health bounds *)

Lemma cloneFighter_ok (c : Character) : tame c -> fighterOk (cloneFighter c).
Proof.
  intros (F & H0 & _). unfold fighterOk, cloneFighter. cbn [hp base alive].
  split; [exact F|]. split; [lra|]. split; [lra|]. tauto.
Qed.

Lemma applyDamage_hp (t : InternalFighter) (d : number) :
  hp (applyDamage t d) = B64.max (Num 0) (B64.sub (hp t) d).
Proof. reflexivity. Qed.

Lemma applyDamage_base (t : InternalFighter) (d : number) :
  base (applyDamage t d) = base t.
Proof. reflexivity. Qed.

Lemma applyDamage_ok (t : InternalFighter) (d : number) :
  fighterOk t ->
  B64.isFinite d = true -> (1 <= B64.value d)%Q ->
  (B64.value d <= B64.pow2 1000)%Q ->
  fighterOk (applyDamage t d).
Proof.
  intros (Fh & H0 & Hm & Ha) Fd H1 Hd.
  destruct (hurt_finite (hp t) d Fh H0 Fd H1 Hd) as (F & L & U).
  unfold fighterOk. rewrite applyDamage_hp, applyDamage_base.
  split; [exact F|]. split; [exact L|]. split; [lra|].
  unfold applyDamage, clearAlive, assignHp. cbn [alive hp].
  pose proof (eqb_finite _ (Num 0) F eq_refl) as He.
  change (B64.value (Num 0)) with 0%Q in He.
  destruct (B64.eqb _ (Num 0)).
  - assert (B64.value (B64.max (Num 0) (B64.sub (hp t) d)) == 0)%Q as E
        by now apply He.
    split; [discriminate | intros H; lra].
  - split.
    + intros _. apply Qnot_le_lt. intros H.
      assert (B64.value (B64.max (Num 0) (B64.sub (hp t) d)) == 0)%Q as E
          by lra.
      apply He in E. discriminate.
    + intros H. apply Ha. lra.
Qed.

Lemma setOpponent_Forall (P : InternalFighter -> Prop) (t : TeamTag)
    (i : nat) (f : InternalFighter) (ts : BattleTeams) :
  Forall P (teamA ts) -> Forall P (teamB ts) -> P f ->
  Forall P (teamA (setOpponent t i f ts))
  /\ Forall P (teamB (setOpponent t i f ts)).
Proof.
  intros HA HB Hf. destruct t; cbn; split; auto using Forall_insert.
Qed.

Lemma opponent_Forall (P : InternalFighter -> Prop) (t : TeamTag)
    (i : nat) (f : InternalFighter) (ts : BattleTeams) :
  Forall P (teamA ts) -> Forall P (teamB ts) ->
  opponentsOf t ts !! i = Some f -> P f.
Proof.
  intros HA HB Hi. destruct t; cbn in Hi;
    [exact (Forall_lookup_1 _ _ _ _ HB Hi)
    |exact (Forall_lookup_1 _ _ _ _ HA Hi)].
Qed.

Lemma deref_Forall (P : InternalFighter -> Prop) (e : TurnEntry)
    (f : InternalFighter) (ts : BattleTeams) :
  Forall P (teamA ts) -> Forall P (teamB ts) ->
  deref ts e = Some f -> P f.
Proof.
  intros HA HB Hi. unfold deref in Hi. destruct (team e); cbn in Hi;
    [exact (Forall_lookup_1 _ _ _ _ HA Hi)
    |exact (Forall_lookup_1 _ _ _ _ HB Hi)].
Qed.

Lemma strike_ok (round_ : Z) (e : TurnEntry) (fighter_ : InternalFighter)
    (st st' : Sim) :
  tame (base fighter_) -> tameTeams (teams st) -> simOk st ->
  strike round_ e fighter_ st = Continue st' ->
  tameTeams (teams st') /\ simOk st'.
Proof.
  intros Hf [TA TB] (HA & HB & HE). unfold strike.
  destruct (chooseTarget _ _) as [[[i t]|] g1] eqn:Ec.
  - apply chooseTarget_some in Ec as [Hi _].
    pose proof (opponent_Forall _ _ _ _ _ TA TB Hi) as Tt. cbn beta in Tt.
    pose proof (opponent_Forall _ _ _ _ _ HA HB Hi) as Ht.
    pose proof (computeDamage_tame g1 fighter_ t Hf Tt) as Hd.
    destruct (computeDamage g1 fighter_ t) as [roll g2].
    cbn [fst dr_damage] in Hd. destruct Hd as ([Fd Wd] & D1 & Dk).
    intros H. injection H as <-. cbn [teams events].
    pose proof (applyDamage_ok t (dr_damage roll) Ht Fd D1 Dk) as Ht'.
    destruct (setOpponent_Forall fighterOk (team e) i _ (teams st) HA HB Ht')
      as [HA' HB'].
    destruct (setOpponent_Forall (fun f => tame (base f)) (team e) i
                (applyDamage t (dr_damage roll)) (teams st) TA TB Tt)
      as [TA' TB'].
    split; [split; assumption|].
    split; [exact HA'|]. split; [exact HB'|].
    apply Forall_app. split; [exact HE|].
    constructor; [|constructor].
    destruct Ht as (Fh & H0 & _). destruct Ht' as (Fh' & _).
    unfold eventOk, mkEvent. cbn [damage target hpBefore hpAfter dr_damage].
    split; [split; assumption|]. split; [exact D1|].
    split; [exact Fh|]. split; [exact Fh'|]. split; [reflexivity|].
    intros H53.
    apply (hurt_exact (hp t) (dr_damage roll) Fh H0 H53 Fd Wd D1 Dk).
  - intros H. injection H as <-. cbn [teams events].
    split; [split; assumption | repeat split; assumption].
Qed.

Lemma takeTurn_ok (round_ : Z) (e : TurnEntry) (st st' : Sim) :
  tameTeams (teams st) -> simOk st ->
  takeTurn round_ e st = Continue st' ->
  tameTeams (teams st') /\ simOk st'.
Proof.
  intros Ht Hok. unfold takeTurn.
  destruct (deref _ _) as [f|] eqn:Ef;
    [|intros H; injection H as <-; now split].
  destruct (negb (alive f)); [intros H; injection H as <-; now split|].
  destruct (allDead _); [discriminate|].
  apply strike_ok; [|exact Ht|exact Hok].
  destruct Ht as [TA TB].
  exact (deref_Forall (fun f => tame (base f)) _ _ _ TA TB Ef).
Qed.

Lemma step_ok (st st' : Sim) :
  tameTeams (teams st) /\ simOk st -> step st st' ->
  tameTeams (teams st') /\ simOk st'.
Proof.
  intros [Ht Hok] Hstep. destruct Hstep as [st fs | r e st st' H].
  - now split.
  - eapply takeTurn_ok; eauto.
Qed.

Lemma evolves_ok (st st' : Sim) :
  tameTeams (teams st) /\ simOk st -> evolves st st' ->
  tameTeams (teams st') /\ simOk st'.
Proof.
  intros Hok H. induction H as [|x y z Hxy _ IH]; [exact Hok|].
  apply IH. eapply step_ok; eauto.
Qed.

Lemma initialSim_ok (teamA_ teamB_ : list Character) (seed_ : jsstring) :
  Forall tame teamA_ -> Forall tame teamB_ ->
  tameTeams (teams (initialSim teamA_ teamB_ seed_))
  /\ simOk (initialSim teamA_ teamB_ seed_).
Proof.
  intros HA HB. unfold tameTeams, simOk, initialSim, cloneTeams.
  cbn [teams teamA teamB events].
  repeat split.
  - induction HA; cbn; constructor; auto.
  - induction HB; cbn; constructor; auto.
  - induction HA; cbn; constructor; auto using cloneFighter_ok.
  - induction HB; cbn; constructor; auto using cloneFighter_ok.
  - constructor.
Qed.

(** ** The loops stay within [evolves] *)

Section EngineFacts.
Variable hostSort : HostSort.

Lemma takeTurn_break (round_ : Z) (e : TurnEntry) (st st' : Sim) :
  takeTurn round_ e st = Break st' -> st' = st.
Proof.
  unfold takeTurn, strike.
  destruct (deref _ _) as [f|]; [|discriminate].
  destruct (negb (alive f)); [discriminate|].
  destruct (allDead _); [intros H; injection H as <-; reflexivity|].
  destruct (chooseTarget _ _) as [[[i t]|] g1]; [|discriminate].
  destruct (computeDamage _ _ _). discriminate.
Qed.

Lemma runTurns_evolves (round_ : Z) (fighters : list TurnEntry) (st : Sim) :
  evolves st (runTurns round_ fighters st).
Proof.
  revert st. induction fighters as [|e rest IH]; intros st; cbn.
  - apply rtc_refl.
  - destruct (takeTurn round_ e st) as [st'|st'] eqn:E.
    + eapply rtc_l; [eapply step_turn; exact E | apply IH].
    + apply takeTurn_break in E. subst. apply rtc_refl.
Qed.

Lemma roundLoop_evolves (fuel : nat) (m round_ : Z) (st : Sim) :
  evolves st (snd (roundLoop hostSort fuel m round_ st)).
Proof.
  revert round_ st. induction fuel as [|fuel IH]; intros round_ st; cbn.
  - apply rtc_refl.
  - destruct (round_ <? m); [|apply rtc_refl].
    destruct (length _ =? 0)%nat; [apply rtc_refl|].
    destruct (sortFighters hostSort _ _ _) as [order g1].
    pose proof (step_draw st g1) as Hsort.
    set (st1 := runTurns _ _ _).
    assert (evolves st st1) as Hst1.
    { eapply rtc_l; [exact Hsort | apply runTurns_evolves]. }
    destruct (allDead _ || allDead _); [exact Hst1|].
    etransitivity; [exact Hst1 | apply IH].
Qed.

Lemma runBattle_evolves (teamA_ teamB_ : list Character) (cfg : BattleConfig) :
  evolves (initialSim teamA_ teamB_ (seed cfg))
          (snd (runBattle hostSort teamA_ teamB_ cfg)).
Proof. apply roundLoop_evolves. Qed.

Lemma simulateBattle_log (teamA_ teamB_ : list Character) (cfg : BattleConfig) :
  log (simulateBattle hostSort teamA_ teamB_ cfg)
  = events (snd (runBattle hostSort teamA_ teamB_ cfg)).
Proof.
  unfold simulateBattle. destruct (runBattle hostSort _ _ _). reflexivity.
Qed.

Lemma simulateBattle_finalState (teamA_ teamB_ : list Character)
    (cfg : BattleConfig) :
  finalState (simulateBattle hostSort teamA_ teamB_ cfg)
  = let ts := teams (snd (runBattle hostSort teamA_ teamB_ cfg)) in
    {| fin_teamA := List.map snapshotFighter (teamA ts);
       fin_teamB := List.map snapshotFighter (teamB ts) |}.
Proof.
  unfold simulateBattle. destruct (runBattle hostSort _ _ _). reflexivity.
Qed.

(** C5, amended - on rosters whose templates have a finite [maxHp]
    above 0 and attack, defense and skill multiplier of magnitude at most
    2^300: every state the simulation is in between two turns keeps every
    fighter within [0 <= hp <= maxHp] with [alive] true exactly when
    [hp > 0]; every event logged has a damage that is a whole number at
    least 1 and [target.hpAfter = Math.max(0, target.hpBefore - damage)],
    the difference being the binary64 one, and the exact one where
    [hpBefore] is at most 2^53; the same holds of the log and of the
    final snapshots returned.  A state is what one turn leaves: the two
    assignments to the target, [hp] then [alive], are one step. *)
Theorem health_bounds (teamA_ teamB_ : list Character) (cfg : BattleConfig) :
  Forall tame teamA_ ->
  Forall tame teamB_ ->
  let r := simulateBattle hostSort teamA_ teamB_ cfg in
  (forall st, evolves (initialSim teamA_ teamB_ (seed cfg)) st -> simOk st)
  /\ evolves (initialSim teamA_ teamB_ (seed cfg))
             (snd (runBattle hostSort teamA_ teamB_ cfg))
  /\ Forall eventOk (log r)
  /\ Forall stateOk (fin_teamA (finalState r))
  /\ Forall stateOk (fin_teamB (finalState r)).
Proof.
  intros HA HB r.
  assert (forall st, evolves (initialSim teamA_ teamB_ (seed cfg)) st ->
                     simOk st) as Hall.
  { intros st Hev.
    apply (evolves_ok _ _ (initialSim_ok teamA_ teamB_ (seed cfg) HA HB) Hev). }
  pose proof (runBattle_evolves teamA_ teamB_ cfg) as Hrun.
  destruct (Hall _ Hrun) as (HfA & HfB & HE).
  split; [exact Hall|]. split; [exact Hrun|].
  subst r. rewrite simulateBattle_log, simulateBattle_finalState.
  cbn zeta. cbn [fin_teamA fin_teamB].
  split; [exact HE|].
  split; apply List.Forall_map; [exact HfA | exact HfB].
Qed.

(** ** Termination and the round counter *)

Lemma roundLoop_fuel (fuel : nat) (m round_ : Z) (st : Sim) :
  (Z.to_nat (m - round_) <= fuel)%nat ->
  roundLoop hostSort fuel m round_ st
  = roundLoop hostSort (Z.to_nat (m - round_)) m round_ st.
Proof.
  revert round_ st. induction fuel as [|fuel IH]; intros round_ st Hf.
  - replace (Z.to_nat (m - round_)) with 0%nat by lia. reflexivity.
  - destruct (round_ <? m) eqn:E.
    + apply Z.ltb_lt in E.
      replace (Z.to_nat (m - round_))
        with (S (Z.to_nat (m - (round_ + 1)))) by lia.
      cbn [roundLoop]. rewrite (proj2 (Z.ltb_lt _ _) E).
      destruct (length _ =? 0)%nat; [reflexivity|].
      destruct (sortFighters hostSort _ _ _) as [order g1].
      destruct (allDead _ || allDead _); [reflexivity|].
      apply IH. lia.
    + apply Z.ltb_ge in E.
      replace (Z.to_nat (m - round_)) with 0%nat by lia.
      cbn [roundLoop]. rewrite (proj2 (Z.ltb_ge _ _) E). reflexivity.
Qed.

Lemma strike_events (round_ : Z) (e : TurnEntry) (fighter_ : InternalFighter)
    (st st' : Sim) :
  strike round_ e fighter_ st = Continue st' ->
  exists later,
    events st' = events st ++ later
    /\ Forall (fun ev => round ev = round_ /\ actorTeam ev = team e) later.
Proof.
  unfold strike.
  destruct (chooseTarget _ _) as [[[i t]|] g1].
  - destruct (computeDamage _ _ _) as [roll g2].
    intros H. injection H as <-. cbn. eexists. split; [reflexivity|].
    constructor; [split; reflexivity | constructor].
  - intros H. injection H as <-. cbn. exists []. split; [|constructor].
    now rewrite app_nil_r.
Qed.

Lemma takeTurn_events (round_ : Z) (e : TurnEntry) (st st' : Sim) :
  takeTurn round_ e st = Continue st' ->
  exists later,
    events st' = events st ++ later
    /\ Forall (fun ev => round ev = round_ /\ actorTeam ev = team e) later.
Proof.
  assert (exists later,
    events st = events st ++ later
    /\ Forall (fun ev => round ev = round_ /\ actorTeam ev = team e) later)
    as Hnil.
  { exists []. split; [now rewrite app_nil_r | constructor]. }
  unfold takeTurn.
  destruct (deref _ _) as [f|]; [|intros H; injection H as <-; exact Hnil].
  destruct (negb (alive f)); [intros H; injection H as <-; exact Hnil|].
  destruct (allDead _); [discriminate|].
  apply strike_events.
Qed.

Lemma runTurns_events (round_ : Z) (fighters : list TurnEntry) (st : Sim) :
  exists later,
    events (runTurns round_ fighters st) = events st ++ later
    /\ Forall (fun ev => round ev = round_) later.
Proof.
  revert st. induction fighters as [|e rest IH]; intros st; cbn.
  - exists []. split; [now rewrite app_nil_r | constructor].
  - destruct (takeTurn round_ e st) as [st'|st'] eqn:E.
    + apply takeTurn_events in E as (l1 & E1 & H1).
      destruct (IH st') as (l2 & E2 & H2).
      exists (l1 ++ l2). rewrite E2, E1, app_assoc. split; [reflexivity|].
      apply Forall_app. split; [|exact H2].
      eapply Forall_impl; [exact H1|]. now intros ev [? _].
    + apply takeTurn_break in E. subst.
      exists []. split; [now rewrite app_nil_r | constructor].
Qed.

Lemma same_round_sorted (c : Z) (l : list BattleEvent) :
  Forall (fun ev => round ev = c) l -> StronglySorted roundOrder l.
Proof.
  induction 1 as [|ev l Hev Hl IH]; constructor; [exact IH|].
  eapply Forall_impl; [exact Hl|]. intros ev' Hev'. unfold roundOrder.
  cbn in Hev, Hev'. lia.
Qed.

Lemma roundLoop_rounds (fuel : nat) (m round_ : Z) (st : Sim) :
  let r := fst (roundLoop hostSort fuel m round_ st) in
  let st' := snd (roundLoop hostSort fuel m round_ st) in
  round_ <= r <= Z.max round_ m
  /\ (fuel <> 0%nat -> round_ < m -> round_ + 1 <= r)
  /\ exists later,
       events st' = events st ++ later
       /\ Forall (fun ev => round_ < round ev <= r) later
       /\ StronglySorted roundOrder later.
Proof.
  revert round_ st. induction fuel as [|fuel IH]; intros round_ st; cbn zeta.
  { cbn. split; [lia|]. split; [congruence|].
    exists []. rewrite app_nil_r. repeat split; constructor. }
  cbn [roundLoop].
  destruct (round_ <? m) eqn:E.
  2:{ cbn. apply Z.ltb_ge in E. split; [lia|]. split; [lia|].
      exists []. rewrite app_nil_r. repeat split; constructor. }
  apply Z.ltb_lt in E.
  destruct (length _ =? 0)%nat.
  { cbn. split; [lia|]. split; [lia|].
    exists []. rewrite app_nil_r. repeat split; constructor. }
  destruct (sortFighters hostSort _ _ _) as [order g1].
  set (st0 := {| teams := teams st; rng := g1; events := events st |}).
  destruct (runTurns_events (round_ + 1) order st0) as (l1 & E1 & H1).
  change (events st0) with (events st) in E1.
  destruct (allDead _ || allDead _).
  { cbn. split; [lia|]. split; [lia|].
    exists l1. split; [exact E1|]. split.
    - eapply Forall_impl; [exact H1|]. cbn. intros; lia.
    - eapply same_round_sorted; exact H1. }
  specialize (IH (round_ + 1) (runTurns (round_ + 1) order st0)).
  cbn zeta in IH. destruct IH as (Hr & _ & l2 & E2 & H2 & S2).
  set (res := roundLoop hostSort fuel m (round_ + 1)
                (runTurns (round_ + 1) order st0)) in *.
  split; [lia|]. split; [lia|].
  exists (l1 ++ l2). rewrite E2, E1, app_assoc. split; [reflexivity|].
  split.
  - apply Forall_app. split.
    + eapply Forall_impl; [exact H1|]. cbn. intros; lia.
    + eapply Forall_impl; [exact H2|]. cbn. intros; lia.
  - apply StronglySorted_app_2; [|eapply same_round_sorted; exact H1|exact S2].
    intros x1 x2 Hx1 Hx2.
    rewrite Forall_forall in H1, H2.
    specialize (H1 _ Hx1). specialize (H2 _ Hx2). unfold roundOrder. lia.
Qed.

(** ** A team without a living fighter *)

Lemma opponentsOf_other (t t' : TeamTag) (ts : BattleTeams) :
  t <> t' -> opponentsOf t ts = teamOf t' ts.
Proof. destruct t, t'; intros H; (reflexivity || congruence). Qed.

Lemma takeTurn_dead (t : TeamTag) (round_ : Z) (e : TurnEntry) (st st' : Sim) :
  allDead (teamOf t (teams st)) = true ->
  takeTurn round_ e st = Continue st' -> st' = st.
Proof.
  intros Hdead. unfold takeTurn.
  destruct (deref _ _) as [f|] eqn:D;
    [|intros H; injection H as <-; reflexivity].
  destruct (alive f) eqn:Ef; cbn [negb];
    [|intros H; injection H as <-; reflexivity].
  destruct (decide (team e = t)) as [Heq|Hne].
  - unfold deref in D. rewrite Heq in D.
    rewrite (allDead_lookup _ _ _ Hdead D) in Ef. discriminate.
  - rewrite (opponentsOf_other _ t _ Hne), Hdead. discriminate.
Qed.

Lemma step_dead (t : TeamTag) (st st' : Sim) :
  allDead (teamOf t (teams st)) = true -> step st st' ->
  teams st' = teams st /\ events st' = events st.
Proof.
  intros Hdead Hstep. destruct Hstep as [st fs | r e st st' H].
  - split; reflexivity.
  - apply (takeTurn_dead t) in H; [subst; split; reflexivity | exact Hdead].
Qed.

Lemma evolves_dead (t : TeamTag) (st st' : Sim) :
  allDead (teamOf t (teams st)) = true -> evolves st st' ->
  teams st' = teams st /\ events st' = events st.
Proof.
  intros Hdead H. induction H as [|x y z Hxy _ IH]; [split; reflexivity|].
  destruct (step_dead t x y Hdead Hxy) as [Et Ee].
  rewrite <- Et, <- Ee. apply IH. rewrite Et. exact Hdead.
Qed.

(** C8 - with a positive [maxRounds] the simulation returns: [Z.to_nat
    maxRounds] iterations of the round loop are enough and more change
    nothing; the counter returned is between 1 and [maxRounds]; the events
    carry round numbers from 1 up to it, never decreasing along the log;
    and from a state in which a team has no living fighter on, no event
    with that team as [actorTeam] is appended. *)
Theorem termination_bound (teamA_ teamB_ : list Character)
    (cfg : BattleConfig) :
  0 < maxRounds cfg ->
  let r := simulateBattle hostSort teamA_ teamB_ cfg in
  let init := initialSim teamA_ teamB_ (seed cfg) in
  (forall fuel, (Z.to_nat (maxRounds cfg) <= fuel)%nat ->
     roundLoop hostSort fuel (maxRounds cfg) 0 init
     = runBattle hostSort teamA_ teamB_ cfg)
  /\ 1 <= rounds r <= maxRounds cfg
  /\ Forall (fun ev => 1 <= round ev <= rounds r) (log r)
  /\ StronglySorted roundOrder (log r)
  /\ evolves init (snd (runBattle hostSort teamA_ teamB_ cfg))
  /\ (forall t st st',
        evolves init st -> allDead (teamOf t (teams st)) = true ->
        evolves st st' ->
        exists later,
          events st' = events st ++ later
          /\ Forall (fun ev => actorTeam ev <> t) later).
Proof.
  intros Hm r init. split.
  { intros fuel Hf. unfold runBattle. fold init.
    rewrite roundLoop_fuel by (rewrite Z.sub_0_r; exact Hf).
    now rewrite Z.sub_0_r. }
  pose proof (roundLoop_rounds (Z.to_nat (maxRounds cfg)) (maxRounds cfg) 0
                init) as H.
  cbn zeta in H. fold init in H.
  destruct H as (Hr & Hfirst & later & E & Hl & Hs).
  assert (rounds r = fst (runBattle hostSort teamA_ teamB_ cfg)) as Er.
  { subst r. unfold simulateBattle. destruct (runBattle hostSort _ _ _).
    reflexivity. }
  assert (log r = later) as El.
  { subst r. rewrite simulateBattle_log. exact E. }
  unfold runBattle in Er. fold init in Er. rewrite <- Er in *.
  split; [split; [apply Hfirst; lia | lia]|].
  rewrite El.
  split; [eapply Forall_impl; [exact Hl|]; cbn; intros; lia|].
  split; [exact Hs|].
  split; [apply runBattle_evolves|].
  intros t st st' _ Hdead Hev.
  destruct (evolves_dead t st st' Hdead Hev) as [_ Ee].
  exists []. rewrite app_nil_r. split; [exact Ee | constructor].
Qed.

(** ** Winner resolution *)

Lemma remainingHealth_snapshot (members : list InternalFighter) :
  remainingHealth (List.map snapshotFighter members) = totalHp members.
Proof.
  unfold remainingHealth, totalHp. generalize (Num 0).
  induction members as [|f rest IH]; intros acc; cbn; [reflexivity|].
  apply IH.
Qed.

Lemma fullyDead_snapshot (members : list InternalFighter) :
  fullyDead (List.map snapshotFighter members) = allDead members.
Proof.
  unfold fullyDead, allDead.
  induction members as [|f rest IH]; cbn; [reflexivity|]. now rewrite IH.
Qed.

Lemma resolveWinner_rule (ts : BattleTeams) :
  resolveWinner ts
  = winnerRule {| fin_teamA := List.map snapshotFighter (teamA ts);
                  fin_teamB := List.map snapshotFighter (teamB ts) |}.
Proof.
  unfold resolveWinner, winnerRule. cbn [fin_teamA fin_teamB].
  rewrite !fullyDead_snapshot, !remainingHealth_snapshot.
  destruct (allDead (teamA ts)), (allDead (teamB ts)); reflexivity.
Qed.

Lemma winnerRule_draw (fin : FinalState) :
  winnerRule fin = DRAW ->
  fullyDead (fin_teamA fin) = fullyDead (fin_teamB fin)
  /\ B64.ltb (remainingHealth (fin_teamA fin))
       (remainingHealth (fin_teamB fin)) = false
  /\ B64.ltb (remainingHealth (fin_teamB fin))
       (remainingHealth (fin_teamA fin)) = false.
Proof.
  unfold winnerRule.
  destruct (fullyDead (fin_teamA fin)), (fullyDead (fin_teamB fin));
    try discriminate;
    destruct (B64.ltb (remainingHealth (fin_teamB fin)) _);
    try discriminate;
    destruct (B64.ltb (remainingHealth (fin_teamA fin)) _);
    try discriminate; auto.
Qed.

(** C2 - the result names one of team A, team B and draw, and it is the
    one the resolution rule gives on the final snapshots: with exactly one
    team fully dead the other team wins; otherwise the team with the
    strictly larger sum of remaining hp wins, and equal sums are a draw.
    The sums are those of the numbers of the program, added from the
    left; a draw that is not one of equal sums has a sum that is not a
    number. *)
Theorem winner_consistency (teamA_ teamB_ : list Character)
    (cfg : BattleConfig) :
  let r := simulateBattle hostSort teamA_ teamB_ cfg in
  let hpA := remainingHealth (fin_teamA (finalState r)) in
  let hpB := remainingHealth (fin_teamB (finalState r)) in
  winner r = winnerRule (finalState r)
  /\ (winner r = WinnerA \/ winner r = WinnerB \/ winner r = DRAW)
  /\ (winner r = DRAW <->
      fullyDead (fin_teamA (finalState r))
      = fullyDead (fin_teamB (finalState r))
      /\ B64.ltb hpA hpB = false /\ B64.ltb hpB hpA = false)
  /\ (B64.eqb hpA hpB = true ->
      fullyDead (fin_teamA (finalState r))
      = fullyDead (fin_teamB (finalState r)) ->
      winner r = DRAW)
  /\ (winner r = DRAW ->
      B64.eqb hpA hpB = true
      \/ B64.isNaN hpA = true \/ B64.isNaN hpB = true).
Proof.
  cbn zeta.
  assert (winner (simulateBattle hostSort teamA_ teamB_ cfg)
          = winnerRule (finalState (simulateBattle hostSort teamA_ teamB_ cfg)))
    as E.
  { unfold simulateBattle. destruct (runBattle hostSort _ _ _) as [n st].
    cbn [winner finalState]. apply resolveWinner_rule. }
  set (r := simulateBattle hostSort teamA_ teamB_ cfg) in *.
  assert (fullyDead (fin_teamA (finalState r))
          = fullyDead (fin_teamB (finalState r)) ->
          B64.ltb (remainingHealth (fin_teamA (finalState r)))
            (remainingHealth (fin_teamB (finalState r))) = false ->
          B64.ltb (remainingHealth (fin_teamB (finalState r)))
            (remainingHealth (fin_teamA (finalState r))) = false ->
          winner r = DRAW) as Hback.
  { intros Hd H1 H2. rewrite E. unfold winnerRule. rewrite Hd, H1, H2.
    destruct (fullyDead (fin_teamB (finalState r))); reflexivity. }
  split; [exact E|].
  split; [destruct (winner r); auto|].
  split; [split|split].
  - rewrite E. apply winnerRule_draw.
  - intros (Hd & H1 & H2). now apply Hback.
  - intros He Hd. destruct (eqb_not_ltb _ _ He) as [H1 H2].
    now apply Hback.
  - rewrite E. intros Hw.
    destruct (winnerRule_draw _ Hw) as (_ & H1 & H2).
    destruct (B64.isNaN (remainingHealth (fin_teamA (finalState r)))) eqn:NA;
      [auto|].
    destruct (B64.isNaN (remainingHealth (fin_teamB (finalState r)))) eqn:NB;
      [auto|].
    left. now apply not_ltb_eqb.
Qed.

(** ** The digest *)

Lemma hexDigit_lower (d : Z) : 0 <= d < 16 -> isLowerHex (hexDigit d).
Proof.
  intros H. unfold isLowerHex, hexDigit.
  destruct (d <? 10) eqn:E; [apply Z.ltb_lt in E | apply Z.ltb_ge in E]; lia.
Qed.

Lemma hexWord_shape (w : Z) :
  length (Sha256.hexWord w) = 8%nat /\ Forall isLowerHex (Sha256.hexWord w).
Proof.
  unfold Sha256.hexWord. split; [reflexivity|].
  cbn [List.map].
  repeat (constructor;
          [apply hexDigit_lower; apply Z.mod_pos_bound; lia|]).
  constructor.
Qed.

Lemma hex_shape (s : Sha256.state) :
  length (Sha256.hex s) = 64%nat /\ Forall isLowerHex (Sha256.hex s).
Proof.
  unfold Sha256.hex. split.
  - rewrite !length_app.
    rewrite !(proj1 (hexWord_shape _)). reflexivity.
  - repeat (apply Forall_app; split); apply hexWord_shape.
Qed.

(** C4 - serialising the log of a result again and hashing the bytes
    gives the digest stored in the result, and that digest is 64
    lower-case hexadecimal digits, the 256 bits of the hash. *)
Theorem digest_binding (teamA_ teamB_ : list Character) (cfg : BattleConfig) :
  let r := simulateBattle hostSort teamA_ teamB_ cfg in
  computeLogHash (log r) = logHash r
  /\ logHash r = Sha256.hex (Sha256.digest (utf8 (JSON_stringify (log r))))
  /\ length (logHash r) = 64%nat
  /\ Forall isLowerHex (logHash r).
Proof.
  cbn zeta. unfold simulateBattle.
  destruct (runBattle hostSort _ _ _) as [n st].
  cbn [log logHash]. split; [reflexivity|]. split; [reflexivity|].
  apply hex_shape.
Qed.

Lemma computeLogHash_nil : computeLogHash [] = emptyLogHash.
Proof. vm_compute. reflexivity. Qed.

(** ** Degenerate inputs *)

Lemma runBattle_empty (cfg : BattleConfig) :
  runBattle hostSort [] [] cfg
  = (if 0 <? maxRounds cfg then 1 else 0, initialSim [] [] (seed cfg)).
Proof.
  unfold runBattle.
  destruct (Z.to_nat (maxRounds cfg)) as [|fuel] eqn:E.
  - replace (0 <? maxRounds cfg) with false
      by (symmetry; apply Z.ltb_ge; lia).
    reflexivity.
  - cbn [roundLoop].
    replace (0 <? maxRounds cfg) with true
      by (symmetry; apply Z.ltb_lt; lia).
    reflexivity.
Qed.

(** C6, amended - with both teams empty the loop enters its first
    iteration when [maxRounds] allows one, counts it, finds nobody to act
    and breaks: the counter returned is 1 (0 when [maxRounds <= 0]), the
    log is empty, its digest is the one of the empty array, and the
    winner is a draw. *)
Theorem empty_teams (cfg : BattleConfig) :
  let r := simulateBattle hostSort [] [] cfg in
  rounds r = (if 0 <? maxRounds cfg then 1 else 0)
  /\ log r = []
  /\ winner r = DRAW
  /\ logHash r = emptyLogHash.
Proof.
  cbn zeta. unfold simulateBattle. rewrite runBattle_empty.
  cbn [rounds log winner logHash initialSim events teams].
  split; [reflexivity|]. split; [reflexivity|]. split; [reflexivity|].
  apply computeLogHash_nil.
Qed.

Lemma allDead_clone (roster : list Character) :
  allDead (List.map cloneFighter roster)
  = match roster with [] => true | _ :: _ => false end.
Proof. destruct roster; reflexivity. Qed.

Lemma totalHp_clone (roster : list Character) :
  totalHp (List.map cloneFighter roster) = totalMaxHp roster.
Proof.
  unfold totalHp, totalMaxHp. generalize (Num 0).
  induction roster as [|c rest IH]; intros acc; cbn; [reflexivity|].
  apply IH.
Qed.

Lemma sum_positive (l : list number) (acc : number) :
  B64.ltb (Num 0) acc = true ->
  Forall (fun a => B64.ltb (Num 0) a = true) l ->
  B64.ltb (Num 0) (fold_left B64.add l acc) = true.
Proof.
  intros Hacc H. revert acc Hacc.
  induction H as [|a l Ha _ IH]; intros acc Hacc; cbn; [exact Hacc|].
  apply IH. apply add_positive; [now apply ltb_leb | exact Ha].
Qed.

Lemma totalMaxHp_positive (c : Character) (roster : list Character) :
  Forall (fun c => B64.ltb (Num 0) (maxHp c) = true) (c :: roster) ->
  B64.ltb (Num 0) (totalMaxHp (c :: roster)) = true.
Proof.
  intros H. inversion H as [|x l Hx Hl]; subst.
  unfold totalMaxHp. cbn [List.map fold_left].
  apply sum_positive.
  - apply add_positive; [reflexivity | exact Hx].
  - apply List.Forall_map. exact Hl.
Qed.

Lemma resolveWinner_initial (teamA_ teamB_ : list Character) :
  resolveWinner (cloneTeams teamA_ teamB_) = initialWinner teamA_ teamB_.
Proof.
  unfold resolveWinner, cloneTeams. cbn [teamA teamB].
  rewrite !allDead_clone, !totalHp_clone.
  destruct teamA_, teamB_; reflexivity.
Qed.

(** C10 - with [maxRounds <= 0] the simulation returns without entering
    the loop: the counter is 0, the log is empty and the digest is the
    one of the empty array.  The winner is read off the rosters: a side
    without fighters loses to a side that has some, and otherwise the
    summed [maxHp] decide; on rosters whose templates all have
    [maxHp > 0] the winner is decided by comparing the summed [maxHp]
    alone, the larger sum wins and equal sums are a draw.  The sums are
    those of the numbers of the program, added from the left. *)
Theorem nonpositive_rounds (teamA_ teamB_ : list Character)
    (cfg : BattleConfig) :
  maxRounds cfg <= 0 ->
  let r := simulateBattle hostSort teamA_ teamB_ cfg in
  rounds r = 0
  /\ log r = []
  /\ logHash r = emptyLogHash
  /\ winner r = initialWinner teamA_ teamB_
  /\ (Forall (fun c => B64.ltb (Num 0) (maxHp c) = true) teamA_ ->
      Forall (fun c => B64.ltb (Num 0) (maxHp c) = true) teamB_ ->
      winner r = winnerByTotals teamA_ teamB_
      /\ (winner r = DRAW <->
          B64.eqb (totalMaxHp teamA_) (totalMaxHp teamB_) = true)).
Proof.
  intros Hm. cbn zeta. unfold simulateBattle, runBattle.
  replace (Z.to_nat (maxRounds cfg)) with 0%nat by lia.
  cbn [roundLoop initialSim rounds log logHash winner teams events].
  split; [reflexivity|]. split; [reflexivity|].
  split; [apply computeLogHash_nil|].
  rewrite resolveWinner_initial. split; [reflexivity|].
  intros HA HB.
  assert (initialWinner teamA_ teamB_ = winnerByTotals teamA_ teamB_) as E.
  { unfold initialWinner, winnerByTotals.
    destruct teamA_ as [|a ra], teamB_ as [|b rb]; try reflexivity.
    - pose proof (totalMaxHp_positive _ _ HB) as H.
      change (totalMaxHp []) with (Num 0).
      now rewrite (ltb_asym _ _ H), H.
    - pose proof (totalMaxHp_positive _ _ HA) as H.
      change (totalMaxHp []) with (Num 0).
      now rewrite H. }
  split; [exact E|]. rewrite E. unfold winnerByTotals.
  assert (B64.isNaN (totalMaxHp teamA_) = false
          /\ B64.isNaN (totalMaxHp teamB_) = false) as [NA NB].
  { split.
    - destruct teamA_ as [|a ra]; [reflexivity|].
      pose proof (totalMaxHp_positive _ _ HA) as H.
      destruct (B64.isNaN _) eqn:N; [|reflexivity].
      apply isNaN_norm in N. unfold B64.ltb in H. rewrite N in H.
      destruct (B64.norm (Num 0)); discriminate.
    - destruct teamB_ as [|b rb]; [reflexivity|].
      pose proof (totalMaxHp_positive _ _ HB) as H.
      destruct (B64.isNaN _) eqn:N; [|reflexivity].
      apply isNaN_norm in N. unfold B64.ltb in H. rewrite N in H.
      destruct (B64.norm (Num 0)); discriminate. }
  destruct (B64.ltb (totalMaxHp teamB_) (totalMaxHp teamA_)) eqn:E1.
  { split; [discriminate|]. intros He.
    destruct (eqb_not_ltb _ _ He) as [_ H]. congruence. }
  destruct (B64.ltb (totalMaxHp teamA_) (totalMaxHp teamB_)) eqn:E2.
  { split; [discriminate|]. intros He.
    destruct (eqb_not_ltb _ _ He) as [H _]. congruence. }
  split; [intros _; now apply not_ltb_eqb | reflexivity].
Qed.

End EngineFacts.

(** ** The two sorting routines *)

Section ArraySortFacts.
Context {A S : Type}.
Variable pivotFirst : bool.
Variable comparefn : A -> A -> S -> number * S.
Variable key : A -> Q.

Lemma insertSorted_perm (x : A) (prefix : list A) (s : S) :
  Permutation (x :: prefix) (fst (insertSorted pivotFirst comparefn x prefix s)).
Proof.
  revert s. induction prefix as [|y prefix IH]; intros s; cbn [insertSorted].
  - reflexivity.
  - destruct (putsAfter pivotFirst comparefn y x s) as [moves s'].
    destruct moves.
    + specialize (IH s').
      destruct (insertSorted pivotFirst comparefn x prefix s')
        as [placed s''].
      cbn [fst] in *. rewrite perm_swap. now apply perm_skip.
    + reflexivity.
Qed.

Lemma sortLoop_perm (pending prefix : list A) (s : S) :
  Permutation (pending ++ prefix)
    (fst (sortLoop pivotFirst comparefn pending prefix s)).
Proof.
  revert prefix s.
  induction pending as [|x pending IH]; intros prefix s; cbn [sortLoop].
  - apply Permutation_rev.
  - pose proof (insertSorted_perm x prefix s) as Hp.
    destruct (insertSorted pivotFirst comparefn x prefix s) as [prefix' s'].
    cbn [fst] in Hp. rewrite <- IH.
    rewrite <- Hp. apply Permutation_middle.
Qed.

Lemma putsAfter_quiet (y x : A) (s : S) :
  quiet comparefn y x -> quiet comparefn x y ->
  snd (putsAfter pivotFirst comparefn y x s) = s.
Proof.
  intros Hyx Hxy. unfold putsAfter. destruct pivotFirst.
  - specialize (Hxy s). destruct (comparefn x y s). exact Hxy.
  - specialize (Hyx s). destruct (comparefn y x s). exact Hyx.
Qed.

Lemma insertSorted_quiet (x : A) (prefix : list A) (s : S) :
  (forall y, In y prefix -> quiet comparefn y x /\ quiet comparefn x y) ->
  snd (insertSorted pivotFirst comparefn x prefix s) = s.
Proof.
  revert s. induction prefix as [|y prefix IH]; intros s Hq;
    cbn [insertSorted].
  - reflexivity.
  - destruct (Hq y (or_introl eq_refl)) as [Hyx Hxy].
    pose proof (putsAfter_quiet y x s Hyx Hxy) as Hy.
    destruct (putsAfter pivotFirst comparefn y x s) as [moves s'].
    cbn [snd] in Hy. subst s'.
    destruct moves; [|reflexivity].
    specialize (IH s (fun z Hz => Hq z (or_intror Hz))).
    destruct (insertSorted pivotFirst comparefn x prefix s) as [placed s''].
    exact IH.
Qed.

Lemma sortLoop_quiet (pending prefix : list A) (s : S) :
  NoDup (pending ++ prefix) ->
  (forall a b, In a (pending ++ prefix) -> In b (pending ++ prefix) ->
               a <> b -> quiet comparefn a b) ->
  snd (sortLoop pivotFirst comparefn pending prefix s) = s.
Proof.
  revert prefix s.
  induction pending as [|x pending IH]; intros prefix s Hnd Hq;
    cbn [sortLoop].
  - reflexivity.
  - pose proof (insertSorted_perm x prefix s) as Hp.
    assert (snd (insertSorted pivotFirst comparefn x prefix s) = s) as Hs.
    { apply insertSorted_quiet. intros y Hy.
      assert (y <> x) as Hne.
      { intros ->. cbn in Hnd. apply NoDup_cons in Hnd as [Hx _].
        apply Hx. apply list_elem_of_In, in_or_app. now right. }
      split; apply Hq; try (now left);
        try (right; apply in_or_app; now right); congruence. }
    destruct (insertSorted pivotFirst comparefn x prefix s) as [prefix' s'].
    cbn [fst snd] in *. subst s'.
    assert (Permutation ((x :: pending) ++ prefix) (pending ++ prefix'))
      as Hperm.
    { cbn. rewrite <- Hp. apply Permutation_middle. }
    apply IH.
    + rewrite <- Hperm. exact Hnd.
    + intros a b Ha Hb. apply Hq; eapply Permutation_in;
        [symmetry; exact Hperm | exact Ha
        |symmetry; exact Hperm | exact Hb].
Qed.

Lemma ascending_rev (l : list A) : ascending key l -> descending key (rev l).
Proof.
  unfold ascending, descending.
  induction 1 as [|a l Hl IH Ha]; cbn; [constructor|].
  apply StronglySorted_app_2; [|exact IH|repeat constructor].
  intros x1 x2 Hx1 Hx2. apply list_elem_of_In in Hx1, Hx2.
  destruct Hx2 as [<-|[]]. apply in_rev in Hx1.
  rewrite List.Forall_forall in Ha. apply Ha, Hx1.
Qed.

(** With keys that tell the elements apart the order is strict. *)
Lemma descending_strict (l : list A) :
  descending key l -> NoDup l ->
  (forall a b, In a l -> In b l -> (key a == key b)%Q -> a = b) ->
  StronglySorted (fun x y => (key y < key x)%Q) l.
Proof.
  unfold descending.
  induction 1 as [|a l Hl IH Ha]; intros Hnd Hinj; [constructor|].
  apply NoDup_cons in Hnd as [Hnot Hnd].
  constructor.
  - apply IH; [exact Hnd|].
    intros x y Hx Hy. apply Hinj; now right.
  - rewrite List.Forall_forall in Ha. apply List.Forall_forall.
    intros b Hb. specialize (Ha b Hb). cbn in Ha.
    apply Qle_lteq in Ha as [Hlt|Heq]; [exact Hlt|].
    exfalso. apply Hnot. apply list_elem_of_In.
    rewrite (Hinj a b); [exact Hb|now left|now right|now symmetry].
Qed.

(** The comparator follows the key: where the keys differ its sign puts
    the larger key first. *)
Hypothesis comparefn_key : followsKey comparefn key.

(** An element is moved past one whose key is not above its own, and
    stops at one whose key is not below. *)
Lemma putsAfter_key (y x : A) (s : S) :
  if fst (putsAfter pivotFirst comparefn y x s) then (key y <= key x)%Q
  else (key x <= key y)%Q.
Proof.
  unfold putsAfter. destruct pivotFirst.
  - destruct (comparefn_key x y s) as [Hlt Hgt].
    destruct (comparefn x y s) as [order s']. cbn [fst] in *.
    destruct (B64.ltb order (Num 0)) eqn:E.
    + destruct (Qlt_le_dec (key x) (key y)) as [L|L]; [|exact L].
      apply Hlt, ltb_asym in L. congruence.
    + destruct (Qlt_le_dec (key y) (key x)) as [L|L]; [|exact L].
      apply Hgt in L. congruence.
  - destruct (comparefn_key y x s) as [Hlt Hgt].
    destruct (comparefn y x s) as [order s']. cbn [fst] in *.
    destruct (B64.ltb (Num 0) order) eqn:E.
    + destruct (Qlt_le_dec (key x) (key y)) as [L|L]; [|exact L].
      apply Hgt, ltb_asym in L. congruence.
    + destruct (Qlt_le_dec (key y) (key x)) as [L|L]; [|exact L].
      apply Hlt in L. congruence.
Qed.

Lemma insertSorted_sorted (x : A) (prefix : list A) (s : S) :
  ascending key prefix ->
  ascending key (fst (insertSorted pivotFirst comparefn x prefix s)).
Proof.
  unfold ascending.
  revert s. induction prefix as [|y prefix IH]; intros s Hs;
    cbn [insertSorted].
  - repeat constructor.
  - apply StronglySorted_inv in Hs as [Hs Hy].
    pose proof (putsAfter_key y x s) as Hk.
    destruct (putsAfter pivotFirst comparefn y x s) as [moves s'].
    cbn [fst] in Hk. destruct moves.
    + specialize (IH s' Hs).
      pose proof (insertSorted_perm x prefix s') as Hp.
      destruct (insertSorted pivotFirst comparefn x prefix s')
        as [placed s''].
      cbn [fst] in *. constructor; [exact IH|].
      eapply Permutation_Forall; [exact Hp|]. constructor; assumption.
    + cbn [fst]. constructor; [constructor; assumption|].
      constructor; [exact Hk|].
      eapply Forall_impl; [exact Hy|]. cbn. intros z Hz.
      eapply Qle_trans; eauto.
Qed.

Lemma sortLoop_sorted (pending prefix : list A) (s : S) :
  ascending key prefix ->
  descending key (fst (sortLoop pivotFirst comparefn pending prefix s)).
Proof.
  revert prefix s.
  induction pending as [|x pending IH]; intros prefix s Hs; cbn [sortLoop].
  - apply ascending_rev, Hs.
  - pose proof (insertSorted_sorted x prefix s Hs) as Hp.
    destruct (insertSorted pivotFirst comparefn x prefix s) as [prefix' s'].
    apply IH, Hp.
Qed.
End ArraySortFacts.

Lemma arraySort_sorts (pivotFirst : bool) :
  sortsByComparator (fun comparefn l s => arraySort pivotFirst comparefn l s).
Proof.
  unfold sortsByComparator, permutes, arraySort. split; [|split].
  - intros comparefn l s. rewrite <- sortLoop_perm. now rewrite app_nil_r.
  - intros comparefn l s Hnd Hq. apply sortLoop_quiet; now rewrite app_nil_r.
  - intros comparefn key l s Hkey.
    apply sortLoop_sorted; [exact Hkey | constructor].
Qed.

Lemma insertionSort_sorts : sortsByComparator insertionSort.
Proof. exact (arraySort_sorts false). Qed.

Lemma pivotSort_sorts : sortsByComparator pivotSort.
Proof. exact (arraySort_sorts true). Qed.

(** On an array of two elements [pivotSort] calls the comparator once,
    on the second element and the first, and swaps them on a result
    below 0. *)
Lemma pivotSort_pair (comparefn : TurnEntry -> TurnEntry -> DeterministicRng
                                  -> number * DeterministicRng)
    (a b : TurnEntry) (s : DeterministicRng) :
  pivotSort comparefn [a; b] s
  = (if B64.ltb (fst (comparefn b a s)) (Num 0) then [b; a] else [a; b],
     snd (comparefn b a s)).
Proof.
  unfold pivotSort, arraySort. cbn [sortLoop insertSorted putsAfter].
  destruct (comparefn b a s) as [order s']. cbn [fst snd].
  destruct (B64.ltb order (Num 0)); reflexivity.
Qed.

(** ** Turn order *)

Lemma pushLiving_spec (tag : TeamTag) (i : nat)
    (members : list InternalFighter) (acc : list TurnEntry) :
  pushLiving tag i members acc
  = acc ++ List.map (fun p => {| fighter := fst p; team := tag |})
             (List.filter (fun p => alive (snd p))
                (combine (seq i (length members)) members)).
Proof.
  revert i acc. induction members as [|f rest IH]; intros i acc; cbn.
  - now rewrite app_nil_r.
  - rewrite IH. destruct (alive f); cbn; [|reflexivity].
    now rewrite <- app_assoc.
Qed.

Lemma collectFighters_living (ts : BattleTeams) :
  collectFighters ts
  = livingOf TeamA (teamA ts) ++ livingOf TeamB (teamB ts).
Proof.
  unfold collectFighters, livingOf, indexed. now rewrite !pushLiving_spec.
Qed.

Lemma living_entry (tag : TeamTag) (i : nat) (members : list InternalFighter)
    (e : TurnEntry) :
  In e (List.map (fun p => {| fighter := fst p; team := tag |})
          (List.filter (fun p => alive (snd p))
             (combine (seq i (length members)) members))) ->
  team e = tag /\ (i <= fighter e)%nat
  /\ exists f, members !! (fighter e - i)%nat = Some f /\ alive f = true.
Proof.
  intros H. apply in_map_iff in H as ([j f] & <- & H).
  apply filter_In in H as [H Ha]. apply combine_seq_lookup in H as [Hle Hl].
  cbn. split; [reflexivity|]. split; [exact Hle|]. exists f. now split.
Qed.

Lemma living_NoDup (tag : TeamTag) (i : nat) (members : list InternalFighter) :
  NoDup (List.map (fun p => {| fighter := fst p; team := tag |})
           (List.filter (fun p => alive (snd p))
              (combine (seq i (length members)) members))).
Proof.
  revert i. induction members as [|f rest IH]; intros i; cbn.
  - constructor.
  - destruct (alive f); cbn; [|apply IH].
    apply NoDup_cons. split; [|apply IH].
    intros H. apply list_elem_of_In, living_entry in H as (_ & H & _).
    cbn in H. lia.
Qed.

Lemma collectFighters_NoDup (ts : BattleTeams) : NoDup (collectFighters ts).
Proof.
  rewrite collectFighters_living. unfold livingOf, indexed.
  apply NoDup_app. split; [apply living_NoDup|]. split; [|apply living_NoDup].
  intros e HA HB.
  apply list_elem_of_In, living_entry in HA as (HA & _).
  apply list_elem_of_In, living_entry in HB as (HB & _).
  congruence.
Qed.

Lemma collectFighters_alive (ts : BattleTeams) (e : TurnEntry) :
  In e (collectFighters ts) ->
  exists f, deref ts e = Some f /\ alive f = true.
Proof.
  rewrite collectFighters_living. unfold livingOf, indexed, deref.
  intros H. apply in_app_or in H as [H|H];
    apply living_entry in H as (Ht & _ & f & Hf & Ha);
    rewrite Nat.sub_0_r in Hf; rewrite Ht; exists f; now split.
Qed.

Lemma compareTurn_tie (ts : BattleTeams) (a b : TurnEntry)
    (g : DeterministicRng) :
  B64.eqb (speedOf ts a) (speedOf ts b) = true ->
  compareTurn ts a b g
  = (B64.sub (Num (fst (next (advance 1 g)))) (Num (fst (next g))),
     advance 2 g).
Proof.
  intros H. unfold compareTurn. rewrite H. cbn [negb advance].
  destruct (next g) as [rollA g1]. cbn [fst snd].
  destruct (next g1) as [rollB g2]. reflexivity.
Qed.

Lemma compareTurn_distinct (ts : BattleTeams) (a b : TurnEntry)
    (g : DeterministicRng) :
  B64.eqb (speedOf ts a) (speedOf ts b) = false ->
  compareTurn ts a b g = (B64.sub (speedOf ts b) (speedOf ts a), g).
Proof. intros H. unfold compareTurn. rewrite H. reflexivity. Qed.

(** Teams whose speeds are all finite numbers. *)
Lemma speedOf_finite (ts : BattleTeams) (e : TurnEntry) :
  finiteSpeeds (List.map base (teamA ts)) ->
  finiteSpeeds (List.map base (teamB ts)) ->
  B64.isFinite (speedOf ts e) = true.
Proof.
  intros HA HB. unfold speedOf.
  destruct (deref ts e) as [f|] eqn:E; [|reflexivity].
  unfold finiteSpeeds in HA, HB. rewrite List.Forall_map in HA, HB.
  exact (deref_Forall (fun f => B64.isFinite (speed (base f)) = true)
           _ _ _ HA HB E).
Qed.

Lemma compareTurn_follows (ts : BattleTeams) :
  finiteSpeeds (List.map base (teamA ts)) ->
  finiteSpeeds (List.map base (teamB ts)) ->
  followsKey (compareTurn ts) (speedKey ts).
Proof.
  intros HA HB a b g. unfold speedKey.
  pose proof (speedOf_finite ts a HA HB) as Fa.
  pose proof (speedOf_finite ts b HA HB) as Fb.
  pose proof (eqb_finite _ _ Fa Fb) as He.
  split; intros L.
  - rewrite compareTurn_distinct.
    + cbn [fst]. now apply sub_sign.
    + destruct (B64.eqb _ _); [|reflexivity].
      assert (B64.value (speedOf ts a) == B64.value (speedOf ts b))%Q
        by now apply He.
      lra.
  - rewrite compareTurn_distinct.
    + cbn [fst]. now apply sub_sign.
    + destruct (B64.eqb _ _); [|reflexivity].
      assert (B64.value (speedOf ts a) == B64.value (speedOf ts b))%Q
        by now apply He.
      lra.
Qed.

Section TurnOrder.
Variable hostSort : HostSort.
Hypothesis host_sorts : sortsByComparator hostSort.

Lemma sortFighters_quiet (ts : BattleTeams) (g : DeterministicRng) :
  (forall a b, In a (collectFighters ts) -> In b (collectFighters ts) ->
               B64.eqb (speedOf ts a) (speedOf ts b) = true -> a = b) ->
  snd (sortFighters hostSort ts (collectFighters ts) g) = g.
Proof.
  intros Hinj. destruct host_sorts as (_ & Hquiet_ & _).
  apply Hquiet_; [apply collectFighters_NoDup|].
  intros a b Ha Hb Hab g0.
  rewrite compareTurn_distinct; [reflexivity|].
  destruct (B64.eqb _ _) eqn:E; [|reflexivity].
  exfalso. apply Hab. now apply Hinj.
Qed.

Lemma sortFighters_strict (ts : BattleTeams) (g : DeterministicRng) :
  finiteSpeeds (List.map base (teamA ts)) ->
  finiteSpeeds (List.map base (teamB ts)) ->
  (forall a b, In a (collectFighters ts) -> In b (collectFighters ts) ->
               B64.eqb (speedOf ts a) (speedOf ts b) = true -> a = b) ->
  StronglySorted (fun a b => (speedKey ts b < speedKey ts a)%Q)
    (fst (sortFighters hostSort ts (collectFighters ts) g)).
Proof.
  intros HA HB Hinj. destruct host_sorts as (Hperm_ & _ & Hsorted_).
  pose proof (Hperm_ (compareTurn ts) (collectFighters ts) g) as Hperm.
  apply descending_strict.
  - apply Hsorted_. now apply compareTurn_follows.
  - unfold sortFighters. rewrite <- Hperm. apply collectFighters_NoDup.
  - intros a b Ha Hb Hk.
    apply Hinj;
      [eapply Permutation_in; [symmetry; exact Hperm | exact Ha]
      |eapply Permutation_in; [symmetry; exact Hperm | exact Hb]|].
    apply eqb_finite; [now apply speedOf_finite..|exact Hk].
Qed.

(** C7 - each iteration of the round loop that finds a living fighter
    runs the turns over the sorted turn list.  The list holds the living
    fighters, team A's first, then team B's, each team in its order, and
    on finite speeds it is sorted by descending speed.  The comparator
    draws twice on a tie, ordering by the second draw minus the first,
    and does not draw when the speeds differ.  When the speeds of the
    living fighters are pairwise distinct the sort leaves the generator
    untouched and the order is strictly descending.  The sort is the
    host's: any routine that returns a rearrangement, compares no element
    with itself, and orders by a comparator whose sign follows a key. *)
Theorem turn_order (fuel : nat) (m round_ : Z) (st : Sim) :
  let ts := teams st in
  let g := rng st in
  let fighters := collectFighters ts in
  let sorted := fst (sortFighters hostSort ts fighters g) in
  let g' := snd (sortFighters hostSort ts fighters g) in
  let st1 :=
    runTurns (round_ + 1) sorted
      {| teams := ts; rng := g'; events := events st |} in
  (round_ < m ->
   roundLoop hostSort (S fuel) m round_ st
   = if (length fighters =? 0)%nat then (round_ + 1, st)
     else if allDead (teamA (teams st1)) || allDead (teamB (teams st1))
          then (round_ + 1, st1)
          else roundLoop hostSort fuel m (round_ + 1) st1)
  /\ fighters = livingOf TeamA (teamA ts) ++ livingOf TeamB (teamB ts)
  /\ (forall e, In e fighters ->
        exists f, deref ts e = Some f /\ alive f = true)
  /\ (forall a b g0, B64.eqb (speedOf ts a) (speedOf ts b) = true ->
        compareTurn ts a b g0
        = (B64.sub (Num (fst (next (advance 1 g0)))) (Num (fst (next g0))),
           advance 2 g0))
  /\ (forall a b g0, B64.eqb (speedOf ts a) (speedOf ts b) = false ->
        compareTurn ts a b g0
        = (B64.sub (speedOf ts b) (speedOf ts a), g0))
  /\ Permutation fighters sorted
  /\ (finiteSpeeds (List.map base (teamA ts)) ->
      finiteSpeeds (List.map base (teamB ts)) ->
      descending (speedKey ts) sorted)
  /\ ((forall a b, In a fighters -> In b fighters ->
                   B64.eqb (speedOf ts a) (speedOf ts b) = true -> a = b) ->
      g' = g
      /\ (finiteSpeeds (List.map base (teamA ts)) ->
          finiteSpeeds (List.map base (teamB ts)) ->
          StronglySorted (fun a b => (speedKey ts b < speedKey ts a)%Q)
            sorted)).
Proof.
  intros ts g fighters sorted g' st1.
  destruct host_sorts as (Hperm_ & Hquiet_ & Hsorted_).
  split.
  { intros Hlt. cbn [roundLoop].
    rewrite (proj2 (Z.ltb_lt _ _) Hlt). fold ts fighters.
    destruct (length fighters =? 0)%nat; [reflexivity|].
    subst st1 sorted g' g.
    destruct (sortFighters hostSort ts fighters (rng st)) as [order g1].
    reflexivity. }
  split; [apply collectFighters_living|].
  split; [apply collectFighters_alive|].
  split; [intros a b g0; apply compareTurn_tie|].
  split; [intros a b g0; apply compareTurn_distinct|].
  split; [apply Hperm_|].
  split.
  { intros HA HB. apply Hsorted_. now apply compareTurn_follows. }
  intros Hinj. split.
  - now apply sortFighters_quiet.
  - intros HA HB. now apply sortFighters_strict.
Qed.

End TurnOrder.

(** ** Templates, health and the log over a simulation *)

Lemma keeps_refl (f : InternalFighter) : keeps f f.
Proof.
  unfold keeps. split; [reflexivity|]. split; [auto|]. split; [auto|].
  intros H. destruct (leb_notNaN _ _ H) as [_ N].
  split; apply leb_not_ltb; [exact H | now apply leb_refl].
Qed.

Lemma keeps_trans (f g h : InternalFighter) :
  keeps f g -> keeps g h -> keeps f h.
Proof.
  unfold keeps. intros (B1 & A1 & N1 & H1) (B2 & A2 & N2 & H2).
  split; [congruence|]. split; [auto|]. split; [auto|].
  now apply (within_trans (hp f) (hp g) (hp h)).
Qed.

Lemma Forall2_keeps_refl (l : list InternalFighter) : Forall2 keeps l l.
Proof. induction l; constructor; auto using keeps_refl. Qed.

Lemma Forall2_keeps_trans (l k m : list InternalFighter) :
  Forall2 keeps l k -> Forall2 keeps k m -> Forall2 keeps l m.
Proof.
  intros H. revert m. induction H as [|x y l k Hxy _ IH]; intros m Hm.
  - inversion Hm. constructor.
  - inversion Hm as [|y' z k' m' Hyz Hkm]; subst.
    constructor; [eapply keeps_trans; eauto | apply IH, Hkm].
Qed.

Lemma Forall2_keeps_insert (l : list InternalFighter) (i : nat)
    (x y : InternalFighter) :
  l !! i = Some x -> keeps x y -> Forall2 keeps l (<[i := y]> l).
Proof.
  revert i. induction l as [|a l IH]; intros i Hi Hxy; [discriminate|].
  destruct i as [|i]; cbn in *.
  - injection Hi as ->. constructor; [exact Hxy | apply Forall2_keeps_refl].
  - constructor; [apply keeps_refl | apply IH; assumption].
Qed.

Lemma applyDamage_keeps (t : InternalFighter) (d : number) :
  B64.isNaN d = true \/ B64.leb (Num 1) d = true ->
  keeps t (applyDamage t d).
Proof.
  intros Hd. destruct (hurt_within (hp t) d Hd) as [Hn Hw].
  unfold keeps. rewrite applyDamage_hp, applyDamage_base.
  split; [reflexivity|]. split; [|split; assumption].
  unfold applyDamage, clearAlive, assignHp. cbn [alive hp].
  destruct (B64.eqb _ (Num 0)); [discriminate | auto].
Qed.

Lemma teamsKeep_refl (ts : BattleTeams) : teamsKeep ts ts.
Proof. split; apply Forall2_keeps_refl. Qed.

Lemma teamsKeep_trans (ts1 ts2 ts3 : BattleTeams) :
  teamsKeep ts1 ts2 -> teamsKeep ts2 ts3 -> teamsKeep ts1 ts3.
Proof.
  intros [A1 B1] [A2 B2]. split; eapply Forall2_keeps_trans; eauto.
Qed.

(** What a turn that is not skipped does: it finds a living opponent,
    rolls the damage after the draw for the target, writes the opponent
    back and logs one event. *)
Lemma strike_living (round_ : Z) (e : TurnEntry) (fighter_ : InternalFighter)
    (st st' : Sim) :
  allDead (opponentsOf (team e) (teams st)) = false ->
  strike round_ e fighter_ st = Continue st' ->
  exists i t roll,
    opponentsOf (team e) (teams st) !! i = Some t
    /\ alive t = true
    /\ (B64.isNaN (dr_damage roll) = true
        \/ B64.leb (Num 1) (dr_damage roll) = true)
    /\ fst (computeDamage (snd (next (rng st))) fighter_ t) = roll
    /\ teams st'
       = setOpponent (team e) i (applyDamage t (dr_damage roll)) (teams st)
    /\ events st'
       = events st
         ++ [mkEvent round_ (team e) fighter_
               (applyDamage t (dr_damage roll)) (hp t) roll]
    /\ rng st' = advance 4 (rng st).
Proof.
  intros Ed. unfold strike.
  destruct (chooseTarget_living (rng st) _ Ed) as (i & t & Ec).
  rewrite Ec.
  pose proof (computeDamage_at_least_1 (snd (next (rng st))) fighter_ t)
    as Hd.
  pose proof (computeDamage_draws (snd (next (rng st))) fighter_ t) as Hr.
  destruct (computeDamage _ fighter_ t) as [roll g2] eqn:Ecd.
  cbn [fst snd] in *.
  intros H. injection H as <-. exists i, t, roll.
  apply chooseTarget_some in Ec as [Hi Ha]. cbn [teams events rng].
  split; [exact Hi|]. split; [exact Ha|]. split; [exact Hd|].
  split; [now rewrite Ecd|]. split; [reflexivity|]. split; [reflexivity|].
  exact Hr.
Qed.

Lemma takeTurn_cases (round_ : Z) (e : TurnEntry) (st st' : Sim) :
  takeTurn round_ e st = Continue st' ->
  st' = st
  \/ exists fighter_ i t roll,
       deref (teams st) e = Some fighter_
       /\ alive fighter_ = true
       /\ opponentsOf (team e) (teams st) !! i = Some t
       /\ alive t = true
       /\ (B64.isNaN (dr_damage roll) = true
           \/ B64.leb (Num 1) (dr_damage roll) = true)
       /\ fst (computeDamage (snd (next (rng st))) fighter_ t) = roll
       /\ teams st'
          = setOpponent (team e) i (applyDamage t (dr_damage roll)) (teams st)
       /\ events st'
          = events st
            ++ [mkEvent round_ (team e) fighter_
                  (applyDamage t (dr_damage roll)) (hp t) roll]
       /\ rng st' = advance 4 (rng st).
Proof.
  unfold takeTurn.
  destruct (deref _ _) as [f|] eqn:D;
    [|intros H; injection H as <-; now left].
  destruct (alive f) eqn:Ef; cbn [negb];
    [|intros H; injection H as <-; now left].
  destruct (allDead _) eqn:Ed; [discriminate|].
  intros H. apply (strike_living _ _ _ _ _ Ed) in H.
  right. destruct H as (i & t & roll & H). exists f, i, t, roll. tauto.
Qed.

Lemma setOpponent_keeps (tag : TeamTag) (i : nat) (t t' : InternalFighter)
    (ts : BattleTeams) :
  opponentsOf tag ts !! i = Some t -> keeps t t' ->
  teamsKeep ts (setOpponent tag i t' ts).
Proof.
  intros Hi Hk. destruct tag; cbn in *; split; cbn;
    first [apply Forall2_keeps_refl
          |eapply Forall2_keeps_insert; [exact Hi | exact Hk]].
Qed.

Lemma takeTurn_keeps (round_ : Z) (e : TurnEntry) (st st' : Sim) :
  takeTurn round_ e st = Continue st' -> teamsKeep (teams st) (teams st').
Proof.
  intros H. apply takeTurn_cases in H as [->|H]; [apply teamsKeep_refl|].
  destruct H as (f & i & t & roll & _ & _ & Hi & _ & Hd & _ & Ht & _).
  rewrite Ht. eapply setOpponent_keeps; [exact Hi|].
  apply applyDamage_keeps, Hd.
Qed.

Lemma step_keeps (st st' : Sim) :
  step st st' ->
  teamsKeep (teams st) (teams st')
  /\ exists later, events st' = events st ++ later.
Proof.
  intros Hstep. destruct Hstep as [st g | r e st st' H].
  - split; [apply teamsKeep_refl|]. exists []. cbn. now rewrite app_nil_r.
  - split; [eapply takeTurn_keeps; eauto|].
    apply takeTurn_events in H as (later & E & _). eauto.
Qed.

Lemma evolves_keeps (st st' : Sim) :
  evolves st st' ->
  teamsKeep (teams st) (teams st')
  /\ exists later, events st' = events st ++ later.
Proof.
  intros H. induction H as [st|x y z Hxy _ IH].
  - split; [apply teamsKeep_refl|]. exists []. now rewrite app_nil_r.
  - apply step_keeps in Hxy as [K1 (l1 & E1)].
    destruct IH as [K2 (l2 & E2)].
    split; [eapply teamsKeep_trans; eauto|].
    exists (l1 ++ l2). now rewrite E2, E1, app_assoc.
Qed.

Lemma clone_keeps_template (roster : list Character)
    (members : list InternalFighter) :
  Forall2 keeps (List.map cloneFighter roster) members ->
  Forall2 templateOf roster (List.map snapshotFighter members).
Proof.
  revert members. induction roster as [|c roster IH]; intros members H;
    inversion H as [|x y l k Hxy Hlk]; subst; cbn; constructor.
  - destruct Hxy as (Hb & _). unfold templateOf. cbn. now rewrite Hb.
  - apply IH, Hlk.
Qed.

(** ** Accounting for health *)

Lemma exactHealth_insert (l : list InternalFighter) (i : nat)
    (x y : InternalFighter) :
  l !! i = Some x ->
  (exactHealth (List.map snapshotFighter (<[i := y]> l))
   == exactHealth (List.map snapshotFighter l)
      - B64.value (hp x) + B64.value (hp y))%Q.
Proof.
  unfold exactHealth. revert i.
  induction l as [|a l IH]; intros i Hi; [discriminate|].
  destruct i as [|i].
  - cbn in *. injection Hi as ->. ring.
  - change (<[S i := y]> (a :: l)) with (a :: <[i := y]> l).
    change ((a :: l) !! S i) with (l !! i) in Hi.
    cbn [List.map fold_right]. rewrite (IH i Hi). cbn [fs_hp snapshotFighter].
    ring.
Qed.

Lemma healthTaken_app (t : TeamTag) (l1 l2 : list BattleEvent) :
  (healthTaken t (l1 ++ l2) == healthTaken t l1 + healthTaken t l2)%Q.
Proof.
  unfold healthTaken. induction l1 as [|ev l1 IH]; cbn; [ring|].
  rewrite IH. ring.
Qed.

Lemma teamOf_setOpponent_same (t : TeamTag) (i : nat) (f : InternalFighter)
    (ts : BattleTeams) :
  teamOf t (setOpponent t i f ts) = teamOf t ts.
Proof. destruct t; reflexivity. Qed.

Lemma teamOf_setOpponent_other (t t' : TeamTag) (i : nat)
    (f : InternalFighter) (ts : BattleTeams) :
  t' <> t ->
  teamOf t' (setOpponent t i f ts) = <[i := f]> (opponentsOf t ts)
  /\ opponentsOf t ts = teamOf t' ts.
Proof. destruct t, t'; intros H; try congruence; split; reflexivity. Qed.

Lemma takeTurn_account (t : TeamTag) (round_ : Z) (e : TurnEntry)
    (st st' : Sim) :
  takeTurn round_ e st = Continue st' ->
  (exactHealth (List.map snapshotFighter (teamOf t (teams st')))
   + healthTaken t (events st')
   == exactHealth (List.map snapshotFighter (teamOf t (teams st)))
      + healthTaken t (events st))%Q.
Proof.
  intros H. apply takeTurn_cases in H as [->|H]; [reflexivity|].
  destruct H as (f & i & tg & roll & _ & _ & Hi & _ & _ & _ & Ht & He & _).
  rewrite Ht, He, healthTaken_app. unfold healthTaken at 2.
  cbn [List.map fold_right mkEvent actorTeam target hpBefore hpAfter].
  destruct (decide (team e = t)) as [E|E].
  - subst t. rewrite teamOf_setOpponent_same. ring.
  - destruct (teamOf_setOpponent_other (team e) t i
                (applyDamage tg (dr_damage roll)) (teams st)) as [E1 E2];
      [congruence|].
    rewrite E1, (exactHealth_insert _ _ _ _ Hi), <- E2. ring.
Qed.

Lemma evolves_account (t : TeamTag) (st st' : Sim) :
  evolves st st' ->
  (exactHealth (List.map snapshotFighter (teamOf t (teams st')))
   + healthTaken t (events st')
   == exactHealth (List.map snapshotFighter (teamOf t (teams st)))
      + healthTaken t (events st))%Q.
Proof.
  intros H. induction H as [st|x y z Hxy _ IH]; [reflexivity|].
  rewrite IH. destruct Hxy as [x g | r e x y H]; [reflexivity|].
  eapply takeTurn_account; eauto.
Qed.

Lemma exactHealth_clone (roster : list Character) :
  exactHealth (List.map snapshotFighter (List.map cloneFighter roster))
  = exactMaxHp roster.
Proof.
  unfold exactHealth, exactMaxHp. rewrite !List.map_map. reflexivity.
Qed.

(** ** Events and rosters *)

Lemma keeps_roster (roster : list Character) (members : list InternalFighter)
    (i : nat) (f : InternalFighter) :
  Forall2 keeps (List.map cloneFighter roster) members ->
  members !! i = Some f -> In (base f) roster.
Proof.
  revert members i. induction roster as [|c roster IH]; intros members i H Hi;
    inversion H as [|x y l k Hxy Hlk]; subst; [discriminate|].
  destruct i as [|i]; cbn in Hi.
  - injection Hi as ->. destruct Hxy as (Hb & _). left. now rewrite Hb.
  - right. eapply IH; eauto.
Qed.

Lemma teamsKeep_roster (teamA_ teamB_ : list Character) (ts : BattleTeams)
    (t : TeamTag) (i : nat) (f : InternalFighter) :
  teamsKeep (cloneTeams teamA_ teamB_) ts ->
  teamOf t ts !! i = Some f -> In (base f) (rosterOf t teamA_ teamB_).
Proof.
  intros [HA HB] Hi. destruct t; cbn in *; eapply keeps_roster; eauto.
Qed.

Lemma opponentsOf_otherTeam (t : TeamTag) (ts : BattleTeams) :
  opponentsOf t ts = teamOf (otherTeam t) ts.
Proof. destruct t; reflexivity. Qed.

Lemma takeTurn_sound (teamA_ teamB_ : list Character) (round_ : Z)
    (e : TurnEntry) (st st' : Sim) :
  teamsKeep (cloneTeams teamA_ teamB_) (teams st) ->
  Forall (eventSound teamA_ teamB_) (events st) ->
  takeTurn round_ e st = Continue st' ->
  Forall (eventSound teamA_ teamB_) (events st').
Proof.
  intros Hk Hs H. apply takeTurn_cases in H as [->|H]; [exact Hs|].
  destruct H as (f & i & tg & roll & Hf & _ & Hi & _ & _ & _ & _ & He & _).
  rewrite He. apply Forall_app. split; [exact Hs|].
  constructor; [|constructor].
  rewrite opponentsOf_otherTeam in Hi.
  unfold eventSound, mkEvent, describe, namedAfter. cbn.
  split; [reflexivity|]. split.
  { exists (base f). split; [|split; reflexivity].
    eapply teamsKeep_roster; eauto. }
  split; [|reflexivity].
  exists (base tg). split; [|split; reflexivity].
  eapply teamsKeep_roster; eauto.
Qed.

Lemma evolves_sound (teamA_ teamB_ : list Character) (seed_ : jsstring)
    (st : Sim) :
  evolves (initialSim teamA_ teamB_ seed_) st ->
  Forall (eventSound teamA_ teamB_) (events st).
Proof.
  revert st. apply rtc_ind_r; [constructor|].
  intros y z Hy Hyz IH.
  destruct Hyz as [y g | r e y z H]; [exact IH|].
  apply evolves_keeps in Hy as [Hk _].
  eapply takeTurn_sound; eauto.
Qed.

(** Where every [maxHp] is at most 2^53 a hit takes health. *)
Lemma takeTurn_vital (teamA_ teamB_ : list Character) (round_ : Z)
    (e : TurnEntry) (st st' : Sim) :
  Forall (fun c => (B64.value (maxHp c) <= B64.pow2 53)%Q) teamA_ ->
  Forall (fun c => (B64.value (maxHp c) <= B64.pow2 53)%Q) teamB_ ->
  teamsKeep (cloneTeams teamA_ teamB_) (teams st) ->
  tameTeams (teams st) ->
  simOk st ->
  Forall eventVital (events st) ->
  takeTurn round_ e st = Continue st' ->
  Forall eventVital (events st').
Proof.
  intros WA WB Hk [TA TB] (HA & HB & _) Hs H.
  apply takeTurn_cases in H as [->|H]; [exact Hs|].
  destruct H as (f & i & tg & roll & Hf & Haf & Hi & Hat & _ & Hr & _ & He & _).
  rewrite He. apply Forall_app. split; [exact Hs|].
  constructor; [|constructor].
  pose proof (deref_Forall _ _ _ _ HA HB Hf) as Hokf.
  pose proof (opponent_Forall _ _ _ _ _ HA HB Hi) as Hokt.
  pose proof (deref_Forall (fun f => tame (base f)) _ _ _ TA TB Hf) as Tf.
  pose proof (opponent_Forall (fun f => tame (base f)) _ _ _ _ TA TB Hi)
    as Tt.
  cbn beta in Tf, Tt.
  pose proof (computeDamage_tame (snd (next (rng st))) f tg Tf Tt) as Hd.
  rewrite Hr in Hd. cbn zeta in Hd. destruct Hd as ([Fd Wd] & D1 & Dk).
  assert (B64.value (maxHp (base tg)) <= B64.pow2 53)%Q as Hw.
  { rewrite opponentsOf_otherTeam in Hi.
    pose proof (teamsKeep_roster _ _ _ _ _ _ Hk Hi) as Hin.
    destruct (otherTeam (team e)); cbn [rosterOf] in Hin;
      [rewrite List.Forall_forall in WA; exact (WA _ Hin)
      |rewrite List.Forall_forall in WB; exact (WB _ Hin)]. }
  destruct Hokf as (_ & _ & _ & Hf1).
  destruct Hokt as (Ft & T0 & Tm & Ht1).
  apply Hf1 in Haf. apply Ht1 in Hat.
  assert (B64.value (hp tg) <= B64.pow2 53)%Q as H53 by lra.
  destruct (hurt_exact (hp tg) (dr_damage roll) Ft T0 H53 Fd Wd D1 Dk)
    as [Fh Vh].
  unfold eventVital, mkEvent.
  cbn [actor target hpBefore hpAfter]. rewrite applyDamage_hp.
  split; [exact Haf|]. split; [exact Hat|].
  rewrite Vh. unfold floorAtZero.
  destruct (Qle_bool 0 (B64.value (hp tg) - B64.value (dr_damage roll)))
    eqn:E.
  - apply Qle_bool_iff in E. split; lra.
  - split; lra.
Qed.

Lemma evolves_vital (teamA_ teamB_ : list Character) (seed_ : jsstring)
    (st : Sim) :
  Forall tame teamA_ -> Forall tame teamB_ ->
  Forall (fun c => (B64.value (maxHp c) <= B64.pow2 53)%Q) teamA_ ->
  Forall (fun c => (B64.value (maxHp c) <= B64.pow2 53)%Q) teamB_ ->
  evolves (initialSim teamA_ teamB_ seed_) st ->
  Forall eventVital (events st).
Proof.
  intros HA HB WA WB. revert st. apply rtc_ind_r; [constructor|].
  intros y z Hy Hyz IH.
  destruct Hyz as [y g | r e y z H]; [exact IH|].
  destruct (evolves_ok _ _ (initialSim_ok teamA_ teamB_ seed_ HA HB) Hy)
    as [Ht Hok].
  apply evolves_keeps in Hy as [Hk _].
  exact (takeTurn_vital teamA_ teamB_ r e y z WA WB Hk Ht Hok IH H).
Qed.

(** ** Survivors and the end of the battle *)

Lemma alive_not_allDead (members : list InternalFighter) (i : nat)
    (f : InternalFighter) :
  members !! i = Some f -> alive f = true -> allDead members = false.
Proof.
  intros Hi Ha. destruct (allDead members) eqn:E; [|reflexivity].
  rewrite (allDead_lookup _ _ _ E Hi) in Ha. discriminate.
Qed.

Lemma takeTurn_survivor (round_ : Z) (e : TurnEntry) (st st' : Sim) :
  takeTurn round_ e st = Continue st' ->
  allDead (teamA (teams st)) && allDead (teamB (teams st)) = false ->
  allDead (teamA (teams st')) && allDead (teamB (teams st')) = false.
Proof.
  intros H Hs. apply takeTurn_cases in H as [->|H]; [exact Hs|].
  destruct H as (f & i & tg & roll & Hf & Haf & _ & _ & _ & _ & Ht & _).
  assert (allDead (teamOf (team e) (teams st')) = false) as Hl.
  { rewrite Ht, teamOf_setOpponent_same.
    eapply alive_not_allDead; [exact Hf | exact Haf]. }
  destruct (team e); cbn [teamOf] in Hl; rewrite Hl;
    [reflexivity | apply andb_false_r].
Qed.

Lemma evolves_survivor (st st' : Sim) :
  evolves st st' ->
  allDead (teamA (teams st)) && allDead (teamB (teams st)) = false ->
  allDead (teamA (teams st')) && allDead (teamB (teams st')) = false.
Proof.
  intros H. induction H as [st|x y z Hxy _ IH]; [auto|].
  intros Hs. apply IH. destruct Hxy as [x g | r e x y H]; [exact Hs|].
  eapply takeTurn_survivor; eauto.
Qed.

Lemma initialSim_survivor (teamA_ teamB_ : list Character)
    (seed_ : jsstring) :
  teamA_ <> [] \/ teamB_ <> [] ->
  allDead (teamA (teams (initialSim teamA_ teamB_ seed_)))
  && allDead (teamB (teams (initialSim teamA_ teamB_ seed_))) = false.
Proof.
  intros H. cbn [initialSim teams cloneTeams teamA teamB].
  rewrite !allDead_clone.
  destruct teamA_, teamB_; try reflexivity. destruct H; congruence.
Qed.

Lemma collectFighters_nil (ts : BattleTeams) :
  collectFighters ts = [] ->
  allDead (teamA ts) = true /\ allDead (teamB ts) = true.
Proof.
  rewrite collectFighters_living. unfold livingOf.
  intros H. apply app_eq_nil in H as [HA HB].
  apply map_eq_nil in HA, HB.
  split.
  - destruct (allDead (teamA ts)) eqn:E; [reflexivity|].
    now apply living_some in E.
  - destruct (allDead (teamB ts)) eqn:E; [reflexivity|].
    now apply living_some in E.
Qed.

Section BattleEnd.
Variable hostSort : HostSort.

(** The loop leaves before its limit only with a team wiped out. *)
Lemma roundLoop_early (fuel : nat) (m round_ : Z) (st : Sim) :
  (Z.to_nat (m - round_) <= fuel)%nat ->
  fst (roundLoop hostSort fuel m round_ st) < m ->
  let st' := snd (roundLoop hostSort fuel m round_ st) in
  allDead (teamA (teams st')) || allDead (teamB (teams st')) = true.
Proof.
  revert round_ st. induction fuel as [|fuel IH]; intros round_ st Hf Hr;
    cbn zeta.
  { cbn in *. lia. }
  cbn [roundLoop] in *.
  destruct (round_ <? m) eqn:E; [|apply Z.ltb_ge in E; cbn in *; lia].
  apply Z.ltb_lt in E.
  destruct (length (collectFighters (teams st)) =? 0)%nat eqn:En.
  { cbn [snd]. apply Nat.eqb_eq in En.
    destruct (collectFighters (teams st)) eqn:Ec; [|discriminate].
    apply collectFighters_nil in Ec as [-> _]. reflexivity. }
  destruct (sortFighters hostSort _ _ _) as [order g1].
  destruct (allDead _ || allDead _) eqn:Ed; [exact Ed|].
  apply IH; [lia | exact Hr].
Qed.

(** Against a team that has no living fighter nobody attacks. *)
Lemma runTurns_dead (t : TeamTag) (round_ : Z) (fighters : list TurnEntry)
    (st : Sim) :
  allDead (teamOf t (teams st)) = true -> runTurns round_ fighters st = st.
Proof.
  intros Hd. induction fighters as [|e rest IH]; [reflexivity|].
  cbn. destruct (takeTurn round_ e st) as [st'|st'] eqn:E.
  - apply (takeTurn_dead t) in E; [subst; exact IH | exact Hd].
  - now apply takeTurn_break in E.
Qed.

End BattleEnd.

(** ** The choice of the target *)



(** ** Counting events and draws *)

Lemma advance_add (m n : nat) (g : DeterministicRng) :
  advance (m + n) g = advance n (advance m g).
Proof.
  revert g. induction m as [|m IH]; intros g; [reflexivity|].
  cbn. apply IH.
Qed.

Lemma takeTurn_count (round_ : Z) (e : TurnEntry) (st st' : Sim) :
  takeTurn round_ e st = Continue st' ->
  exists later,
    events st' = events st ++ later
    /\ (length later <= 1)%nat
    /\ Forall (fun ev => round ev = round_) later
    /\ rng st' = advance (4 * length later) (rng st).
Proof.
  intros H. apply takeTurn_cases in H as [->|H].
  - exists []. rewrite app_nil_r. repeat split; auto.
  - destruct H as (f & i & tg & roll & _ & _ & _ & _ & _ & _ & _ & He & Hr).
    eexists. split; [exact He|]. split; [reflexivity|].
    split; [repeat constructor | exact Hr].
Qed.

Lemma runTurns_count (round_ : Z) (fighters : list TurnEntry) (st : Sim) :
  exists later,
    events (runTurns round_ fighters st) = events st ++ later
    /\ (length later <= length fighters)%nat
    /\ Forall (fun ev => round ev = round_) later
    /\ rng (runTurns round_ fighters st)
       = advance (4 * length later) (rng st).
Proof.
  revert st. induction fighters as [|e rest IH]; intros st; cbn [runTurns].
  - exists []. rewrite app_nil_r. repeat split; auto.
  - destruct (takeTurn round_ e st) as [st'|st'] eqn:E.
    + apply takeTurn_count in E as (l1 & E1 & L1 & F1 & R1).
      destruct (IH st') as (l2 & E2 & L2 & F2 & R2).
      exists (l1 ++ l2). rewrite E2, E1, app_assoc, length_app.
      split; [reflexivity|]. split; [cbn; lia|].
      split; [apply Forall_app; split; assumption|].
      rewrite R2, R1.
      replace (4 * (length l1 + length l2))%nat
        with (4 * length l1 + 4 * length l2)%nat by lia.
      now rewrite advance_add.
    + apply takeTurn_break in E. subst.
      exists []. rewrite app_nil_r. repeat split; auto. cbn. lia.
Qed.

Lemma livingOf_length (tag : TeamTag) (members : list InternalFighter) :
  (length (livingOf tag members) <= length members)%nat.
Proof.
  unfold livingOf, indexed. rewrite length_map.
  etransitivity; [apply filter_length_le|].
  rewrite length_combine, length_seq. lia.
Qed.

Lemma collectFighters_length (ts : BattleTeams) :
  (length (collectFighters ts)
   <= length (teamA ts) + length (teamB ts))%nat.
Proof.
  rewrite collectFighters_living, length_app.
  pose proof (livingOf_length TeamA (teamA ts)).
  pose proof (livingOf_length TeamB (teamB ts)). lia.
Qed.

Lemma teamsKeep_length (ts ts' : BattleTeams) :
  teamsKeep ts ts' ->
  length (teamA ts') = length (teamA ts)
  /\ length (teamB ts') = length (teamB ts).
Proof.
  intros [HA HB]. apply Forall2_length in HA, HB. auto.
Qed.

Lemma keeps_lookup (roster : list Character) (members : list InternalFighter)
    (i : nat) (f : InternalFighter) :
  Forall2 keeps (List.map cloneFighter roster) members ->
  members !! i = Some f -> roster !! i = Some (base f).
Proof.
  revert members i. induction roster as [|c roster IH]; intros members i H Hi;
    inversion H as [|x y l k Hxy Hlk]; subst; [discriminate|].
  destruct i as [|i]; cbn in Hi |- *.
  - injection Hi as ->. destruct Hxy as (Hb & _). now rewrite Hb.
  - eapply IH; eauto.
Qed.

Lemma deref_roster (teamA_ teamB_ : list Character) (ts : BattleTeams)
    (e : TurnEntry) (f : InternalFighter) :
  teamsKeep (cloneTeams teamA_ teamB_) ts ->
  deref ts e = Some f ->
  rosterOf (team e) teamA_ teamB_ !! fighter e = Some (base f).
Proof.
  intros [HA HB] D. unfold deref in D.
  destruct (team e); cbn in *; eapply keeps_lookup; eauto.
Qed.

Lemma distinct_entries (teamA_ teamB_ : list Character) (ts : BattleTeams)
    (a b : TurnEntry) :
  distinctSpeeds teamA_ teamB_ ->
  teamsKeep (cloneTeams teamA_ teamB_) ts ->
  In a (collectFighters ts) -> In b (collectFighters ts) ->
  B64.eqb (speedOf ts a) (speedOf ts b) = true -> a = b.
Proof.
  intros Hds Hk Ha Hb.
  apply collectFighters_alive in Ha as (fa & Da & _).
  apply collectFighters_alive in Hb as (fb & Db & _).
  unfold speedOf. rewrite Da, Db. intros E.
  destruct (Hds _ _ _ _ _ _ (deref_roster _ _ _ _ _ Hk Da)
              (deref_roster _ _ _ _ _ Hk Db) E) as [Et Ei].
  destruct a, b; cbn in *; congruence.
Qed.

Lemma strike_continues (round_ : Z) (e : TurnEntry)
    (fighter_ : InternalFighter) (st : Sim) :
  exists st', strike round_ e fighter_ st = Continue st'.
Proof.
  unfold strike.
  destruct (chooseTarget _ _) as [[[i tg]|] g2]; [|eauto].
  destruct (computeDamage _ _ _). eauto.
Qed.

(** The first fighter of the turn list attacks if an opponent lives. *)
Lemma runTurns_first (round_ : Z) (e : TurnEntry) (rest : list TurnEntry)
    (st : Sim) (f : InternalFighter) :
  deref (teams st) e = Some f -> alive f = true ->
  if allDead (opponentsOf (team e) (teams st))
  then runTurns round_ (e :: rest) st = st
  else exists ev more,
         events (runTurns round_ (e :: rest) st) = events st ++ ev :: more.
Proof.
  intros D A. cbn [runTurns]. unfold takeTurn. rewrite D, A. cbn [negb].
  destruct (allDead _) eqn:Eo; [reflexivity|].
  destruct (strike_continues round_ e f st) as (st1 & Es). rewrite Es.
  apply (strike_living _ _ _ _ _ Eo) in Es
    as (i & tg & roll & _ & _ & _ & _ & _ & He & _).
  destruct (runTurns_count round_ rest st1) as (l2 & E2 & _).
  eexists _, l2. rewrite E2, He, <- app_assoc. reflexivity.
Qed.

Section Counting.
Variable hostSort : HostSort.
Hypothesis host_permutes : permutes hostSort.

Lemma sortFighters_length (ts : BattleTeams) (fighters : list TurnEntry)
    (g : DeterministicRng) :
  length (fst (sortFighters hostSort ts fighters g)) = length fighters.
Proof.
  unfold sortFighters. symmetry. apply Permutation_length, host_permutes.
Qed.

Lemma roundLoop_length (fuel : nat) (m round_ : Z) (st : Sim) :
  let r := fst (roundLoop hostSort fuel m round_ st) in
  let st' := snd (roundLoop hostSort fuel m round_ st) in
  exists later,
    events st' = events st ++ later
    /\ Z.of_nat (length later)
       <= (r - round_)
          * Z.of_nat (length (teamA (teams st)) + length (teamB (teams st))).
Proof.
  revert round_ st. induction fuel as [|fuel IH]; intros round_ st; cbn zeta.
  { exists []. cbn. rewrite app_nil_r. split; [reflexivity | lia]. }
  cbn [roundLoop].
  destruct (round_ <? m);
    [|exists []; cbn; rewrite app_nil_r; split; [reflexivity | lia]].
  destruct (length (collectFighters (teams st)) =? 0)%nat;
    [exists []; cbn; rewrite app_nil_r; split; [reflexivity | lia]|].
  pose proof (sortFighters_length (teams st) (collectFighters (teams st))
                (rng st)) as Hlen.
  pose proof (collectFighters_length (teams st)) as Hcl.
  destruct (sortFighters hostSort _ _ _) as [order g1]. cbn [fst] in Hlen.
  set (st0 := {| teams := teams st; rng := g1; events := events st |}).
  destruct (runTurns_count (round_ + 1) order st0) as (l1 & E1 & L1 & _).
  change (events st0) with (events st) in E1.
  pose proof (evolves_keeps _ _ (runTurns_evolves (round_ + 1) order st0))
    as [Hk _].
  apply teamsKeep_length in Hk as [KA KB].
  change (teams st0) with (teams st) in KA, KB.
  destruct (allDead _ || allDead _).
  { exists l1. cbn [fst snd]. split; [exact E1 | lia]. }
  specialize (IH (round_ + 1) (runTurns (round_ + 1) order st0)).
  cbn zeta in IH. destruct IH as (l2 & E2 & L2).
  pose proof (roundLoop_rounds hostSort fuel m (round_ + 1)
                (runTurns (round_ + 1) order st0)) as Hr.
  cbn zeta in Hr. destruct Hr as (Hr & _).
  set (res := roundLoop hostSort fuel m (round_ + 1)
                (runTurns (round_ + 1) order st0)) in *.
  exists (l1 ++ l2). rewrite E2, E1, app_assoc, length_app.
  split; [reflexivity|]. rewrite KA, KB in L2. nia.
Qed.

Lemma roundLoop_gapfree (fuel : nat) (m round_ : Z) (st : Sim) :
  let r := fst (roundLoop hostSort fuel m round_ st) in
  let st' := snd (roundLoop hostSort fuel m round_ st) in
  exists later,
    events st' = events st ++ later
    /\ forall k, round_ < k < r -> exists ev, In ev later /\ round ev = k.
Proof.
  revert round_ st. induction fuel as [|fuel IH]; intros round_ st; cbn zeta.
  { exists []. cbn. rewrite app_nil_r. split; [reflexivity | lia]. }
  cbn [roundLoop].
  destruct (round_ <? m);
    [|exists []; cbn; rewrite app_nil_r; split; [reflexivity | lia]].
  destruct (length (collectFighters (teams st)) =? 0)%nat eqn:En;
    [exists []; cbn; rewrite app_nil_r; split; [reflexivity | lia]|].
  pose proof (host_permutes (compareTurn (teams st))
                (collectFighters (teams st)) (rng st)) as Hperm.
  unfold sortFighters.
  destruct (hostSort _ _ _) as [order g1]. cbn [fst] in Hperm.
  set (st0 := {| teams := teams st; rng := g1; events := events st |}).
  destruct (runTurns_count (round_ + 1) order st0) as (l1 & E1 & _ & F1 & _).
  change (events st0) with (events st) in E1.
  destruct (allDead _ || allDead _) eqn:Ed.
  { exists l1. cbn [fst snd]. split; [exact E1 | lia]. }
  assert (l1 <> []) as Hl1.
  { destruct order as [|e rest].
    { apply Permutation_nil_r in Hperm. rewrite Hperm in En. discriminate. }
    assert (In e (collectFighters (teams st))) as Hin.
    { eapply Permutation_in; [symmetry; exact Hperm | now left]. }
    apply collectFighters_alive in Hin as (f & Df & Af).
    pose proof (runTurns_first (round_ + 1) e rest st0 f Df Af) as Hfirst.
    change (teams st0) with (teams st) in Hfirst.
    destruct (allDead (opponentsOf (team e) (teams st))) eqn:Eo.
    - rewrite Hfirst in Ed. change (teams st0) with (teams st) in Ed.
      destruct (team e); cbn [opponentsOf] in Eo; rewrite Eo in Ed;
        [now rewrite orb_true_r in Ed | discriminate].
    - destruct Hfirst as (ev & more & Hev). intros ->.
      rewrite app_nil_r in E1. rewrite E1 in Hev.
      change (events st0) with (events st) in Hev.
      apply (f_equal (@length _)) in Hev.
      rewrite length_app in Hev. cbn in Hev. lia. }
  specialize (IH (round_ + 1) (runTurns (round_ + 1) order st0)).
  cbn zeta in IH. destruct IH as (l2 & E2 & G2).
  set (res := roundLoop hostSort fuel m (round_ + 1)
                (runTurns (round_ + 1) order st0)) in *.
  exists (l1 ++ l2). rewrite E2, E1, app_assoc.
  split; [reflexivity|]. intros k Hk.
  destruct (Z.eq_dec k (round_ + 1)) as [->|Hne].
  - destruct l1 as [|ev l1]; [congruence|].
    exists ev. split; [now left|].
    now apply Forall_inv in F1.
  - destruct (G2 k) as (ev & Hin & Hev); [lia|].
    exists ev. split; [apply in_or_app; now right | exact Hev].
Qed.

End Counting.

Section Drawing.
Variable hostSort : HostSort.
Hypothesis host_apart : comparesApart hostSort.

Lemma roundLoop_draws (teamA_ teamB_ : list Character) (fuel : nat)
    (m round_ : Z) (st : Sim) :
  distinctSpeeds teamA_ teamB_ ->
  teamsKeep (cloneTeams teamA_ teamB_) (teams st) ->
  let st' := snd (roundLoop hostSort fuel m round_ st) in
  exists later,
    events st' = events st ++ later
    /\ rng st' = advance (4 * length later) (rng st).
Proof.
  intros Hds. revert round_ st.
  induction fuel as [|fuel IH]; intros round_ st Hk; cbn zeta.
  { exists []. cbn. now rewrite app_nil_r. }
  cbn [roundLoop].
  destruct (round_ <? m); [|exists []; cbn; now rewrite app_nil_r].
  destruct (length (collectFighters (teams st)) =? 0)%nat;
    [exists []; cbn; now rewrite app_nil_r|].
  assert (snd (sortFighters hostSort (teams st) (collectFighters (teams st))
                 (rng st)) = rng st) as Hg.
  { apply host_apart; [apply collectFighters_NoDup|].
    intros a b Ha Hb Hab g0.
    rewrite compareTurn_distinct; [reflexivity|].
    destruct (B64.eqb _ _) eqn:E; [|reflexivity].
    exfalso. apply Hab. eapply distinct_entries; eauto. }
  destruct (sortFighters hostSort _ _ _) as [order g1]. cbn [snd] in Hg.
  subst g1.
  set (st0 := {| teams := teams st; rng := rng st; events := events st |}).
  destruct (runTurns_count (round_ + 1) order st0) as (l1 & E1 & _ & _ & R1).
  change (events st0) with (events st) in E1.
  change (rng st0) with (rng st) in R1.
  destruct (allDead _ || allDead _).
  { exists l1. cbn [snd]. split; assumption. }
  pose proof (evolves_keeps _ _ (runTurns_evolves (round_ + 1) order st0))
    as [Hk1 _].
  change (teams st0) with (teams st) in Hk1.
  destruct (IH (round_ + 1) (runTurns (round_ + 1) order st0)
              (teamsKeep_trans _ _ _ Hk Hk1)) as (l2 & E2 & R2).
  exists (l1 ++ l2). rewrite E2, E1, app_assoc, length_app.
  split; [reflexivity|]. rewrite R2, R1.
  replace (4 * (length l1 + length l2))%nat
    with (4 * length l1 + 4 * length l2)%nat by lia.
  now rewrite advance_add.
Qed.

End Drawing.

(** ** Two hosts *)

Lemma keeps_bases (roster : list Character) (members : list InternalFighter) :
  Forall2 keeps (List.map cloneFighter roster) members ->
  List.map base members = roster.
Proof.
  revert members. induction roster as [|c roster IH]; intros members H;
    inversion H as [|x y l k Hxy Hlk]; subst; [reflexivity|].
  cbn [List.map]. destruct Hxy as (Hb & _). rewrite Hb. cbn [cloneFighter base].
  f_equal. apply IH, Hlk.
Qed.

Section TwoHosts.
Variables nodeSort otherSort : HostSort.


Hypothesis node_sorts : sortsByComparator nodeSort.
Hypothesis other_sorts : sortsByComparator otherSort.

(** On finite speeds that tell the living fighters apart there is one
    turn order, and no draw: the two routines return the same. *)
Lemma sortFighters_hosts (ts : BattleTeams) (g : DeterministicRng) :
  finiteSpeeds (List.map base (teamA ts)) ->
  finiteSpeeds (List.map base (teamB ts)) ->
  (forall a b, In a (collectFighters ts) -> In b (collectFighters ts) ->
               B64.eqb (speedOf ts a) (speedOf ts b) = true -> a = b) ->
  sortFighters nodeSort ts (collectFighters ts) g
  = sortFighters otherSort ts (collectFighters ts) g.
Proof.
  intros HA HB Hinj.
  pose proof (sortFighters_quiet nodeSort node_sorts ts g Hinj) as Q1.
  pose proof (sortFighters_quiet otherSort other_sorts ts g Hinj) as Q2.
  pose proof (sortFighters_strict nodeSort node_sorts ts g HA HB Hinj) as S1.
  pose proof (sortFighters_strict otherSort other_sorts ts g HA HB Hinj)
    as S2.
  destruct node_sorts as (P1 & _). destruct other_sorts as (P2 & _).
  pose proof (P1 (compareTurn ts) (collectFighters ts) g) as Hp1.
  pose proof (P2 (compareTurn ts) (collectFighters ts) g) as Hp2.
  unfold sortFighters in *.
  destruct (nodeSort _ _ _) as [l1 g1].
  destruct (otherSort _ _ _) as [l2 g2].
  cbn [fst snd] in *. subst g1 g2. f_equal.
  eapply StronglySorted_unique_strong; [|exact S1|exact S2|].
  - intros x1 x2 _ _ L1 L2. cbn beta in L1, L2. lra.
  - now rewrite <- Hp1, <- Hp2.
Qed.

Lemma roundLoop_hosts (teamA_ teamB_ : list Character) (fuel : nat)
    (m round_ : Z) (st : Sim) :
  finiteSpeeds teamA_ -> finiteSpeeds teamB_ ->
  distinctSpeeds teamA_ teamB_ ->
  teamsKeep (cloneTeams teamA_ teamB_) (teams st) ->
  roundLoop nodeSort fuel m round_ st = roundLoop otherSort fuel m round_ st.
Proof.
  intros FA FB Hds. revert round_ st.
  induction fuel as [|fuel IH]; intros round_ st Hk; [reflexivity|].
  cbn [roundLoop]. destruct (round_ <? m); [|reflexivity].
  destruct (length _ =? 0)%nat; [reflexivity|].
  rewrite sortFighters_hosts.
  - destruct (sortFighters otherSort _ _ _) as [order g1].
    set (st0 := {| teams := teams st; rng := g1; events := events st |}).
    pose proof (evolves_keeps _ _ (runTurns_evolves (round_ + 1) order st0))
      as [Hk1 _].
    change (teams st0) with (teams st) in Hk1.
    match goal with
    | |- context [if ?c then _ else _] => destruct c
    end; [reflexivity|].
    apply IH. eapply teamsKeep_trans; eauto.
  - destruct Hk as [HA _]. cbn [cloneTeams teamA] in HA.
    now rewrite (keeps_bases _ _ HA).
  - destruct Hk as [_ HB]. cbn [cloneTeams teamB] in HB.
    now rewrite (keeps_bases _ _ HB).
  - intros a b. now apply (distinct_entries teamA_ teamB_).
Qed.

Lemma simulateBattle_hosts (teamA_ teamB_ : list Character)
    (cfg : BattleConfig) :
  finiteSpeeds teamA_ -> finiteSpeeds teamB_ ->
  distinctSpeeds teamA_ teamB_ ->
  simulateBattle nodeSort teamA_ teamB_ cfg
  = simulateBattle otherSort teamA_ teamB_ cfg.
Proof.
  intros FA FB Hds. unfold simulateBattle, runBattle.
  rewrite (roundLoop_hosts teamA_ teamB_); auto using teamsKeep_refl.
Qed.

End TwoHosts.


(** ** Determinism *)


(** ** Sums of health *)

Lemma sum_number (l : list number) (acc : number) :
  B64.leb (Num 0) acc = true ->
  Forall (fun a => B64.leb (Num 0) a = true) l ->
  B64.leb (Num 0) (fold_left B64.add l acc) = true.
Proof.
  intros Hacc H. revert acc Hacc.
  induction H as [|a l Ha _ IH]; intros acc Hacc; cbn; [exact Hacc|].
  apply IH. now apply add_nonneg.
Qed.

(** The health of a team within its bounds adds up to a number. *)
Lemma totalHp_number (members : list InternalFighter) :
  Forall fighterOk members -> B64.isNaN (totalHp members) = false.
Proof.
  intros H.
  assert (B64.leb (Num 0) (totalHp members) = true) as L.
  { unfold totalHp.
    assert (forall acc,
      fold_left (fun sum f => B64.add sum (hp f)) members acc
      = fold_left B64.add (List.map hp members) acc) as E.
    { induction members as [|f rest IH]; intros acc; cbn; [reflexivity|].
      inversion H; subst. now apply IH. }
    rewrite E. apply sum_number; [reflexivity|].
    apply List.Forall_map. eapply Forall_impl; [exact H|].
    intros f (F & H0 & _). cbn beta. now apply leb_finite. }
  now destruct (leb_notNaN _ _ L).
Qed.

(** ** Further properties of the engine *)



(** X2 - the final state lists one snapshot per template, in the order of
    the rosters, with the id, the name and the [maxHp] of its template:
    no fighter is added, dropped, moved or renamed by a battle. *)
Theorem final_snapshots_follow_rosters (hostSort : HostSort)
    (teamA_ teamB_ : list Character) (cfg : BattleConfig) :
  let r := simulateBattle hostSort teamA_ teamB_ cfg in
  Forall2 templateOf teamA_ (fin_teamA (finalState r))
  /\ Forall2 templateOf teamB_ (fin_teamB (finalState r)).
Proof.
  cbn zeta. rewrite simulateBattle_finalState. cbn.
  destruct (evolves_keeps _ _ (runBattle_evolves hostSort teamA_ teamB_ cfg))
    as [[HA HB] _].
  split; apply clone_keeps_template; assumption.
Qed.

(** X3 - from any state, the rounds that follow change no template,
    bring no dead fighter back, take no health that was not negative
    below 0 or above what it was, and only append to the log.  Health
    that is not a number stays so. *)
Theorem no_healing (hostSort : HostSort) (fuel : nat) (m round_ : Z)
    (st : Sim) :
  let st' := snd (roundLoop hostSort fuel m round_ st) in
  teamsKeep (teams st) (teams st')
  /\ exists later, events st' = events st ++ later.
Proof.
  cbn zeta. apply evolves_keeps, roundLoop_evolves.
Qed.

(** X4 - the log accounts for all the health lost: for each team, the
    health left in the final snapshots is the summed [maxHp] of its roster
    minus the drops [hpBefore - hpAfter] of the targets over the events of
    the other team.  The sums are the exact ones of the values of the
    numbers, where a number that is not finite counts as 0. *)
Theorem health_accounting (hostSort : HostSort)
    (teamA_ teamB_ : list Character) (cfg : BattleConfig) :
  let r := simulateBattle hostSort teamA_ teamB_ cfg in
  (exactHealth (fin_teamA (finalState r))
   == exactMaxHp teamA_ - healthTaken TeamA (log r))%Q
  /\ (exactHealth (fin_teamB (finalState r))
      == exactMaxHp teamB_ - healthTaken TeamB (log r))%Q.
Proof.
  cbn zeta. rewrite simulateBattle_finalState, simulateBattle_log.
  cbn zeta. cbn [fin_teamA fin_teamB].
  pose proof (runBattle_evolves hostSort teamA_ teamB_ cfg) as H.
  pose proof (evolves_account TeamA _ _ H) as HA.
  pose proof (evolves_account TeamB _ _ H) as HB.
  cbn [initialSim teams events teamOf cloneTeams teamA teamB] in HA, HB.
  rewrite exactHealth_clone in HA, HB.
  change (healthTaken TeamA []) with 0%Q in HA.
  change (healthTaken TeamB []) with 0%Q in HB.
  split; lra.
Qed.

(** X5 - every event of the log is about the two rosters: the actor
    carries the id and the name of a template of the roster of
    [actorTeam] and the same health before and after, the target those
    of a template of the other roster, and the description is the
    sentence made of the two names, the team letter, the damage and the
    critical flag of the event. *)
Theorem log_sound (hostSort : HostSort) (teamA_ teamB_ : list Character)
    (cfg : BattleConfig) :
  Forall (eventSound teamA_ teamB_)
    (log (simulateBattle hostSort teamA_ teamB_ cfg)).
Proof.
  rewrite simulateBattle_log.
  eapply evolves_sound, runBattle_evolves.
Qed.

(** X6 - on rosters whose templates have a finite [maxHp] above 0 and
    at most 2^53, and attack, defense and skill multiplier of magnitude
    at most 2^300: in every event of the log the actor has health left,
    the target had health left before the hit, and the hit lowered it:
    the dead neither act nor are chosen, and no attack is without
    effect. *)
Theorem log_vital (hostSort : HostSort) (teamA_ teamB_ : list Character)
    (cfg : BattleConfig) :
  Forall tame teamA_ -> Forall tame teamB_ ->
  Forall (fun c => (B64.value (maxHp c) <= B64.pow2 53)%Q) teamA_ ->
  Forall (fun c => (B64.value (maxHp c) <= B64.pow2 53)%Q) teamB_ ->
  Forall eventVital (log (simulateBattle hostSort teamA_ teamB_ cfg)).
Proof.
  intros HA HB WA WB. rewrite simulateBattle_log.
  eapply evolves_vital; [exact HA | exact HB | exact WA | exact WB|].
  apply runBattle_evolves.
Qed.

Lemma runBattle_early (hostSort : HostSort) (teamA_ teamB_ : list Character)
    (cfg : BattleConfig) :
  fst (runBattle hostSort teamA_ teamB_ cfg) < maxRounds cfg ->
  let st := snd (runBattle hostSort teamA_ teamB_ cfg) in
  allDead (teamA (teams st)) || allDead (teamB (teams st)) = true.
Proof.
  unfold runBattle. apply roundLoop_early. rewrite Z.sub_0_r. lia.
Qed.

Lemma simulateBattle_rounds (hostSort : HostSort)
    (teamA_ teamB_ : list Character) (cfg : BattleConfig) :
  rounds (simulateBattle hostSort teamA_ teamB_ cfg)
  = fst (runBattle hostSort teamA_ teamB_ cfg).
Proof.
  unfold simulateBattle. destruct (runBattle hostSort _ _ _). reflexivity.
Qed.

Lemma simulateBattle_winner (hostSort : HostSort)
    (teamA_ teamB_ : list Character) (cfg : BattleConfig) :
  winner (simulateBattle hostSort teamA_ teamB_ cfg)
  = resolveWinner (teams (snd (runBattle hostSort teamA_ teamB_ cfg))).
Proof.
  unfold simulateBattle. destruct (runBattle hostSort _ _ _). reflexivity.
Qed.

(** X7 - when at least one roster has a fighter and the battle stops
    before [maxRounds], exactly one team is fully dead in the final
    snapshots and the other team is the winner. *)
Theorem early_stop_has_winner (hostSort : HostSort)
    (teamA_ teamB_ : list Character) (cfg : BattleConfig) :
  teamA_ <> [] \/ teamB_ <> [] ->
  let r := simulateBattle hostSort teamA_ teamB_ cfg in
  rounds r < maxRounds cfg ->
  (fullyDead (fin_teamA (finalState r)) = true
   /\ fullyDead (fin_teamB (finalState r)) = false
   /\ winner r = WinnerB)
  \/ (fullyDead (fin_teamA (finalState r)) = false
      /\ fullyDead (fin_teamB (finalState r)) = true
      /\ winner r = WinnerA).
Proof.
  intros Hne r Hr. subst r.
  rewrite simulateBattle_rounds in Hr.
  rewrite simulateBattle_finalState, simulateBattle_winner.
  cbn zeta. cbn [fin_teamA fin_teamB]. rewrite !fullyDead_snapshot.
  pose proof (runBattle_early hostSort teamA_ teamB_ cfg Hr) as Hd.
  pose proof (evolves_survivor _ _
                (runBattle_evolves hostSort teamA_ teamB_ cfg)
                (initialSim_survivor teamA_ teamB_ (seed cfg) Hne)) as Hs.
  cbn zeta in Hd. unfold resolveWinner.
  destruct (allDead (teamA _)), (allDead (teamB _)); cbn in *;
    try discriminate; [left | right]; auto.
Qed.

(** X8 - when at least one roster has a fighter, the two teams are never
    both fully dead, at no state of the simulation; and a draw is reported
    only when the round limit was reached with a living fighter on each
    side and neither sum of remaining health above the other.  Between
    rosters whose templates have a finite [maxHp] above 0 and attack,
    defense and skill multiplier of magnitude at most 2^300 the two sums
    are then equal. *)
Theorem draw_needs_the_limit (hostSort : HostSort)
    (teamA_ teamB_ : list Character) (cfg : BattleConfig) :
  teamA_ <> [] \/ teamB_ <> [] ->
  let r := simulateBattle hostSort teamA_ teamB_ cfg in
  let hpA := remainingHealth (fin_teamA (finalState r)) in
  let hpB := remainingHealth (fin_teamB (finalState r)) in
  (forall st, evolves (initialSim teamA_ teamB_ (seed cfg)) st ->
     allDead (teamA (teams st)) && allDead (teamB (teams st)) = false)
  /\ (winner r = DRAW ->
      maxRounds cfg <= rounds r
      /\ fullyDead (fin_teamA (finalState r)) = false
      /\ fullyDead (fin_teamB (finalState r)) = false
      /\ B64.ltb hpA hpB = false
      /\ B64.ltb hpB hpA = false
      /\ (Forall tame teamA_ -> Forall tame teamB_ ->
          B64.eqb hpA hpB = true)).
Proof.
  intros Hne r.
  assert (forall st, evolves (initialSim teamA_ teamB_ (seed cfg)) st ->
     allDead (teamA (teams st)) && allDead (teamB (teams st)) = false)
    as Hall.
  { intros st H. eapply evolves_survivor; [exact H|].
    apply initialSim_survivor, Hne. }
  cbn zeta. split; [exact Hall|]. subst r.
  rewrite simulateBattle_rounds, simulateBattle_finalState,
    simulateBattle_winner.
  cbn zeta. cbn [fin_teamA fin_teamB].
  rewrite !fullyDead_snapshot, !remainingHealth_snapshot.
  pose proof (runBattle_evolves hostSort teamA_ teamB_ cfg) as Hrun.
  pose proof (Hall _ Hrun) as Hs.
  set (st := snd (runBattle hostSort teamA_ teamB_ cfg)) in *.
  intros Hw.
  assert (allDead (teamA (teams st)) = false
          /\ allDead (teamB (teams st)) = false
          /\ B64.ltb (totalHp (teamA (teams st))) (totalHp (teamB (teams st)))
             = false
          /\ B64.ltb (totalHp (teamB (teams st))) (totalHp (teamA (teams st)))
             = false) as (HA & HB & L1 & L2).
  { unfold resolveWinner in Hw.
    destruct (allDead (teamA _)), (allDead (teamB _)); cbn in *;
      try discriminate.
    destruct (B64.ltb (totalHp (teamB (teams st))) _) eqn:E1;
      [discriminate|].
    destruct (B64.ltb (totalHp (teamA (teams st))) _) eqn:E2;
      [discriminate|].
    auto. }
  split.
  { destruct (Z_lt_le_dec (fst (runBattle hostSort teamA_ teamB_ cfg))
                (maxRounds cfg)) as [Hlt|Hle]; [|exact Hle].
    pose proof (runBattle_early hostSort teamA_ teamB_ cfg Hlt) as Hd.
    cbn zeta in Hd. fold st in Hd. rewrite HA, HB in Hd. discriminate. }
  split; [exact HA|]. split; [exact HB|].
  split; [exact L1|]. split; [exact L2|].
  intros TA TB.
  destruct (evolves_ok _ _ (initialSim_ok teamA_ teamB_ (seed cfg) TA TB)
              Hrun) as [_ (OA & OB & _)].
  fold st in OA, OB.
  apply not_ltb_eqb; try assumption; apply totalHp_number; assumption.
Qed.

Lemma collectFighters_some (ts : BattleTeams) :
  allDead (teamA ts) && allDead (teamB ts) = false ->
  (length (collectFighters ts) =? 0)%nat = false.
Proof.
  intros H. apply Nat.eqb_neq. intros E.
  destruct (collectFighters ts) eqn:Ec; [|discriminate].
  apply collectFighters_nil in Ec as [HA HB]. rewrite HA, HB in H.
  discriminate.
Qed.

Lemma runBattle_empty_side (hostSort : HostSort) (t : TeamTag)
    (teamA_ teamB_ : list Character) (cfg : BattleConfig) :
  rosterOf t teamA_ teamB_ = [] ->
  rosterOf (otherTeam t) teamA_ teamB_ <> [] ->
  0 < maxRounds cfg ->
  exists g,
    runBattle hostSort teamA_ teamB_ cfg
    = (1, {| teams := cloneTeams teamA_ teamB_; rng := g; events := [] |}).
Proof.
  intros He Hne Hm. unfold runBattle.
  destruct (Z.to_nat (maxRounds cfg)) as [|fuel] eqn:E; [lia|].
  cbn [roundLoop]. rewrite (proj2 (Z.ltb_lt _ _) Hm).
  cbn [initialSim teams rng events].
  assert (allDead (teamOf t (cloneTeams teamA_ teamB_)) = true) as Hd.
  { destruct t; cbn in *; rewrite allDead_clone, He; reflexivity. }
  rewrite collectFighters_some.
  2:{ cbn [cloneTeams teamA teamB]. rewrite !allDead_clone.
      destruct t; cbn in *; subst;
        [destruct teamB_ | destruct teamA_]; try congruence;
        auto using andb_false_r. }
  destruct (sortFighters hostSort _ _ _) as [order g1].
  rewrite (runTurns_dead t) by exact Hd. cbn [teams].
  exists g1.
  destruct t; cbn [teamOf] in Hd; rewrite Hd;
    [reflexivity | now rewrite orb_true_r].
Qed.

(** X9 - a roster without fighters loses at once: with [maxRounds >= 1],
    against a roster that has a fighter, the battle takes one round, logs
    nothing, and the side that has fighters wins, whatever the seed. *)
Theorem empty_side_loses (hostSort : HostSort) (roster : list Character)
    (cfg : BattleConfig) :
  roster <> [] ->
  0 < maxRounds cfg ->
  let onlyB := simulateBattle hostSort [] roster cfg in
  let onlyA := simulateBattle hostSort roster [] cfg in
  (rounds onlyB = 1 /\ log onlyB = [] /\ winner onlyB = WinnerB
   /\ logHash onlyB = emptyLogHash)
  /\ (rounds onlyA = 1 /\ log onlyA = [] /\ winner onlyA = WinnerA
      /\ logHash onlyA = emptyLogHash).
Proof.
  intros Hne Hm. cbn zeta.
  destruct (runBattle_empty_side hostSort TeamA [] roster cfg eq_refl Hne Hm)
    as (gB & EB).
  destruct (runBattle_empty_side hostSort TeamB roster [] cfg eq_refl Hne Hm)
    as (gA & EA).
  unfold simulateBattle. rewrite EB, EA.
  cbn [rounds log winner logHash teams events].
  rewrite !resolveWinner_initial, computeLogHash_nil.
  destruct roster; [congruence|]. repeat split.
Qed.

(** X10 - with a host sort that returns a rearrangement of its array,
    a round logs at most one event per fighter: the log has at most
    [rounds] times the number of templates events. *)
Theorem log_length_bound (hostSort : HostSort)
    (teamA_ teamB_ : list Character) (cfg : BattleConfig) :
  permutes hostSort ->
  let r := simulateBattle hostSort teamA_ teamB_ cfg in
  Z.of_nat (length (log r))
  <= rounds r * Z.of_nat (length teamA_ + length teamB_).
Proof.
  intros Hs r. subst r.
  rewrite simulateBattle_log, simulateBattle_rounds. unfold runBattle.
  destruct (roundLoop_length hostSort Hs (Z.to_nat (maxRounds cfg))
              (maxRounds cfg) 0 (initialSim teamA_ teamB_ (seed cfg)))
    as (later & E & L).
  rewrite E. cbn [initialSim events teams cloneTeams teamA teamB] in *.
  rewrite !length_map, Z.sub_0_r in L. exact L.
Qed.

(** X11 - with a host sort that changes the generator through comparator
    calls only and compares no element with itself, and rosters in which
    no two fighters have the same speed, the generator is drawn from by
    attacks only, four times each (the target, then skill, crit and
    variance): when the battle ends it stands at four times the number
    of logged events. *)
Theorem four_draws_per_event (hostSort : HostSort)
    (teamA_ teamB_ : list Character) (cfg : BattleConfig) :
  comparesApart hostSort ->
  distinctSpeeds teamA_ teamB_ ->
  rng (snd (runBattle hostSort teamA_ teamB_ cfg))
  = advance (4 * length (log (simulateBattle hostSort teamA_ teamB_ cfg)))
      (createDeterministicRng (seed cfg)).
Proof.
  intros Hs Hd. rewrite simulateBattle_log. unfold runBattle.
  destruct (roundLoop_draws hostSort Hs teamA_ teamB_
              (Z.to_nat (maxRounds cfg)) (maxRounds cfg) 0
              (initialSim teamA_ teamB_ (seed cfg)) Hd
              (teamsKeep_refl _)) as (later & E & R).
  rewrite R, E. reflexivity.
Qed.

Lemma defaultTeams_distinctSpeeds :
  distinctSpeeds (fst createDefaultTeams) (snd createDefaultTeams).
Proof.
  intros t t' i j c c' Hi Hj E.
  destruct t, t'; destruct i as [|[|i]]; destruct j as [|[|j]];
    cbn in Hi, Hj; try discriminate;
    injection Hi as <-; injection Hj as <-;
    try (split; reflexivity); try (vm_compute in E; discriminate E).
Qed.

(** ** Rounds that log *)

Section EveryRound.
Variable hostSort : HostSort.
Hypothesis host_permutes : permutes hostSort.

(** Entered with a living fighter on each side, every round logs: the
    first in the turn order is alive and finds a target. *)
Lemma roundLoop_eventful (fuel : nat) (m round_ : Z) (st : Sim) :
  allDead (teamA (teams st)) || allDead (teamB (teams st)) = false ->
  let r := fst (roundLoop hostSort fuel m round_ st) in
  let st' := snd (roundLoop hostSort fuel m round_ st) in
  exists later,
    events st' = events st ++ later
    /\ forall k, round_ < k <= r -> exists ev, In ev later /\ round ev = k.
Proof.
  revert round_ st. induction fuel as [|fuel IH]; intros round_ st Hliv;
    cbn zeta.
  { exists []. cbn. rewrite app_nil_r. split; [reflexivity | lia]. }
  cbn [roundLoop].
  destruct (round_ <? m);
    [|exists []; cbn; rewrite app_nil_r; split; [reflexivity | lia]].
  destruct (length (collectFighters (teams st)) =? 0)%nat eqn:En.
  { apply Nat.eqb_eq in En.
    destruct (collectFighters (teams st)) eqn:Ec; [|discriminate].
    apply collectFighters_nil in Ec as [HA _].
    rewrite HA in Hliv. discriminate. }
  pose proof (host_permutes (compareTurn (teams st))
                (collectFighters (teams st)) (rng st)) as Hperm.
  unfold sortFighters.
  destruct (hostSort _ _ _) as [order g1]. cbn [fst] in Hperm.
  set (st0 := {| teams := teams st; rng := g1; events := events st |}).
  destruct (runTurns_count (round_ + 1) order st0) as (l1 & E1 & _ & F1 & _).
  change (events st0) with (events st) in E1.
  assert (l1 <> []) as Hl1.
  { destruct order as [|e rest].
    { apply Permutation_nil_r in Hperm. rewrite Hperm in En. discriminate. }
    assert (In e (collectFighters (teams st))) as Hin.
    { eapply Permutation_in; [symmetry; exact Hperm | now left]. }
    apply collectFighters_alive in Hin as (f & Df & Af).
    pose proof (runTurns_first (round_ + 1) e rest st0 f Df Af) as Hfirst.
    change (teams st0) with (teams st) in Hfirst.
    apply orb_false_elim in Hliv as [HA HB].
    assert (allDead (opponentsOf (team e) (teams st)) = false) as Eo
        by (destruct (team e); assumption).
    rewrite Eo in Hfirst. destruct Hfirst as (ev & more & Hev). intros ->.
    rewrite app_nil_r in E1. rewrite E1 in Hev.
    change (events st0) with (events st) in Hev.
    apply (f_equal (@length _)) in Hev.
    rewrite length_app in Hev. cbn in Hev. lia. }
  assert (exists ev, In ev l1 /\ round ev = round_ + 1) as Hnow.
  { destruct l1 as [|ev l1]; [congruence|].
    exists ev. split; [now left | now apply Forall_inv in F1]. }
  match goal with
  | |- context [if ?c then _ else _] => destruct c eqn:Ed
  end.
  { exists l1. cbn [fst snd]. split; [exact E1|].
    intros k Hk. replace k with (round_ + 1) by lia. exact Hnow. }
  specialize (IH (round_ + 1) (runTurns (round_ + 1) order st0) Ed).
  cbn zeta in IH. destruct IH as (l2 & E2 & G2).
  set (res := roundLoop hostSort fuel m (round_ + 1)
                (runTurns (round_ + 1) order st0)) in *.
  exists (l1 ++ l2). rewrite E2, E1, app_assoc.
  split; [reflexivity|]. intros k Hk.
  destruct (Z.eq_dec k (round_ + 1)) as [->|Hne].
  - destruct Hnow as (ev & Hin & Hev).
    exists ev. split; [apply in_or_app; now left | exact Hev].
  - destruct (G2 k) as (ev & Hin & Hev); [lia|].
    exists ev. split; [apply in_or_app; now right | exact Hev].
Qed.

End EveryRound.

(** X12 - with a host sort that returns a rearrangement of its array, every round
    before the last one logs an event, and between two rosters that both
    have a fighter the last round does too: the round numbers of the log
    run through 1, 2, ... up to [rounds]. *)
Theorem rounds_without_gaps (hostSort : HostSort)
    (teamA_ teamB_ : list Character) (cfg : BattleConfig) :
  permutes hostSort ->
  let r := simulateBattle hostSort teamA_ teamB_ cfg in
  (forall k, 1 <= k < rounds r -> exists ev, In ev (log r) /\ round ev = k)
  /\ (teamA_ <> [] -> teamB_ <> [] ->
      forall k, 1 <= k <= rounds r ->
        exists ev, In ev (log r) /\ round ev = k).
Proof.
  intros Hs r. subst r.
  rewrite simulateBattle_log, simulateBattle_rounds. unfold runBattle.
  split.
  - intros k Hk.
    destruct (roundLoop_gapfree hostSort Hs (Z.to_nat (maxRounds cfg))
                (maxRounds cfg) 0 (initialSim teamA_ teamB_ (seed cfg)))
      as (later & E & G).
    rewrite E. cbn [initialSim events app]. apply G. lia.
  - intros HA HB k Hk.
    destruct (roundLoop_eventful hostSort Hs (Z.to_nat (maxRounds cfg))
                (maxRounds cfg) 0 (initialSim teamA_ teamB_ (seed cfg)))
      as (later & E & G).
    { cbn [initialSim teams cloneTeams teamA teamB].
      rewrite !allDead_clone.
      destruct teamA_, teamB_; try congruence; reflexivity. }
    rewrite E. cbn [initialSim events app]. apply G. lia.
Qed.

(** ** The generator as a counter *)

Lemma roundWhole_exact (z : Z) : z < 2 ^ 53 -> roundWhole z = z.
Proof.
  intros H. unfold roundWhole. now rewrite (proj2 (Z.ltb_lt _ _) H).
Qed.

Lemma wrap32_wrap32 (x : Z) : wrap32 (wrap32 x) = wrap32 x.
Proof. unfold wrap32. apply Z.mod_mod. discriminate. Qed.

Lemma mulberry32_mix_wrap (t : Z) :
  mulberry32_mix (wrap32 t) = mulberry32_mix t.
Proof.
  unfold mulberry32_mix, xor32, ushr32, or32. now rewrite !wrap32_wrap32.
Qed.

Lemma mulberry32_call_mix (a : Z) :
  mulberry32_call a
  = (mulberry32_mix (roundWhole (a + 1831565813)),
     roundWhole (a + 1831565813)).
Proof. reflexivity. Qed.

Lemma advance_counter (k : nat) (g : DeterministicRng) :
  rng_a g + Z.of_nat k * 1831565813 < 2 ^ 53 ->
  rng_a (advance k g) = rng_a g + Z.of_nat k * 1831565813.
Proof.
  revert g. induction k as [|k IH]; intros g H; [cbn; lia|].
  cbn [advance]. rewrite IH.
  - unfold next. rewrite mulberry32_call_mix. cbn [snd rng_a].
    rewrite roundWhole_exact by lia. lia.
  - unfold next. rewrite mulberry32_call_mix. cbn [snd rng_a].
    rewrite roundWhole_exact by lia. lia.
Qed.

Lemma createDeterministicRng_range (seed_ : jsstring) :
  0 <= rng_a (createDeterministicRng seed_) < 4294967296.
Proof.
  unfold createDeterministicRng, xmur3_call. cbn [fst rng_a].
  apply wrap32_range.
Qed.

(** X13 - the state of the generator is a plain counter: after [k] draws
    it is the seed state plus [k] times 0x6D2B79F5, not reduced, and the
    next draw is the mixing of that sum taken modulo 2^32.  This holds for
    the first four million draws of every seed, while the sum is below
    2^53. *)
Theorem stream_position (seed_ : jsstring) (k : nat) :
  Z.of_nat k <= 4000000 ->
  let g0 := createDeterministicRng seed_ in
  rng_a (advance k g0) = rng_a g0 + Z.of_nat k * 1831565813
  /\ fst (next (advance k g0))
     = (mulberry32_mix
          (wrap32 (rng_a g0 + (Z.of_nat k + 1) * 1831565813))
        # 4294967296)%Q.
Proof.
  intros Hk g0. pose proof (createDeterministicRng_range seed_) as Hr.
  fold g0 in Hr.
  assert (rng_a (advance k g0) = rng_a g0 + Z.of_nat k * 1831565813) as Ha.
  { apply advance_counter. change (2 ^ 53) with 9007199254740992. lia. }
  split; [exact Ha|].
  unfold next. rewrite mulberry32_call_mix. cbn [fst].
  rewrite Ha, roundWhole_exact
    by (change (2 ^ 53) with 9007199254740992; lia).
  rewrite mulberry32_mix_wrap. f_equal. f_equal. lia.
Qed.

Lemma stream_position_witness :
  Z.of_nat 7 <= 4000000
  /\ rng_a (advance 7 (createDeterministicRng (seed demoConfig)))
     = rng_a (createDeterministicRng (seed demoConfig))
       + Z.of_nat 7 * 1831565813.
Proof.
  assert (Z.of_nat 7 <= 4000000) as H by (cbn; lia).
  split; [exact H|].
  exact (proj1 (stream_position (seed demoConfig) 7 H)).
Defined.

(** ** xmur3 is injective step by step *)

Lemma wrap32_testbit (x n : Z) :
  Z.testbit (wrap32 x) n = ((n <? 32) && Z.testbit x n)%bool.
Proof.
  unfold wrap32. change 4294967296 with (2 ^ 32).
  apply Z.testbit_mod_pow2. lia.
Qed.

Lemma wrap32_bits (x y : Z) :
  (forall n, 0 <= n < 32 -> Z.testbit (wrap32 x) n = Z.testbit (wrap32 y) n) ->
  wrap32 x = wrap32 y.
Proof.
  intros H. apply Z.bits_inj'. intros n Hn.
  destruct (Z.ltb_spec n 32) as [Hlt|Hge]; [apply H; lia|].
  rewrite !wrap32_testbit.
  now rewrite (proj2 (Z.ltb_ge n 32) Hge).
Qed.

Lemma xor32_cancel_l (h c1 c2 : Z) :
  wrap32 (xor32 h c1) = wrap32 (xor32 h c2) -> wrap32 c1 = wrap32 c2.
Proof.
  intros H. apply wrap32_bits. intros n Hn.
  apply (f_equal (fun z => Z.testbit z n)) in H.
  rewrite !wrap32_testbit in H. unfold xor32 in H.
  rewrite !Z.lxor_spec in H.
  rewrite (proj2 (Z.ltb_lt n 32)) in H by lia. cbn [andb] in H.
  destruct (Z.testbit (wrap32 h) n), (Z.testbit (wrap32 c1) n),
    (Z.testbit (wrap32 c2) n); cbn in H; congruence.
Qed.

Lemma xor32_cancel_r (h1 h2 c : Z) :
  wrap32 (xor32 h1 c) = wrap32 (xor32 h2 c) -> wrap32 h1 = wrap32 h2.
Proof.
  intros H. apply wrap32_bits. intros n Hn.
  apply (f_equal (fun z => Z.testbit z n)) in H.
  rewrite !wrap32_testbit in H. unfold xor32 in H.
  rewrite !Z.lxor_spec in H.
  rewrite (proj2 (Z.ltb_lt n 32)) in H by lia. cbn [andb] in H.
  destruct (Z.testbit (wrap32 h1) n), (Z.testbit (wrap32 h2) n),
    (Z.testbit (wrap32 c) n); cbn in H; congruence.
Qed.

(** Multiplication by a unit of the 32-bit residues is injective. *)
Lemma imul_cancel (k k' x y : Z) :
  wrap32 (k * k') = 1 ->
  wrap32 (imul x k) = wrap32 (imul y k) -> wrap32 x = wrap32 y.
Proof.
  unfold imul, wrap32. intros Hk H.
  rewrite !Z.mod_mod in H by discriminate.
  rewrite <- !Z.mul_mod in H by discriminate.
  assert (forall z, (z * k * k') mod 4294967296 = z mod 4294967296) as Hinv.
  { intros z. rewrite <- Z.mul_assoc, <- Z.mul_mod_idemp_r, Hk by discriminate.
    now rewrite Z.mul_1_r. }
  rewrite <- (Hinv x), <- (Hinv y).
  rewrite <- (Z.mul_mod_idemp_l (x * k)), <- (Z.mul_mod_idemp_l (y * k))
    by discriminate.
  now rewrite H.
Qed.

(** [(h << 13) | (h >>> 19)] moves bit [n] of [h] to bit [n + 13] modulo 32. *)
Lemma rotate_testbit (h n : Z) :
  0 <= n < 32 ->
  Z.testbit (wrap32 (or32 (shl32 h 13) (ushr32 h 19))) n
  = if n <? 13 then Z.testbit (wrap32 h) (n + 19)
    else Z.testbit (wrap32 h) (n - 13).
Proof.
  intros Hn. unfold or32, shl32, ushr32.
  rewrite wrap32_testbit, Z.lor_spec, !wrap32_testbit.
  rewrite Z.shiftl_spec, Z.shiftr_spec by lia.
  rewrite (proj2 (Z.ltb_lt n 32)) by lia. cbn [andb].
  rewrite !wrap32_testbit.
  destruct (Z.ltb_spec n 13) as [Hlt|Hge].
  - rewrite (Z.testbit_neg_r _ (n - 13)) by lia.
    now rewrite andb_false_r.
  - rewrite (proj2 (Z.ltb_ge (n + 19) 32)) by lia. cbn [andb].
    now rewrite orb_false_r.
Qed.

Lemma rotate_cancel (h1 h2 : Z) :
  wrap32 (or32 (shl32 h1 13) (ushr32 h1 19))
  = wrap32 (or32 (shl32 h2 13) (ushr32 h2 19)) ->
  wrap32 h1 = wrap32 h2.
Proof.
  intros H. apply wrap32_bits. intros n Hn.
  destruct (Z.ltb_spec n 19) as [Hlt|Hge].
  - apply (f_equal (fun z => Z.testbit z (n + 13))) in H.
    rewrite !rotate_testbit in H by lia.
    rewrite (proj2 (Z.ltb_ge (n + 13) 13)) in H by lia.
    now replace (n + 13 - 13) with n in H by lia.
  - apply (f_equal (fun z => Z.testbit z (n - 19))) in H.
    rewrite !rotate_testbit in H by lia.
    rewrite (proj2 (Z.ltb_lt (n - 19) 13)) in H by lia.
    now replace (n - 19 + 19) with n in H by lia.
Qed.

(** [h ^ (h >>> s)] is undone from the top bit downwards. *)
Lemma xorshift_cancel (s h1 h2 : Z) :
  0 < s ->
  wrap32 (xor32 h1 (ushr32 h1 s)) = wrap32 (xor32 h2 (ushr32 h2 s)) ->
  wrap32 h1 = wrap32 h2.
Proof.
  intros Hs H.
  assert (forall k : nat, forall n, 32 - Z.of_nat k <= n -> 0 <= n ->
            Z.testbit (wrap32 h1) n = Z.testbit (wrap32 h2) n) as Hbits.
  { induction k as [|k IH]; intros n Hk Hn.
    - rewrite !wrap32_testbit.
      now rewrite (proj2 (Z.ltb_ge n 32)) by lia.
    - destruct (Z.ltb_spec n 32) as [Hlt|Hge].
      + pose proof (IH (n + s) ltac:(lia) ltac:(lia)) as Hup.
        apply (f_equal (fun z => Z.testbit z n)) in H.
        rewrite !wrap32_testbit in H. unfold xor32, ushr32 in H.
        rewrite !Z.lxor_spec in H.
        rewrite !(wrap32_testbit (Z.shiftr _ _)) in H.
        rewrite !Z.shiftr_spec in H by lia.
        rewrite (proj2 (Z.ltb_lt n 32)) in H by lia. cbn [andb] in H.
        rewrite Hup in H.
        destruct (Z.testbit (wrap32 h1) n), (Z.testbit (wrap32 h2) n),
          (Z.testbit (wrap32 h2) (n + s)); cbn in H; congruence.
      + rewrite !wrap32_testbit.
        now rewrite (proj2 (Z.ltb_ge n 32)) by lia. }
  apply wrap32_bits. intros n Hn. apply (Hbits 32%nat); lia.
Qed.

Lemma xmur3_absorb_cancel_unit (h c1 c2 : Z) :
  wrap32 (xmur3_absorb h c1) = wrap32 (xmur3_absorb h c2) ->
  wrap32 c1 = wrap32 c2.
Proof.
  unfold xmur3_absorb. intros H.
  apply rotate_cancel in H.
  apply (imul_cancel 3432918353 3739302833) in H;
    [|reflexivity].
  now apply xor32_cancel_l in H.
Qed.

Lemma xmur3_absorb_cancel (h1 h2 c : Z) :
  wrap32 (xmur3_absorb h1 c) = wrap32 (xmur3_absorb h2 c) ->
  wrap32 h1 = wrap32 h2.
Proof.
  unfold xmur3_absorb. intros H.
  apply rotate_cancel in H.
  apply (imul_cancel 3432918353 3739302833) in H;
    [|reflexivity].
  now apply xor32_cancel_r in H.
Qed.

Lemma fold_absorb_cancel (s : jsstring) (h1 h2 : Z) :
  wrap32 (fold_left xmur3_absorb s h1) = wrap32 (fold_left xmur3_absorb s h2) ->
  wrap32 h1 = wrap32 h2.
Proof.
  revert h1 h2. induction s as [|c s IH]; intros h1 h2 H; [exact H|].
  cbn [fold_left] in H. apply IH in H. now apply xmur3_absorb_cancel in H.
Qed.

Lemma xmur3_call_cancel (h1 h2 : Z) :
  fst (xmur3_call h1) = fst (xmur3_call h2) -> wrap32 h1 = wrap32 h2.
Proof.
  unfold xmur3_call. cbn [fst]. intros H.
  apply xorshift_cancel in H; [|lia].
  apply (imul_cancel 3266489909 2127672349) in H; [|reflexivity].
  apply xorshift_cancel in H; [|lia].
  apply (imul_cancel 2246822507 2781581891) in H; [|reflexivity].
  now apply xorshift_cancel in H.
Qed.

(** X14 - two seeds of the same length that differ in exactly one code unit
    never start the generator in the same state: every step of [xmur3] is
    a bijection of the 32-bit residues. *)
Theorem seed_sensitivity (p s : jsstring) (c1 c2 : Z) :
  0 <= c1 < 65536 -> 0 <= c2 < 65536 -> c1 <> c2 ->
  createDeterministicRng (p ++ c1 :: s)
  <> createDeterministicRng (p ++ c2 :: s).
Proof.
  intros H1 H2 Hne Heq. apply Hne.
  apply (f_equal rng_a) in Heq. unfold createDeterministicRng in Heq.
  cbn [rng_a] in Heq. apply xmur3_call_cancel in Heq.
  unfold xmur3 in Heq. rewrite !fold_left_app in Heq. cbn [fold_left] in Heq.
  apply fold_absorb_cancel in Heq.
  replace (length (p ++ c2 :: s)) with (length (p ++ c1 :: s)) in Heq
    by (rewrite !length_app; reflexivity).
  apply xmur3_absorb_cancel_unit in Heq.
  unfold wrap32 in Heq. rewrite !Z.mod_small in Heq by lia. exact Heq.
Qed.

Lemma seed_sensitivity_witness :
  createDeterministicRng (lit "RAIKU-A")
  <> createDeterministicRng (lit "RAIKU-B").
Proof.
  apply (seed_sensitivity (lit "RAIKU-") [] 65 66); [lia | lia | discriminate].
Defined.

(** ** The browser build *)

Lemma byteHex_byte (b : Z) :
  isByte b -> byteHex b = [hexDigit (b / 16); hexDigit (b mod 16)].
Proof.
  intros Hb. unfold isByte in Hb. unfold byteHex, toString16.
  destruct (Z.ltb_spec b 16) as [Hlt|Hge].
  - cbn [hexDigitsOf]. rewrite (proj2 (Z.ltb_lt b 16)) by lia.
    cbn [length padStart0 Nat.sub List.repeat app].
    unfold padStart0. cbn [length Nat.sub List.repeat app].
    rewrite Z.div_small by lia. reflexivity.
  - assert (4 <= Z.log2 b) as Hl
        by (change 4 with (Z.log2 16); apply Z.log2_le_mono; lia).
    destruct (Z.to_nat (Z.log2 b)) as [|k] eqn:Ek; [lia|].
    cbn [hexDigitsOf]. rewrite (proj2 (Z.ltb_ge b 16)) by lia.
    assert (0 <= b / 16 < 16) as Hq.
    { split; [apply Z.div_pos; lia | apply Z.div_lt_upper_bound; lia]. }
    rewrite (proj2 (Z.ltb_lt (b / 16) 16)) by lia.
    rewrite (Z.mod_small (b / 16)) by lia. reflexivity.
Qed.

Lemma nibbles_of_word (w i : Z) :
  0 <= i ->
  (Z.shiftr w (8 * i) mod 256) / 16 = Z.shiftr w (4 * (2 * i + 1)) mod 16
  /\ (Z.shiftr w (8 * i) mod 256) mod 16 = Z.shiftr w (4 * (2 * i)) mod 16.
Proof.
  intros Hi.
  replace (4 * (2 * i + 1)) with (8 * i + 4) by lia.
  replace (4 * (2 * i)) with (8 * i) by lia.
  rewrite <- (Z.shiftr_shiftr w (8 * i) 4) by lia.
  set (x := Z.shiftr w (8 * i)).
  rewrite (Z.shiftr_div_pow2 x 4) by lia. change (2 ^ 4) with 16.
  pose proof (Z.mod_pos_bound x 256 ltac:(lia)) as Hr.
  pose proof (Z.div_mod x 256 ltac:(lia)) as Hx.
  pose proof (Z.div_mod (x mod 256) 16 ltac:(lia)) as Hy.
  pose proof (Z.mod_pos_bound (x mod 256) 16 ltac:(lia)) as Hr0.
  assert (0 <= x mod 256 / 16 < 16) as Hr1.
  { split; [apply Z.div_pos; lia | apply Z.div_lt_upper_bound; lia]. }
  assert (x / 16 = 16 * (x / 256) + x mod 256 / 16) as Hq.
  { symmetry. apply (Z.div_unique _ _ _ ((x mod 256) mod 16)); lia. }
  split.
  - rewrite Hq.
    apply (Z.mod_unique _ _ (x / 256)); lia.
  - apply (Z.mod_unique _ _ (16 * (x / 256) + x mod 256 / 16)); lia.
Qed.

Lemma hexOfBytes_word (w : Z) :
  hexOfBytes (wordBytes w) = Sha256.hexWord w.
Proof.
  unfold hexOfBytes, wordBytes, Sha256.hexWord.
  cbn [List.map concat app].
  rewrite !byteHex_byte by (apply Z.mod_pos_bound; lia).
  destruct (nibbles_of_word w 3 ltac:(lia)) as [-> ->].
  destruct (nibbles_of_word w 2 ltac:(lia)) as [-> ->].
  destruct (nibbles_of_word w 1 ltac:(lia)) as [-> ->].
  destruct (nibbles_of_word w 0 ltac:(lia)) as [-> ->].
  reflexivity.
Qed.

Lemma hexOfBytes_app (l1 l2 : list Z) :
  hexOfBytes (l1 ++ l2) = hexOfBytes l1 ++ hexOfBytes l2.
Proof. unfold hexOfBytes. now rewrite List.map_app, concat_app. Qed.

Lemma hexOfBytes_digest (s : Sha256.state) :
  hexOfBytes (digestBytes s) = Sha256.hex s.
Proof.
  unfold digestBytes, Sha256.hex.
  now rewrite !hexOfBytes_app, !hexOfBytes_word.
Qed.

(** X15 - the browser build returns the record of the Node build.  For
    every log the digest string is the same: writing the 32 digest bytes
    in hexadecimal by hand, two padded digits each, gives the string of
    [digest("hex")].  With one sorting routine under both builds the
    records are equal; and with a routine under each that sorts by its
    comparator they are equal on rosters whose speeds are finite and
    pairwise distinct. *)
Theorem web_result_agrees (nodeSort browserSort : HostSort)
    (teamA_ teamB_ : list Character) (cfg : BattleConfig) :
  (forall log_, webComputeLogHash log_ = computeLogHash log_)
  /\ webSimulateBattle nodeSort teamA_ teamB_ cfg
     = simulateBattle nodeSort teamA_ teamB_ cfg
  /\ (sortsByComparator nodeSort -> sortsByComparator browserSort ->
      finiteSpeeds teamA_ -> finiteSpeeds teamB_ ->
      distinctSpeeds teamA_ teamB_ ->
      webSimulateBattle browserSort teamA_ teamB_ cfg
      = simulateBattle nodeSort teamA_ teamB_ cfg).
Proof.
  assert (forall log_, webComputeLogHash log_ = computeLogHash log_) as Hhex.
  { intros log_. unfold webComputeLogHash, computeLogHash.
    cbn zeta. apply hexOfBytes_digest. }
  assert (forall h, webSimulateBattle h teamA_ teamB_ cfg
                    = simulateBattle h teamA_ teamB_ cfg) as Hsame.
  { intros h. unfold webSimulateBattle, simulateBattle.
    destruct (runBattle h teamA_ teamB_ cfg) as [round_ st].
    now rewrite Hhex. }
  split; [exact Hhex|]. split; [apply Hsame|].
  intros H1 H2 FA FB Hds. rewrite Hsame.
  apply (simulateBattle_hosts _ _ H2 H1 _ _ _ FA FB Hds).
Qed.

Lemma hexDigit_inj (d e : Z) :
  0 <= d < 16 -> 0 <= e < 16 ->
  upperUnit (hexDigit d) = upperUnit (hexDigit e) -> d = e.
Proof.
  unfold upperUnit, hexDigit. intros Hd He.
  destruct (Z.ltb_spec d 10), (Z.ltb_spec e 10);
    repeat match goal with
           | |- context [?a <=? ?b] => destruct (Z.leb_spec a b)
           end; cbn [andb]; lia.
Qed.

Lemma hexDigit_upper (d : Z) :
  0 <= d < 16 -> isUpperHex (upperUnit (hexDigit d)).
Proof.
  unfold isUpperHex, upperUnit, hexDigit. intros Hd.
  destruct (Z.ltb_spec d 10);
    repeat match goal with
           | |- context [?a <=? ?b] => destruct (Z.leb_spec a b)
           end; cbn [andb]; lia.
Qed.

Lemma byteHex_upper_inj (b c : Z) :
  isByte b -> isByte c ->
  toUpperCase (byteHex b) = toUpperCase (byteHex c) -> b = c.
Proof.
  intros Hb Hc. rewrite !byteHex_byte by assumption.
  unfold isByte in *. cbn [toUpperCase List.map]. intros H.
  injection H as Hh Hl.
  apply hexDigit_inj in Hh;
    [|split; [apply Z.div_pos; lia | apply Z.div_lt_upper_bound; lia]..].
  apply hexDigit_inj in Hl; [|apply Z.mod_pos_bound; lia..].
  rewrite (Z.div_mod b 16), (Z.div_mod c 16) by lia. congruence.
Qed.

Lemma hexOfBytes_upper_inj (bs cs : list Z) :
  Forall isByte bs -> Forall isByte cs ->
  toUpperCase (hexOfBytes bs) = toUpperCase (hexOfBytes cs) -> bs = cs.
Proof.
  intros Hb. revert cs. induction Hb as [|b bs Hb Hbs IH]; intros cs Hc H.
  - destruct Hc as [|c cs Hc Hcs]; [reflexivity|].
    unfold hexOfBytes in H. cbn [List.map concat] in H.
    rewrite (byteHex_byte c Hc) in H. discriminate H.
  - destruct Hc as [|c cs Hc Hcs].
    + unfold hexOfBytes in H. cbn [List.map concat] in H.
      rewrite (byteHex_byte b Hb) in H. discriminate H.
    + unfold hexOfBytes in H. cbn [List.map concat] in H.
      fold (hexOfBytes bs) in H. fold (hexOfBytes cs) in H.
      pose proof (byteHex_byte b Hb) as Eb.
      pose proof (byteHex_byte c Hc) as Ec.
      unfold toUpperCase in H. rewrite !List.map_app in H.
      fold (toUpperCase (byteHex b)) in H.
      fold (toUpperCase (byteHex c)) in H.
      fold (toUpperCase (hexOfBytes bs)) in H.
      fold (toUpperCase (hexOfBytes cs)) in H.
      assert (toUpperCase (byteHex b) = toUpperCase (byteHex c)
              /\ toUpperCase (hexOfBytes bs) = toUpperCase (hexOfBytes cs))
        as [H1 H2].
      { rewrite Eb, Ec in *. cbn [toUpperCase List.map app] in *.
        injection H as Ha Hb' Hr. split; congruence. }
      f_equal; [now apply byteHex_upper_inj | now apply IH].
Qed.

Lemma hexOfBytes_shape (bs : list Z) :
  Forall isByte bs ->
  length (toUpperCase (hexOfBytes bs)) = (2 * length bs)%nat
  /\ Forall isUpperHex (toUpperCase (hexOfBytes bs)).
Proof.
  induction 1 as [|b bs Hb Hbs [IHl IHf]]; [split; [reflexivity | constructor]|].
  unfold hexOfBytes. cbn [List.map concat]. fold (hexOfBytes bs).
  rewrite (byteHex_byte b Hb). cbn [app toUpperCase List.map length].
  fold (toUpperCase (hexOfBytes bs)). unfold isByte in Hb.
  split; [rewrite IHl; lia|].
  constructor;
    [apply hexDigit_upper; split;
       [apply Z.div_pos; lia | apply Z.div_lt_upper_bound; lia]|].
  constructor; [apply hexDigit_upper, Z.mod_pos_bound; lia | exact IHf].
Qed.

(** X16 - [randomSeed] turns the random bytes into a seed without losing
    any of them: after the prefix come two upper-case hexadecimal digits
    per byte (18 code units for the six bytes drawn), and different bytes
    give different seeds. *)
Theorem randomSeed_faithful (bs cs : list Z) :
  Forall isByte bs -> Forall isByte cs ->
  length (randomSeed bs) = (6 + 2 * length bs)%nat
  /\ Forall isUpperHex (skipn 6 (randomSeed bs))
  /\ (randomSeed bs = randomSeed cs -> bs = cs).
Proof.
  intros Hb Hc. unfold randomSeed.
  destruct (hexOfBytes_shape bs Hb) as [Hl Hf].
  split; [rewrite length_app, Hl; reflexivity|].
  split; [exact Hf|].
  intros H. apply app_inv_head in H.
  now apply hexOfBytes_upper_inj.
Qed.

(** ** The numbers of the engine on test vectors *)

Example binary64_rounds :
  B64.sub (Num (inject_Z (2 ^ 60))) (Num 31) = Num (inject_Z (2 ^ 60))
  /\ B64.add (Num (inject_Z (2 ^ 53))) (Num 1) = Num (inject_Z (2 ^ 53))
  /\ B64.mul (Num (inject_Z (2 ^ 1023))) (Num 2) = PosInf
  /\ B64.mul PosInf (Num 0) = NaN
  /\ B64.max (Num 0) NaN = NaN
  /\ B64.floor (Num (-0.5)) = Num (-1)
  /\ B64.eqb NaN NaN = false.
Proof. vm_compute. repeat split. Qed.

Example number_toString :
  B64.toString (Num 122) = lit "122"
  /\ B64.toString (Num 0.1) = lit "0.1"
  /\ B64.toString (B64.add (Num 0.1) (Num 0.2)) = lit "0.30000000000000004"
  /\ B64.toString (Num (-2.5)) = lit "-2.5"
  /\ B64.toString (Num (inject_Z (2 ^ 53 + 1))) = lit "9007199254740992"
  /\ B64.toString (Num (inject_Z (2 ^ 60))) = lit "1152921504606847000"
  /\ B64.toString (Num (inject_Z (10 ^ 21))) = lit "1e+21"
  /\ B64.toString (Num (1 # 1000000)) = lit "0.000001"
  /\ B64.toString (Num (1 # 10000000)) = lit "1e-7"
  /\ B64.toString PosInf = lit "Infinity"
  /\ B64.toString NaN = lit "NaN".
Proof. vm_compute. repeat split. Qed.

(** Between two titans no blow shows in the health of its target: the
    difference of 2^60 and a damage below 128 is 2^60 again. *)
Example titans_stand :
  let r := runBattle pivotSort [titan "a" 5] [titan "b" 7] twoRounds in
  fst r = 2
  /\ List.map (fun e => damage e) (events (snd r))
     = [Num 36; Num 17; Num 23; Num 28]
  /\ forallb (fun e => B64.eqb (hpAfter (target e)) (hpBefore (target e)))
       (events (snd r)) = true.
Proof. vm_compute. repeat split. Qed.

(** A damage that is not finite is logged as [null], and described as
    [Infinity]. *)
Example infinite_damage :
  let r := runBattle insertionSort [colossus] [bystander] demoConfig in
  List.map (fun e => (damage e, jsonNumber (damage e), description e))
    (events (snd r))
  = [(PosInf, lit "null",
      lit "Colossus from Team A hits Bystander for Infinity damage (CRIT).")].
Proof. vm_compute. reflexivity. Qed.

(** ** The claims on concrete battles *)

Lemma defaultTeams_tame :
  Forall tame (fst createDefaultTeams) /\ Forall tame (snd createDefaultTeams).
Proof.
  split;
    repeat (constructor;
            [unfold tame, moderate; repeat split; vm_compute;
             first [reflexivity | discriminate]|]);
    constructor.
Qed.

Lemma defaultTeams_whole :
  Forall (fun c => (B64.value (maxHp c) <= B64.pow2 53)%Q)
    (fst createDefaultTeams)
  /\ Forall (fun c => (B64.value (maxHp c) <= B64.pow2 53)%Q)
       (snd createDefaultTeams).
Proof.
  split; repeat (constructor; [vm_compute; discriminate|]); constructor.
Qed.

Lemma defaultTeams_positive :
  Forall (fun c => B64.ltb (Num 0) (maxHp c) = true) (fst createDefaultTeams)
  /\ Forall (fun c => B64.ltb (Num 0) (maxHp c) = true)
       (snd createDefaultTeams).
Proof.
  split; repeat (constructor; [vm_compute; reflexivity|]); constructor.
Qed.

Lemma defaultTeams_finiteSpeeds :
  finiteSpeeds (fst createDefaultTeams)
  /\ finiteSpeeds (snd createDefaultTeams).
Proof.
  split; repeat (constructor; [vm_compute; reflexivity|]); constructor.
Qed.

Lemma titans_tame : Forall tame [titan "a" 5] /\ Forall tame [titan "b" 7].
Proof.
  split;
    repeat (constructor;
            [unfold tame, moderate; repeat split; vm_compute;
             first [reflexivity | discriminate]|]);
    constructor.
Qed.



Lemma winner_consistency_witness :
  let r := simulateBattle pivotSort [titan "a" 5] [titan "b" 7] twoRounds in
  B64.eqb (remainingHealth (fin_teamA (finalState r)))
    (remainingHealth (fin_teamB (finalState r))) = true
  /\ fullyDead (fin_teamA (finalState r))
     = fullyDead (fin_teamB (finalState r))
  /\ winner r = DRAW.
Proof.
  cbn zeta.
  assert (B64.eqb
            (remainingHealth
               (fin_teamA (finalState (simulateBattle pivotSort
                  [titan "a" 5] [titan "b" 7] twoRounds))))
            (remainingHealth
               (fin_teamB (finalState (simulateBattle pivotSort
                  [titan "a" 5] [titan "b" 7] twoRounds)))) = true) as H1.
  { rewrite simulateBattle_finalState. vm_compute. reflexivity. }
  assert (fullyDead
            (fin_teamA (finalState (simulateBattle pivotSort
               [titan "a" 5] [titan "b" 7] twoRounds)))
          = fullyDead
              (fin_teamB (finalState (simulateBattle pivotSort
                 [titan "a" 5] [titan "b" 7] twoRounds)))) as H2.
  { rewrite simulateBattle_finalState. vm_compute. reflexivity. }
  split; [exact H1|]. split; [exact H2|].
  exact (proj1 (proj2 (proj2 (proj2
    (winner_consistency pivotSort [titan "a" 5] [titan "b" 7] twoRounds))))
    H1 H2).
Defined.

Lemma health_bounds_witness :
  Forall tame (fst createDefaultTeams)
  /\ Forall tame (snd createDefaultTeams)
  /\ Forall eventOk
       (log (simulateBattle pivotSort (fst createDefaultTeams)
               (snd createDefaultTeams) demoConfig)).
Proof.
  split; [exact (proj1 defaultTeams_tame)|].
  split; [exact (proj2 defaultTeams_tame)|].
  exact (proj1 (proj2 (proj2
    (health_bounds pivotSort (fst createDefaultTeams)
       (snd createDefaultTeams) demoConfig
       (proj1 defaultTeams_tame) (proj2 defaultTeams_tame))))).
Defined.

(** What [midStrike] returns is the target of the strike before its
    [alive] flag is looked at. *)
Lemma strike_midStrike (round_ : Z) (e : TurnEntry)
    (fighter_ : InternalFighter) (st st' : Sim) (mid : InternalFighter) :
  midStrike e fighter_ st = Some mid ->
  strike round_ e fighter_ st = Continue st' ->
  exists i, teams st' = setOpponent (team e) i (clearAlive mid) (teams st).
Proof.
  unfold midStrike, strike.
  destruct (chooseTarget _ _) as [[[i t]|] g1]; [|discriminate].
  destruct (computeDamage g1 fighter_ t) as [roll g2].
  intros H1 H2. injection H1 as <-. injection H2 as <-.
  exists i. reflexivity.
Qed.

(** C5, as the claim states it, fails in two ways.  All templates below
    have [maxHp > 0].  The one critical hit of the colossus is a damage
    of [Infinity], no whole number.  And the blow of the bruiser takes
    the health of its target to 0 in the first of the two assignments,
    while [alive] is still true: the first turn of the battle is this
    strike, from the first state, and it goes through the target
    returned by [midStrike]. *)
Lemma health_bounds_counterexample :
  let overflow :=
    simulateBattle insertionSort [colossus] [bystander] demoConfig in
  let st := initialSim [bruiser] [bystander] (seed demoConfig) in
  let e := {| fighter := 0; team := TeamA |} in
  Forall (fun c => B64.ltb (Num 0) (maxHp c) = true)
    [colossus; bruiser; bystander]
  /\ List.map damage (log overflow) = [PosInf]
  /\ ~ Forall eventOk (log overflow)
  /\ fst (sortFighters insertionSort (teams st) (collectFighters (teams st))
            (rng st)) = [e; {| fighter := 0; team := TeamB |}]
  /\ snd (sortFighters insertionSort (teams st) (collectFighters (teams st))
            (rng st)) = rng st
  /\ exists mid st',
       midStrike e (cloneFighter bruiser) st = Some mid
       /\ hp mid = Num 0
       /\ alive mid = true
       /\ takeTurn 1 e st = Continue st'
       /\ teams st' = setOpponent TeamA 0 (clearAlive mid) (teams st).
Proof.
  cbn zeta.
  assert (List.map damage
            (log (simulateBattle insertionSort [colossus] [bystander]
                    demoConfig)) = [PosInf]) as Hd
      by (rewrite simulateBattle_log; vm_compute; reflexivity).
  split; [repeat (constructor; [vm_compute; reflexivity|]); constructor|].
  split; [exact Hd|].
  split.
  { intros H.
    destruct (log (simulateBattle insertionSort [colossus] [bystander]
                     demoConfig)) as [|ev rest]; [discriminate|].
    injection Hd as Hd _. apply Forall_inv in H.
    destruct H as ([F _] & _). rewrite Hd in F. discriminate. }
  split; [vm_compute; reflexivity|]. split; [vm_compute; reflexivity|].
  eexists _, _. split; [vm_compute; reflexivity|].
  split; [reflexivity|]. split; [reflexivity|].
  split; vm_compute; reflexivity.
Qed.

Lemma termination_bound_witness :
  0 < maxRounds demoConfig
  /\ 1 <= rounds (simulateBattle pivotSort (fst createDefaultTeams)
                    (snd createDefaultTeams) demoConfig)
       <= maxRounds demoConfig.
Proof.
  split; [reflexivity|].
  apply (termination_bound pivotSort (fst createDefaultTeams)
           (snd createDefaultTeams) demoConfig).
  reflexivity.
Defined.

(** C6, as the claim states it, fails: with both teams empty and a round
    allowed, the counter returned is 1. *)
Lemma empty_teams_counterexample :
  ~ (rounds (simulateBattle insertionSort [] [] demoConfig) = 0
     /\ log (simulateBattle insertionSort [] [] demoConfig) = []
     /\ winner (simulateBattle insertionSort [] [] demoConfig) = DRAW).
Proof.
  intros [H _]. unfold simulateBattle in H. rewrite runBattle_empty in H.
  discriminate H.
Qed.

Lemma nonpositive_rounds_witness :
  maxRounds noRounds <= 0
  /\ Forall (fun c => B64.ltb (Num 0) (maxHp c) = true)
       (fst createDefaultTeams)
  /\ Forall (fun c => B64.ltb (Num 0) (maxHp c) = true)
       (snd createDefaultTeams)
  /\ winner (simulateBattle pivotSort (fst createDefaultTeams)
               (snd createDefaultTeams) noRounds)
     = winnerByTotals (fst createDefaultTeams) (snd createDefaultTeams).
Proof.
  assert (maxRounds noRounds <= 0) as H by (vm_compute; discriminate).
  split; [exact H|].
  split; [exact (proj1 defaultTeams_positive)|].
  split; [exact (proj2 defaultTeams_positive)|].
  exact (proj1 (proj2 (proj2 (proj2 (proj2
    (nonpositive_rounds pivotSort (fst createDefaultTeams)
       (snd createDefaultTeams) noRounds H))))
    (proj1 defaultTeams_positive) (proj2 defaultTeams_positive))).
Defined.

Lemma turn_order_witness :
  sortsByComparator pivotSort
  /\ snd (sortFighters pivotSort
            (cloneTeams (fst createDefaultTeams) (snd createDefaultTeams))
            (collectFighters
               (cloneTeams (fst createDefaultTeams) (snd createDefaultTeams)))
            (createDeterministicRng (seed demoConfig)))
     = createDeterministicRng (seed demoConfig).
Proof.
  split; [exact pivotSort_sorts|].
  apply (turn_order pivotSort pivotSort_sorts 0 20 0
           (initialSim (fst createDefaultTeams) (snd createDefaultTeams)
              (seed demoConfig))).
  intros a b Ha Hb E. cbn in Ha, Hb.
  repeat (destruct Ha as [<-|Ha]; [|]); try contradiction;
    repeat (destruct Hb as [<-|Hb]; [|]); try contradiction;
    try reflexivity; vm_compute in E; discriminate E.
Defined.

(** ** The further properties on concrete battles *)

Lemma log_vital_witness :
  Forall tame (fst createDefaultTeams)
  /\ Forall tame (snd createDefaultTeams)
  /\ Forall (fun c => (B64.value (maxHp c) <= B64.pow2 53)%Q)
       (fst createDefaultTeams)
  /\ Forall (fun c => (B64.value (maxHp c) <= B64.pow2 53)%Q)
       (snd createDefaultTeams)
  /\ Forall eventVital
       (log (simulateBattle pivotSort (fst createDefaultTeams)
               (snd createDefaultTeams) demoConfig)).
Proof.
  split; [exact (proj1 defaultTeams_tame)|].
  split; [exact (proj2 defaultTeams_tame)|].
  split; [exact (proj1 defaultTeams_whole)|].
  split; [exact (proj2 defaultTeams_whole)|].
  exact (log_vital pivotSort (fst createDefaultTeams)
           (snd createDefaultTeams) demoConfig
           (proj1 defaultTeams_tame) (proj2 defaultTeams_tame)
           (proj1 defaultTeams_whole) (proj2 defaultTeams_whole)).
Defined.

Lemma early_stop_has_winner_witness :
  (fst createDefaultTeams <> [] \/ snd createDefaultTeams <> [])
  /\ rounds (simulateBattle pivotSort (fst createDefaultTeams)
               (snd createDefaultTeams) demoConfig) < maxRounds demoConfig
  /\ winner (simulateBattle pivotSort (fst createDefaultTeams)
               (snd createDefaultTeams) demoConfig) <> DRAW.
Proof.
  assert (fst createDefaultTeams <> [] \/ snd createDefaultTeams <> [])
    as H1 by (left; discriminate).
  assert (rounds (simulateBattle pivotSort (fst createDefaultTeams)
                    (snd createDefaultTeams) demoConfig)
          < maxRounds demoConfig) as H2
      by (rewrite simulateBattle_rounds; vm_compute; reflexivity).
  split; [exact H1|]. split; [exact H2|].
  destruct (early_stop_has_winner pivotSort (fst createDefaultTeams)
              (snd createDefaultTeams) demoConfig H1 H2)
    as [(_ & _ & ->)|(_ & _ & ->)]; discriminate.
Defined.

Lemma draw_needs_the_limit_witness :
  let r := simulateBattle pivotSort [titan "a" 5] [titan "b" 7] twoRounds in
  ([titan "a" 5] <> [] \/ [titan "b" 7] <> [])
  /\ winner r = DRAW
  /\ Forall tame [titan "a" 5]
  /\ Forall tame [titan "b" 7]
  /\ length (log r) = 4%nat
  /\ maxRounds twoRounds <= rounds r
  /\ B64.eqb (remainingHealth (fin_teamA (finalState r)))
       (remainingHealth (fin_teamB (finalState r))) = true.
Proof.
  cbn zeta.
  assert ([titan "a" 5] <> [] \/ [titan "b" 7] <> []) as H1
      by (left; discriminate).
  assert (winner (simulateBattle pivotSort [titan "a" 5] [titan "b" 7]
                    twoRounds) = DRAW) as H2
      by (rewrite simulateBattle_winner; vm_compute; reflexivity).
  pose proof (proj2 (draw_needs_the_limit pivotSort [titan "a" 5]
                       [titan "b" 7] twoRounds H1) H2)
    as (R & _ & _ & _ & _ & E).
  split; [exact H1|]. split; [exact H2|].
  split; [exact (proj1 titans_tame)|]. split; [exact (proj2 titans_tame)|].
  split; [rewrite simulateBattle_log; vm_compute; reflexivity|].
  split; [exact R|].
  exact (E (proj1 titans_tame) (proj2 titans_tame)).
Defined.

Lemma empty_side_loses_witness :
  snd createDefaultTeams <> []
  /\ 0 < maxRounds demoConfig
  /\ winner (simulateBattle pivotSort [] (snd createDefaultTeams)
               demoConfig) = WinnerB.
Proof.
  assert (snd createDefaultTeams <> []) as H1 by discriminate.
  assert (0 < maxRounds demoConfig) as H2 by reflexivity.
  split; [exact H1|]. split; [exact H2|].
  apply (empty_side_loses pivotSort (snd createDefaultTeams) demoConfig
           H1 H2).
Defined.

Lemma log_length_bound_witness :
  permutes pivotSort
  /\ Z.of_nat (length (log (simulateBattle pivotSort
                              (fst createDefaultTeams)
                              (snd createDefaultTeams) demoConfig)))
     <= rounds (simulateBattle pivotSort (fst createDefaultTeams)
                  (snd createDefaultTeams) demoConfig)
        * Z.of_nat (length (fst createDefaultTeams)
                    + length (snd createDefaultTeams)).
Proof.
  split; [exact (proj1 pivotSort_sorts)|].
  exact (log_length_bound pivotSort (fst createDefaultTeams)
           (snd createDefaultTeams) demoConfig (proj1 pivotSort_sorts)).
Defined.

Lemma four_draws_per_event_witness :
  comparesApart pivotSort
  /\ distinctSpeeds (fst createDefaultTeams) (snd createDefaultTeams)
  /\ length (log (simulateBattle pivotSort (fst createDefaultTeams)
                    (snd createDefaultTeams) demoConfig)) = 15%nat
  /\ rng (snd (runBattle pivotSort (fst createDefaultTeams)
                 (snd createDefaultTeams) demoConfig))
     = advance 60 (createDeterministicRng (seed demoConfig)).
Proof.
  assert (length (log (simulateBattle pivotSort (fst createDefaultTeams)
                         (snd createDefaultTeams) demoConfig)) = 15%nat)
    as E by (rewrite simulateBattle_log; vm_compute; reflexivity).
  split; [exact (proj1 (proj2 pivotSort_sorts))|].
  split; [exact defaultTeams_distinctSpeeds|].
  split; [exact E|].
  pose proof (four_draws_per_event pivotSort (fst createDefaultTeams)
                (snd createDefaultTeams) demoConfig
                (proj1 (proj2 pivotSort_sorts))
                defaultTeams_distinctSpeeds) as H.
  rewrite E in H. exact H.
Defined.

Lemma rounds_without_gaps_witness :
  permutes pivotSort
  /\ fst createDefaultTeams <> []
  /\ snd createDefaultTeams <> []
  /\ exists ev,
       In ev (log (simulateBattle pivotSort (fst createDefaultTeams)
                     (snd createDefaultTeams) demoConfig))
       /\ round ev = 5.
Proof.
  assert (fst createDefaultTeams <> []) as HA by discriminate.
  assert (snd createDefaultTeams <> []) as HB by discriminate.
  split; [exact (proj1 pivotSort_sorts)|].
  split; [exact HA|]. split; [exact HB|].
  apply (proj2 (rounds_without_gaps pivotSort (fst createDefaultTeams)
                  (snd createDefaultTeams) demoConfig
                  (proj1 pivotSort_sorts))
           HA HB).
  rewrite simulateBattle_rounds. vm_compute. split; discriminate.
Defined.

Lemma web_result_agrees_witness :
  sortsByComparator insertionSort
  /\ sortsByComparator pivotSort
  /\ finiteSpeeds (fst createDefaultTeams)
  /\ finiteSpeeds (snd createDefaultTeams)
  /\ distinctSpeeds (fst createDefaultTeams) (snd createDefaultTeams)
  /\ webSimulateBattle pivotSort (fst createDefaultTeams)
       (snd createDefaultTeams) demoConfig
     = simulateBattle insertionSort (fst createDefaultTeams)
         (snd createDefaultTeams) demoConfig.
Proof.
  split; [exact insertionSort_sorts|]. split; [exact pivotSort_sorts|].
  split; [exact (proj1 defaultTeams_finiteSpeeds)|].
  split; [exact (proj2 defaultTeams_finiteSpeeds)|].
  split; [exact defaultTeams_distinctSpeeds|].
  exact (proj2 (proj2
    (web_result_agrees insertionSort pivotSort (fst createDefaultTeams)
       (snd createDefaultTeams) demoConfig))
    insertionSort_sorts pivotSort_sorts
    (proj1 defaultTeams_finiteSpeeds) (proj2 defaultTeams_finiteSpeeds)
    defaultTeams_distinctSpeeds).
Defined.

Lemma randomSeed_faithful_witness :
  Forall isByte [0; 10; 255; 16; 1; 171]
  /\ Forall isByte [0; 10; 255; 16; 1; 172]
  /\ randomSeed [0; 10; 255; 16; 1; 171] = lit "RAIKU-000AFF1001AB"
  /\ length (randomSeed [0; 10; 255; 16; 1; 171]) = 18%nat.
Proof.
  assert (Forall isByte [0; 10; 255; 16; 1; 171]) as H1
      by (repeat constructor; unfold isByte; lia).
  assert (Forall isByte [0; 10; 255; 16; 1; 172]) as H2
      by (repeat constructor; unfold isByte; lia).
  split; [exact H1|]. split; [exact H2|]. split; [reflexivity|].
  exact (proj1 (randomSeed_faithful _ _ H1 H2)).
Defined.

